(** * money-utils: rounding, redistribution and invoice line items

    A shallow embedding of [money.utils.ts] and [constant/money.ts] of
    @sifxt/money-utils, and the properties of the rounding-and-conservation
    core: line-item invariants, residual redistribution, aggregation and
    the integrity checker, the CGST/SGST split, division by zero and input
    sanitisation.

    Conventions of the embedding.
    - A decimal string is modelled by the exact rational it denotes, a
      [Q]; numeric equality of the engine ([preciseEquals]) is [Qeq], so
      ['100.00'] and ['100'] are the same value.
    - A finite JS number is modelled by the decimal it prints as, which is
      what the engine reads when it is handed a number.  The conversion of
      a decimal to a number ([toNumber], [safeToNumber]) rounds to the
      nearest double; it is exact on the decimals of at most 15 significant
      digits ([exactNumber]), and there the model, the identity, agrees
      with it.  The statements about the value of a converted decimal are
      made on that domain; [NaN] and [Infinity] are outside the model.
    - A JS string is modelled by the string of its characters when these
      are ASCII ([asciiOnly]); [toUpperCase] is the mapping of
      [String.prototype.toUpperCase] on such strings, and the statements
      about the case mapping are made for them.
    - An argument of type [number | string] that the source passes through
      [safeParsePreciseString] is an [option Decimal]: [None] stands for
      [undefined] or a string that is not a decimal.
    - A function that can throw returns a [result]; [throw] inside a callee
      propagates through stdpp's monadic bind. *)

From Stdlib Require Import ZArith QArith Qround Qminmax Qpower Qabs Lia Lqa String Ascii.
From stdpp Require Import base option list strings gmap.

Local Open Scope Q_scope.

(** ** Exceptions *)

Inductive JsError : Type :=
  | DivisionByZero   (* thrown by the decimal engine: 'Division by zero' *)
  | RangeError       (* thrown by String.prototype.repeat on a negative count *)
  | InvalidDecimal.  (* the decimal engine refusing an operand that is no decimal *)

Inductive result (A : Type) : Type :=
  | Ok (a : A)
  | Throw (e : JsError).
Arguments Ok {A} a.
Arguments Throw {A} e.

#[global] Instance result_ret : MRet result := fun A a => Ok a.
#[global] Instance result_bind : MBind result := fun A B f m =>
  match m with
  | Ok a => f a
  | Throw e => Throw e
  end.

Definition returns {A : Type} (m : result A) : bool :=
  match m with Ok _ => true | Throw _ => false end.

(** ** JavaScript strings *)

Fixpoint repeat_string (s : string) (n : nat) : string :=
  match n with
  | O => EmptyString
  | S n' => s +:+ repeat_string s n'
  end.

(** [String.prototype.repeat]: a negative count is a [RangeError]. *)
Definition String_repeat (s : string) (count : Z) : result string :=
  if (count <? 0)%Z then Throw RangeError
  else Ok (repeat_string s (Z.to_nat count)).

Definition upper_ascii (c : ascii) : ascii :=
  let n := nat_of_ascii c in
  if ((97 <=? n) && (n <=? 122))%nat then ascii_of_nat (n - 32) else c.

(** [String.prototype.toUpperCase] on a string of ASCII characters: the
    letters a to z are mapped to A to Z, every other character is kept.
    (On other strings the built-in also maps letters outside ASCII.) *)
Fixpoint toUpperCase (s : string) : string :=
  match s with
  | EmptyString => EmptyString
  | String c s' => String (upper_ascii c) (toUpperCase s')
  end.

(** ** The decimal engine (@sifxt/math-utils) *)

(** A decimal value, by the rational it denotes. *)
Abbreviation Decimal := Q (only parsing).

Definition pow10 (d : nat) : Z := (10 ^ Z.of_nat d)%Z.

(** One minor unit at scale [d]: 10^-d. *)
Definition minorUnit (d : nat) : Decimal := / inject_Z (pow10 d).

Inductive PrecisionRoundingMode : Type :=
  | UP | DOWN | CEIL | FLOOR
  | HALF_UP | HALF_DOWN | HALF_EVEN | HALF_CEIL | HALF_FLOOR.

Definition DEFAULT_PRECISION_ROUNDING_MODE : PrecisionRoundingMode := HALF_EVEN.

(** Modelled from the spec: the rounding decision of the decimal engine
    (section 4.1), whose source is not part of this repository.  The value,
    already multiplied by 10^scale, is separated into its integer part [fl]
    (the floor) and the remainder [r] over the denominator [p]; the non-tie
    modes decide from the sign of the value and whether [r] is zero, the
    tie modes compare [r] with one half and fall back to the nearer
    integer when it is no tie. *)
Definition roundToInteger (mode : PrecisionRoundingMode) (q : Q) : Z :=
  let n := Qnum q in
  let p := Zpos (Qden q) in
  let fl := (n / p)%Z in
  let r := (n mod p)%Z in
  let ce := if (r =? 0)%Z then fl else (fl + 1)%Z in
  let nearest (tie : Z) :=
    match (2 * r ?= p)%Z with
    | Lt => fl
    | Gt => (fl + 1)%Z
    | Eq => tie
    end in
  match mode with
  | FLOOR => fl
  | CEIL => ce
  | DOWN => if (0 <=? n)%Z then fl else ce
  | UP => if (0 <=? n)%Z then ce else fl
  | HALF_UP => nearest (if (0 <=? n)%Z then fl + 1 else fl)%Z
  | HALF_DOWN => nearest (if (0 <=? n)%Z then fl else fl + 1)%Z
  | HALF_EVEN => nearest (if Z.even fl then fl else fl + 1)%Z
  | HALF_CEIL => nearest (fl + 1)%Z
  | HALF_FLOOR => nearest fl
  end.

(** Modelled from the spec: [preciseRound(value, decimalPlaces, mode)] of
    the decimal engine, the value rounded to [decimalPlaces] fractional
    digits. *)
Definition preciseRound (value : Decimal) (decimalPlaces : nat)
    (mode : PrecisionRoundingMode) : Decimal :=
  inject_Z (roundToInteger mode (value * inject_Z (pow10 decimalPlaces)))
  * minorUnit decimalPlaces.

(** Modelled from the spec: the exact operations of the decimal engine
    (section 6): add, subtract and multiply lose no precision, the
    comparisons are total and exact. *)
Definition preciseAdd (a b : Decimal) : Decimal := a + b.
Definition preciseSubtract (a b : Decimal) : Decimal := a - b.
Definition preciseMultiply (a b : Decimal) : Decimal := a * b.
Definition preciseEquals (a b : Decimal) : bool := Qeq_bool a b.
Definition preciseGreaterThan (a b : Decimal) : bool := negb (Qle_bool a b).
Definition preciseIsZero (a : Decimal) : bool := Qeq_bool a 0.
Definition preciseIsNegative (a : Decimal) : bool := negb (Qle_bool 0 a).
Definition preciseMax (a b : Decimal) : Decimal :=
  if preciseGreaterThan b a then b else a.
Definition preciseClamp (value lo hi : Decimal) : Decimal :=
  if preciseGreaterThan lo value then lo
  else if preciseGreaterThan value hi then hi
  else value.
Definition preciseSum (values : list Decimal) : Decimal :=
  fold_left preciseAdd values 0.

(** Modelled from the spec: [precisePercentage(value, rate)] is
    value × rate / 100 (a shift of the decimal point, hence exact). *)
Definition precisePercentage (value rate : Decimal) : Decimal :=
  value * rate / 100.

(** [PRECISION.CALCULATION] of constant/money.ts, the engine's default
    number of fractional digits of a quotient. *)
Definition DEFAULT_PRECISION : nat := 20.

(** Modelled from the spec: [preciseDivide(a, b, precision)] yields the
    quotient truncated to [precision] fractional digits and fails with the
    DivisionByZero condition when [b] is zero. *)
Definition truncateTo (precision : nat) (x : Decimal) : Decimal :=
  preciseRound x precision DOWN.

Definition preciseDivide (a b : Decimal) (precision : nat) : result Decimal :=
  if preciseIsZero b then Throw DivisionByZero
  else Ok (truncateTo precision (a / b)).

(** Modelled from the spec: [safeParsePreciseString(value, fallback)] is
    the decimal when the value is one, the fallback otherwise. *)
Definition safeParsePreciseString (value : option Decimal)
    (fallback : Decimal) : Decimal :=
  default fallback value.

(** The numeric helpers of the engine, on finite numbers.  The conversion
    of a decimal to a number is the identity on the decimals that a number
    holds exactly ([exactNumber] below); beyond them the double nearest to
    the decimal differs from it, which the model does not follow. *)
Definition safeToNumber (value : Decimal) (fallback : Decimal) : Decimal := value.
Definition toNumber (value : Decimal) : Decimal := value.
Definition mathFloor (x : Decimal) : Z := Qfloor x.
Definition mathMax (a b : Z) : Z := Z.max a b.
Definition mathClamp (value lo hi : Z) : Z := Z.min (Z.max value lo) hi.
Definition mathIsZero (x : Decimal) : bool := Qeq_bool x 0.
Definition MAX_SAFE_INTEGER : Z := 9007199254740991.

(** Modelled from the spec: the part of the engine's operand parser
    ([parseToString]) that reads a plain decimal literal: an optional
    minus sign, integer digits and an optional fraction. *)
Definition digit_of_ascii (c : ascii) : option Z :=
  let n := nat_of_ascii c in
  if ((48 <=? n) && (n <=? 57))%nat then Some (Z.of_nat (n - 48)) else None.

Fixpoint parse_fraction (s : string) (mantissa : Z) (scale : nat)
    : option (Z * nat) :=
  match s with
  | EmptyString => Some (mantissa, scale)
  | String c s' =>
      match digit_of_ascii c with
      | Some dg => parse_fraction s' (10 * mantissa + dg)%Z (S scale)
      | None => None
      end
  end.

Fixpoint parse_integer (s : string) (mantissa : Z) : option (Z * nat) :=
  match s with
  | EmptyString => Some (mantissa, O)
  | String c s' =>
      if Ascii.eqb c "." then parse_fraction s' mantissa O
      else match digit_of_ascii c with
           | Some dg => parse_integer s' (10 * mantissa + dg)%Z
           | None => None
           end
  end.

Definition parseDecimal (s : string) : result Decimal :=
  let '(negative, digits) :=
    match s with
    | String c s' => if Ascii.eqb c "-" then (true, s') else (false, s)
    | EmptyString => (false, s)
    end in
  match parse_integer digits 0 with
  | Some (m, sc) =>
      let v := inject_Z m * minorUnit sc in
      Ok (if negative : bool then - v else v)
  | None => Throw InvalidDecimal
  end.

(** ** constant/money.ts *)

Inductive RoundingMode : Type :=
  | ROUND_UP | ROUND_DOWN | ROUND_CEIL | ROUND_FLOOR
  | ROUND_HALF_UP | ROUND_HALF_DOWN | ROUND_HALF_EVEN
  | ROUND_HALF_CEIL | ROUND_HALF_FLOOR.

Definition DEFAULT_ROUNDING_MODE : RoundingMode := ROUND_HALF_EVEN.
Definition DEFAULT_DECIMAL_PLACES : nat := 2.

(** The configuration record, without its display fields (symbol, locale,
    smallest-unit name, full name). *)
Record CurrencyConfig : Type := {
  code : string;
  decimalPlaces : nat;
  roundingMode : RoundingMode
}.

Definition CURRENCY_CODES : list string :=
  [ "INR"; "USD"; "EUR"; "GBP";
    "AUD"; "SGD"; "JPY"; "CNY"; "HKD"; "THB"; "MYR"; "IDR"; "PHP"; "VND";
    "KRW"; "TWD"; "NZD";
    "AED"; "SAR"; "QAR"; "KWD"; "BHD"; "OMR";
    "CAD"; "MXN"; "BRL";
    "CHF"; "SEK"; "NOK"; "DKK"; "PLN"; "CZK"; "RUB"; "TRY";
    "ZAR"; "EGP"; "NGN"; "KES";
    "LKR"; "PKR"; "BDT"; "NPR"; "MVR" ]%string.

Definition CURRENCY_DECIMAL_PLACES : gmap string nat :=
  list_to_map
    [ ("JPY", 0); ("KRW", 0); ("VND", 0); ("IDR", 0);
      ("KWD", 3); ("BHD", 3); ("OMR", 3);
      ("INR", 2); ("USD", 2); ("EUR", 2); ("GBP", 2); ("AUD", 2);
      ("SGD", 2); ("CNY", 2); ("HKD", 2); ("THB", 2); ("MYR", 2);
      ("PHP", 2); ("TWD", 2); ("NZD", 2); ("AED", 2); ("SAR", 2);
      ("QAR", 2); ("CAD", 2); ("MXN", 2); ("BRL", 2); ("CHF", 2);
      ("SEK", 2); ("NOK", 2); ("DKK", 2); ("PLN", 2); ("CZK", 2);
      ("RUB", 2); ("TRY", 2); ("ZAR", 2); ("EGP", 2); ("NGN", 2);
      ("KES", 2); ("LKR", 2); ("PKR", 2); ("BDT", 2); ("NPR", 2);
      ("MVR", 2) ]%string%nat.

Definition CURRENCIES : gmap string CurrencyConfig :=
  foldl
    (fun acc key =>
       <[ key := {| code := key;
                    decimalPlaces := default 2%nat (CURRENCY_DECIMAL_PLACES !! key);
                    roundingMode := DEFAULT_ROUNDING_MODE |} ]> acc)
    (list_to_map []) CURRENCY_CODES.

Definition getCurrencyConfig (currencyCode : string) : CurrencyConfig :=
  match CURRENCIES !! toUpperCase currencyCode with
  | Some config => config
  | None =>
      {| code := toUpperCase currencyCode;
         decimalPlaces := DEFAULT_DECIMAL_PLACES;
         roundingMode := DEFAULT_ROUNDING_MODE |}
  end.

Definition getCurrencyDecimalPlaces (currencyCode : string) : nat :=
  decimalPlaces (getCurrencyConfig currencyCode).

(** ** money.utils.ts: rounding *)

Definition mapRoundingMode (mode : RoundingMode) : PrecisionRoundingMode :=
  match mode with
  | ROUND_UP => UP
  | ROUND_DOWN => DOWN
  | ROUND_CEIL => CEIL
  | ROUND_FLOOR => FLOOR
  | ROUND_HALF_UP => HALF_UP
  | ROUND_HALF_DOWN => HALF_DOWN
  | ROUND_HALF_EVEN => HALF_EVEN
  | ROUND_HALF_CEIL => HALF_CEIL
  | ROUND_HALF_FLOOR => HALF_FLOOR
  end.

Definition round (value : Decimal) (decimalPlaces : nat) (mode : RoundingMode)
    : Decimal :=
  preciseRound value decimalPlaces (mapRoundingMode mode).

Definition roundForCurrency (value : Decimal) (currency : string)
    (mode : RoundingMode) : Decimal :=
  let decimalPlaces := getCurrencyDecimalPlaces currency in
  round value decimalPlaces mode.

Definition DEFAULT_CURRENCY_CODE : string := "INR".

(** ** money.utils.ts: money objects and the number helpers *)

Record Money : Type := {
  amount : Decimal;
  currency : string
}.

Definition divideMoney (money : Money) (divisor : Decimal) : result Money :=
  q ← preciseDivide (amount money) divisor DEFAULT_PRECISION;
  mret {| amount := q; currency := currency money |}.

Inductive Direction : Type := DirectionUP | DirectionDOWN.

(** The second argument is a currency code or, when it reads 'UP' or
    'DOWN', the direction itself. *)
Definition roundCurrencyNumber (value : Decimal) (currencyOrDirection : string)
    (direction : option Direction) : Decimal :=
  let '(currency, roundDir) :=
    if String.eqb currencyOrDirection "UP"
    then (DEFAULT_CURRENCY_CODE, Some DirectionUP)
    else if String.eqb currencyOrDirection "DOWN"
    then (DEFAULT_CURRENCY_CODE, Some DirectionDOWN)
    else (currencyOrDirection, direction) in
  let decimalPlaces := getCurrencyDecimalPlaces currency in
  let mode :=
    match roundDir with
    | Some DirectionUP => ROUND_CEIL
    | Some DirectionDOWN => ROUND_FLOOR
    | None => DEFAULT_ROUNDING_MODE
    end in
  toNumber (round value decimalPlaces mode).

Definition divideMoneyNumbers (a b : Decimal) (currency : string)
    : result Decimal :=
  if mathIsZero (safeToNumber b 0) then mret 0
  else
    q ← preciseDivide a b DEFAULT_PRECISION;
    mret (roundCurrencyNumber q currency None).

(** ** money.utils.ts: distributing a rounding adjustment *)

(** [result[itemIndex] = preciseAdd(result[itemIndex], increment)]; the
    index is always in range (it is taken modulo the length), where stdpp's
    [alter] and the JS assignment agree. *)
Definition add_at (itemIndex : nat) (increment : Decimal)
    (result : list Decimal) : list Decimal :=
  alter (fun x => preciseAdd x increment) itemIndex result.

(** The [while] loop, by recursion on the iterations left before the
    safety limit [index < result.length * 10] stops it. *)
Fixpoint redistribute (left : nat) (index : nat) (increment : Decimal)
    (result : list Decimal) (difference : Decimal) : list Decimal :=
  match left with
  | O => result
  | S left' =>
      if preciseIsZero difference then result
      else
        let itemIndex := (index mod length result)%nat in
        redistribute left' (S index) increment
          (add_at itemIndex increment result)
          (preciseSubtract difference increment)
  end.

Definition distributeRoundingAdjustment (values : list Decimal)
    (targetTotal : Decimal) (decimalPlaces : nat) : result (list Decimal) :=
  if (length values =? 0)%nat then mret []
  else
    let roundedValues :=
      map (fun v => round v decimalPlaces DEFAULT_ROUNDING_MODE) values in
    let currentSum := preciseSum roundedValues in
    let difference := preciseSubtract targetTotal currentSum in
    if preciseIsZero difference then mret roundedValues
    else
      zeros ← String_repeat "0" (Z.of_nat decimalPlaces - 1);
      increment ← parseDecimal
        (if preciseGreaterThan difference 0
         then "0." +:+ zeros +:+ "1"
         else "-0." +:+ zeros +:+ "1");
      mret (redistribute (length roundedValues * 10) 0 increment
              roundedValues difference).

(** ** money.utils.ts: invoice line items *)

(** [quantity] is a JS number; the other amounts are [number | string]
    and optional. *)
Record LineItemInput : Type := {
  in_unitPrice : option Decimal;
  in_quantity : Decimal;
  in_discountAmount : option Decimal;
  in_taxRate : option Decimal;
  in_currency : option string
}.

Record ValidatedLineItem : Type := {
  v_unitPrice : Decimal;
  v_quantity : Z;
  v_discountAmount : Decimal;
  v_taxRate : Decimal;
  v_currency : string;
  v_isValid : bool;
  v_errors : list string
}.

Record SanitizedInput : Type := {
  s_unitPrice : Decimal;
  s_quantity : Z;
  s_discountAmount : Decimal;
  s_taxRate : Decimal
}.

Record Calculated : Type := {
  grossAmount : Decimal;
  taxableAmount : Decimal;
  taxAmount : Decimal;
  total : Decimal
}.

Record LineItemResult : Type := {
  input : SanitizedInput;
  calculated : Calculated;
  roundingAdjustment : Decimal;
  li_currency : string;
  li_decimalPlaces : nat
}.

(** [EnteredTotalLineItemResult extends LineItemResult]: the fields of the
    base interface are those of [et_base]. *)
Record EnteredTotalLineItemResult : Type := {
  et_base :> LineItemResult;
  exactUnitPrice : Decimal;
  displayedUnitPrice : Decimal;
  recomputedTotal : Decimal;
  hasAdjustment : bool
}.

(** [errors.push(msg)] when the condition holds. *)
Definition push_if (cond : bool) (msg : string) (errors : list string)
    : list string :=
  if cond then errors ++ [msg] else errors.

Definition validateLineItemInput (input : LineItemInput) : ValidatedLineItem :=
  let errors : list string := [] in
  (* unit price *)
  let unitPrice := safeParsePreciseString (in_unitPrice input) 0 in
  let errors := push_if (preciseIsNegative unitPrice)
                  "Unit price cannot be negative" errors in
  let unitPrice := if preciseIsNegative unitPrice then 0 else unitPrice in
  (* quantity *)
  let rawQuantity := mathFloor (safeToNumber (in_quantity input) 1) in
  let quantity := mathClamp rawQuantity 1 MAX_SAFE_INTEGER in
  let errors := push_if (negb (Qle_bool 1 (in_quantity input)))
                  "Quantity must be at least 1" errors in
  (* discount *)
  let discountAmount := safeParsePreciseString (in_discountAmount input) 0 in
  let errors := push_if (preciseIsNegative discountAmount)
                  "Discount cannot be negative" errors in
  let discountAmount :=
    preciseClamp discountAmount 0 (preciseMax discountAmount 0) in
  (* tax rate *)
  let taxRate := safeParsePreciseString (in_taxRate input) 0 in
  let errors := push_if (preciseIsNegative taxRate)
                  "Tax rate cannot be negative" errors in
  let errors := push_if (preciseGreaterThan taxRate 100)
                  "Tax rate cannot exceed 100%" errors in
  let taxRate := preciseClamp taxRate 0 100 in
  (* currency: input.currency || 'INR' *)
  let currency :=
    match in_currency input with
    | Some c => if String.eqb c "" then "INR"%string else c
    | None => "INR"%string
    end in
  {| v_unitPrice := unitPrice;
     v_quantity := quantity;
     v_discountAmount := discountAmount;
     v_taxRate := taxRate;
     v_currency := currency;
     v_isValid := (length errors =? 0)%nat;
     v_errors := errors |}.

Definition calculateLineItem (input : LineItemInput) : LineItemResult :=
  let validated := validateLineItemInput input in
  let unitPrice := v_unitPrice validated in
  let quantity := v_quantity validated in
  let discountAmount := v_discountAmount validated in
  let taxRate := v_taxRate validated in
  let currency := v_currency validated in
  let decimalPlaces := getCurrencyDecimalPlaces currency in
  (* Step 1: gross amount = unitPrice × quantity (rounded) *)
  let grossAmount :=
    roundForCurrency (preciseMultiply unitPrice (inject_Z quantity))
      currency DEFAULT_ROUNDING_MODE in
  (* Step 2: taxable amount = grossAmount - discount (rounded) *)
  let effectiveDiscount :=
    if preciseGreaterThan discountAmount grossAmount
    then grossAmount else discountAmount in
  let taxableAmount :=
    roundForCurrency (preciseSubtract grossAmount effectiveDiscount)
      currency DEFAULT_ROUNDING_MODE in
  (* Step 3: tax amount = taxable × (taxRate / 100) (rounded) *)
  let taxAmount :=
    roundForCurrency (precisePercentage taxableAmount taxRate)
      currency DEFAULT_ROUNDING_MODE in
  (* Step 4: total = taxable + tax (rounded) *)
  let total :=
    roundForCurrency (preciseAdd taxableAmount taxAmount)
      currency DEFAULT_ROUNDING_MODE in
  {| input := {| s_unitPrice := unitPrice;
                 s_quantity := quantity;
                 s_discountAmount := effectiveDiscount;
                 s_taxRate := taxRate |};
     calculated := {| grossAmount := grossAmount;
                      taxableAmount := taxableAmount;
                      taxAmount := taxAmount;
                      total := total |};
     roundingAdjustment := 0;
     li_currency := currency;
     li_decimalPlaces := decimalPlaces |}.

Definition calculateLineItemFromTotal (enteredTotal : Decimal)
    (quantity : Decimal) (taxRate : option Decimal)
    (discountAmount : option Decimal) (currency : string)
    : result EnteredTotalLineItemResult :=
  (* total_, taxableAmount_, grossAmount_: the locals total, taxableAmount
     and grossAmount of the source, renamed apart from the record fields *)
  let decimalPlaces := getCurrencyDecimalPlaces currency in
  let total_ := roundForCurrency enteredTotal currency DEFAULT_ROUNDING_MODE in
  let discount := safeParsePreciseString discountAmount 0 in
  let tax := safeParsePreciseString taxRate 0 in
  let qty := mathMax 1 (mathFloor (safeToNumber quantity 1)) in
  (* Step 1: taxable = total / (1 + taxRate/100) *)
  taxFraction ← preciseDivide tax 100 DEFAULT_PRECISION;
  let taxMultiplier := preciseAdd 1 taxFraction in
  exactTaxable ← preciseDivide total_ taxMultiplier DEFAULT_PRECISION;
  let taxableAmount_ :=
    roundForCurrency exactTaxable currency DEFAULT_ROUNDING_MODE in
  (* Step 2: gross = taxable + discount *)
  let grossAmount_ :=
    roundForCurrency (preciseAdd taxableAmount_ discount)
      currency DEFAULT_ROUNDING_MODE in
  (* Step 3: exact unit price, kept at 10 decimal places *)
  exactUnitPrice ← preciseDivide grossAmount_ (inject_Z qty) 10;
  let displayedUnitPrice :=
    roundForCurrency exactUnitPrice currency DEFAULT_ROUNDING_MODE in
  (* Step 4: recompute from the displayed unit price *)
  let recomputedResult :=
    calculateLineItem
      {| in_unitPrice := Some displayedUnitPrice;
         in_quantity := inject_Z qty;
         in_discountAmount := Some discount;
         in_taxRate := Some tax;
         in_currency := Some currency |} in
  (* Step 5: adjustment *)
  let recomputedTotal := total (calculated recomputedResult) in
  let adjustment := preciseSubtract total_ recomputedTotal in
  let hasAdjustment := negb (preciseIsZero adjustment) in
  mret
    {| et_base :=
         {| input := {| s_unitPrice := displayedUnitPrice;
                        s_quantity := qty;
                        s_discountAmount := discount;
                        s_taxRate := tax |};
            calculated :=
              {| grossAmount := grossAmount (calculated recomputedResult);
                 taxableAmount := taxableAmount (calculated recomputedResult);
                 taxAmount := taxAmount (calculated recomputedResult);
                 total := total_ |};
            roundingAdjustment := adjustment;
            li_currency := currency;
            li_decimalPlaces := decimalPlaces |};
       exactUnitPrice := exactUnitPrice;
       displayedUnitPrice := displayedUnitPrice;
       recomputedTotal := recomputedTotal;
       hasAdjustment := hasAdjustment |}.

(** ** money.utils.ts: aggregation and the integrity checker *)

Record InvoiceAggregation : Type := {
  totalTaxable : Decimal;
  totalTax : Decimal;
  totalBeforeAdjustment : Decimal;
  totalAdjustment : Decimal;
  grandTotal : Decimal;
  itemCount : nat;
  hasAdjustments : bool;
  items : list LineItemResult;
  agg_currency : string
}.

Definition aggregateLineItems (items : list LineItemResult)
    (currency : string) : InvoiceAggregation :=
  if (length items =? 0)%nat then
    {| totalTaxable := 0;
       totalTax := 0;
       totalBeforeAdjustment := 0;
       totalAdjustment := 0;
       grandTotal := 0;
       itemCount := 0;
       hasAdjustments := false;
       items := [];
       agg_currency := currency |}
  else
    let totalTaxable :=
      roundForCurrency
        (preciseSum (map (fun item => taxableAmount (calculated item)) items))
        currency DEFAULT_ROUNDING_MODE in
    let totalTax :=
      roundForCurrency
        (preciseSum (map (fun item => taxAmount (calculated item)) items))
        currency DEFAULT_ROUNDING_MODE in
    let totalBeforeAdjustment :=
      roundForCurrency (preciseAdd totalTaxable totalTax)
        currency DEFAULT_ROUNDING_MODE in
    let totalAdjustment :=
      preciseSum (map (fun item => roundingAdjustment item) items) in
    let grandTotal :=
      roundForCurrency (preciseAdd totalBeforeAdjustment totalAdjustment)
        currency DEFAULT_ROUNDING_MODE in
    let sumOfLineTotals :=
      roundForCurrency
        (preciseSum (map (fun item => total (calculated item)) items))
        currency DEFAULT_ROUNDING_MODE in
    let finalAdjustment :=
      if negb (preciseEquals grandTotal sumOfLineTotals) then
        let additionalAdjustment :=
          preciseSubtract sumOfLineTotals grandTotal in
        preciseAdd totalAdjustment additionalAdjustment
      else totalAdjustment in
    let hasAdjustments := negb (preciseIsZero finalAdjustment) in
    {| totalTaxable := totalTaxable;
       totalTax := totalTax;
       totalBeforeAdjustment := totalBeforeAdjustment;
       totalAdjustment :=
         roundForCurrency finalAdjustment currency DEFAULT_ROUNDING_MODE;
       grandTotal := sumOfLineTotals;
       itemCount := length items;
       hasAdjustments := hasAdjustments;
       items := items;
       agg_currency := currency |}.

(** The two messages of the checker, with the values they print:
    ['Line item n: total (t) ≠ taxable + tax + adjustment (e)'] and
    ['Grand total (g) ≠ sum of line totals (e)']. *)
Inductive IntegrityError : Type :=
  | LineItemMismatch (lineNumber : nat) (stored expected : Decimal)
  | GrandTotalMismatch (stored expected : Decimal).

Record IntegrityDetails : Type := {
  expectedGrandTotal : Decimal;
  actualGrandTotal : Decimal;
  difference : Decimal
}.

Record IntegrityReport : Type := {
  isValid : bool;
  errors : list IntegrityError;
  details : IntegrityDetails
}.

(** The [for] loop over [aggregation.items], from index [i] on. *)
Fixpoint verifyLineItems (currency : string) (i : nat)
    (items : list LineItemResult) (errors : list IntegrityError)
    : list IntegrityError :=
  match items with
  | [] => errors
  | item :: rest =>
      let expectedTotal :=
        roundForCurrency
          (preciseAdd
             (preciseAdd (taxableAmount (calculated item))
                         (taxAmount (calculated item)))
             (roundingAdjustment item))
          currency DEFAULT_ROUNDING_MODE in
      let errors :=
        if negb (preciseEquals (total (calculated item)) expectedTotal)
        then errors ++ [LineItemMismatch (i + 1) (total (calculated item))
                          expectedTotal]
        else errors in
      verifyLineItems currency (S i) rest errors
  end.

Definition verifyInvoiceIntegrity (aggregation : InvoiceAggregation)
    : IntegrityReport :=
  let currency := agg_currency aggregation in
  let errors := verifyLineItems currency 0 (items aggregation) [] in
  let expectedGrandTotal :=
    roundForCurrency
      (preciseSum (map (fun item => total (calculated item))
                       (items aggregation)))
      currency DEFAULT_ROUNDING_MODE in
  let errors :=
    if negb (preciseEquals (grandTotal aggregation) expectedGrandTotal)
    then errors ++ [GrandTotalMismatch (grandTotal aggregation)
                      expectedGrandTotal]
    else errors in
  let difference :=
    preciseSubtract (grandTotal aggregation) expectedGrandTotal in
  {| isValid := (length errors =? 0)%nat;
     errors := errors;
     details := {| expectedGrandTotal := expectedGrandTotal;
                   actualGrandTotal := grandTotal aggregation;
                   difference := difference |} |}.

(** ** money.utils.ts: the CGST/SGST split *)

Record TaxSplit : Type := {
  cgst : Decimal;
  sgst : Decimal
}.

Definition splitTaxCGSTSGST (taxAmount : Decimal) (currency : string)
    : result TaxSplit :=
  let tax := taxAmount in
  half ← preciseDivide tax 2 DEFAULT_PRECISION;
  let cgst := roundForCurrency half currency DEFAULT_ROUNDING_MODE in
  let sgst :=
    roundForCurrency (preciseSubtract tax cgst) currency
      DEFAULT_ROUNDING_MODE in
  mret {| cgst := cgst; sgst := sgst |}.

(** ** Vocabulary of the statements *)

(** A value is at scale [d] when it is a whole number of minor units. *)
Definition atScale (d : nat) (x : Decimal) : Prop :=
  exists k : Z, x == inject_Z k * minorUnit d.

(** [rounded] is [exact] rounded half-even to [d] decimal places: a whole
    number [k] of minor units, no further than half a minor unit from the
    exact value, the even [k] when the exact value lies half-way between
    two of them.  This says what the rounding of each step has to achieve
    without mentioning the rounding function. *)
Definition roundedHalfEven (d : nat) (exact rounded : Decimal) : Prop :=
  exists k : Z,
    rounded == inject_Z k * minorUnit d
    /\ - (minorUnit d * (1#2)) <= rounded - exact <= minorUnit d * (1#2)
    /\ (rounded - exact == minorUnit d * (1#2)
        \/ rounded - exact == - (minorUnit d * (1#2)) ->
        Z.even k = true).

(** The invariant of a line item. *)
Definition lineItemInvariant (r : LineItemResult) : Prop :=
  total (calculated r)
  == taxableAmount (calculated r) + taxAmount (calculated r)
     + roundingAdjustment r.

(** Adding one increment at a time at the indices 0, 1, 2, ... wrapping
    around the end of the list, [steps] times. *)
Definition addRoundRobin (increment : Decimal) (steps : nat)
    (parts : list Decimal) : list Decimal :=
  foldl (fun acc j => add_at (j mod length acc) increment acc)
        parts (seq 0 steps).

(** How many of the steps [first], [first + 1], ..., [first + steps - 1]
    of a round robin over [n] parts land on part [i]. *)
Definition visits (n first steps i : nat) : nat :=
  length (List.filter (fun j => (j mod n =? i)%nat) (seq first steps)).

(** The line items that the two calculation modes produce, with a
    currency of at most [d] decimal places. *)
Inductive producedAt (d : nat) : LineItemResult -> Prop :=
  | produced_derived (input : LineItemInput) :
      (li_decimalPlaces (calculateLineItem input) <= d)%nat ->
      producedAt d (calculateLineItem input)
  | produced_entered (enteredTotal quantity : Decimal)
      (taxRate discountAmount : option Decimal) (currency : string)
      (r : EnteredTotalLineItemResult) :
      calculateLineItemFromTotal enteredTotal quantity taxRate
        discountAmount currency = Ok r ->
      (li_decimalPlaces r <= d)%nat ->
      producedAt d (et_base r).

(** The violations that input sanitisation reports. *)
Definition violates (input : LineItemInput) : Prop :=
  default 0 (in_unitPrice input) < 0
  \/ in_quantity input < 1
  \/ default 0 (in_discountAmount input) < 0
  \/ default 0 (in_taxRate input) < 0
  \/ 100 < default 0 (in_taxRate input).

(** * The rest of money.utils.ts *)

(** ** Rounding with an audit record *)

Record RoundingAdjustment : Type := {
  ra_original : Decimal;
  ra_rounded : Decimal;
  ra_adjustment : Decimal;
  ra_decimalPlaces : nat;
  ra_roundingMode : RoundingMode;
  ra_hasAdjustment : bool
}.

Definition roundWithAdjustment (value : Decimal) (decimalPlaces : nat)
    (mode : RoundingMode) : RoundingAdjustment :=
  let original := value in
  let rounded := round original decimalPlaces mode in
  let adjustment := preciseSubtract rounded original in
  {| ra_original := original;
     ra_rounded := rounded;
     ra_adjustment := adjustment;
     ra_decimalPlaces := decimalPlaces;
     ra_roundingMode := mode;
     ra_hasAdjustment := negb (preciseIsZero adjustment) |}.

Definition roundForCurrencyWithAdjustment (value : Decimal) (currency : string)
    (mode : RoundingMode) : RoundingAdjustment :=
  let decimalPlaces := getCurrencyDecimalPlaces currency in
  roundWithAdjustment value decimalPlaces mode.

(** ** Money objects *)

(** A call that either returns or throws a plain [Error] with a message. *)
Inductive checked (A : Type) : Type :=
  | Accepted (a : A)
  | Rejected (message : string).
Arguments Accepted {A} a.
Arguments Rejected {A} message.

Definition createMoney (amount : Decimal) (currency : string) : Money :=
  {| amount := amount; currency := currency |}.

Definition addMoney (a b : Money) : checked Money :=
  if negb (String.eqb (currency a) (currency b)) then
    Rejected ("Cannot add different currencies: " +:+ currency a
              +:+ " and " +:+ currency b)
  else
    Accepted {| amount := preciseAdd (amount a) (amount b);
                currency := currency a |}.

Definition subtractMoney (a b : Money) : checked Money :=
  if negb (String.eqb (currency a) (currency b)) then
    Rejected ("Cannot subtract different currencies: " +:+ currency a
              +:+ " and " +:+ currency b)
  else
    Accepted {| amount := preciseSubtract (amount a) (amount b);
                currency := currency a |}.

Definition multiplyMoney (money : Money) (factor : Decimal) : Money :=
  {| amount := preciseMultiply (amount money) factor;
     currency := currency money |}.

Definition roundMoney (money : Money) (decimalPlaces : nat)
    (mode : RoundingMode) : Money :=
  {| amount := round (amount money) decimalPlaces mode;
     currency := currency money |}.

(** ** Interest *)

(** [time] and [frequency] are JS numbers. *)
Definition compoundInterest (principal rate time frequency : Decimal)
    : result Decimal :=
  ratePerPeriod ← preciseDivide rate (preciseMultiply 100 frequency)
                    DEFAULT_PRECISION;
  let periods := preciseMultiply time frequency in
  let onePlusRate := preciseAdd 1 ratePerPeriod in
  let numPeriods := mathMax 0 (mathFloor (toNumber periods)) in
  let result :=
    Nat.iter (Z.to_nat numPeriods)
      (fun result => preciseMultiply result onePlusRate) principal in
  mret (preciseSubtract result principal).

Definition simpleInterest (principal rate time : Decimal) : result Decimal :=
  preciseDivide (preciseMultiply (preciseMultiply principal rate) time) 100
    DEFAULT_PRECISION.

(** ** Smallest currency units *)

(** [mathPow(10, decimals)], for a non-negative whole exponent. *)
Definition mathPow (base : Z) (exponent : nat) : Decimal :=
  inject_Z (base ^ Z.of_nat exponent).

Definition toSmallestUnit (amount : Decimal) (decimals : nat) : Decimal :=
  let multiplier := mathPow 10 decimals in
  preciseRound (preciseMultiply amount multiplier) 0
    DEFAULT_PRECISION_ROUNDING_MODE.

Definition fromSmallestUnit (amount : Decimal) (decimals : nat)
    : result Decimal :=
  let divisor := mathPow 10 decimals in
  preciseDivide amount divisor DEFAULT_PRECISION.

(** ** The number helpers *)

Definition percentOfNumber (part whole : Decimal) (currency : string)
    : result Decimal :=
  let wholeNum := safeToNumber whole 0 in
  if mathIsZero wholeNum then mret 0
  else
    q ← preciseDivide part whole DEFAULT_PRECISION;
    mret (roundCurrencyNumber (preciseMultiply q 100) currency None).

(** [values] is [None] for a missing array. *)
Definition addMoneyNumbers (values : option (list Decimal)) (currency : string)
    : Decimal :=
  match values with
  | None | Some [] => 0
  | Some values =>
      let total := foldl (fun acc current => preciseAdd acc current) 0 values in
      roundCurrencyNumber total currency None
  end.

Definition subtractMoneyNumbers (minuend subtrahend : Decimal)
    (currency : string) : Decimal :=
  roundCurrencyNumber (preciseSubtract minuend subtrahend) currency None.

Definition multiplyMoneyNumbers (a b : Decimal) (currency : string) : Decimal :=
  roundCurrencyNumber (preciseMultiply a b) currency None.

Definition percentageNumber (base rate : Decimal) (currency : string)
    : Decimal :=
  roundCurrencyNumber (precisePercentage base rate) currency None.

Definition percentage (base rate : Decimal) (currency : string) : Decimal :=
  percentageNumber base rate currency.

Definition subtractMoneyList (initial : Decimal) (values : list Decimal)
    (currency : string) : Decimal :=
  foldl (fun acc value => subtractMoneyNumbers acc value currency)
        initial values.

Record LedgerEntry : Type := {
  le_amount : option Decimal;
  le_type : option string;
  le_isActive : option bool
}.

(** The contribution of one entry: nothing unless it is active, its amount
    ([entry.amount || 0]) when its type is 'CREDIT', minus its amount
    otherwise. *)
Definition ledgerContribution (entry : LedgerEntry) : Decimal :=
  if negb (default false (le_isActive entry)) then 0
  else
    let amount :=
      match le_amount entry with
      | Some a => if Qeq_bool a 0 then 0 else a
      | None => 0
      end in
    if bool_decide (le_type entry = Some "CREDIT"%string)
    then amount else - amount.

Definition calculateLedgerTotal (entries : option (list LedgerEntry))
    (currency : string) : Decimal :=
  match entries with
  | None | Some [] => 0
  | Some entries =>
      let contributions := map ledgerContribution entries in
      addMoneyNumbers (Some contributions) currency
  end.

(** ** Total adjustment of several values *)

Record TotalAdjustment : Type := {
  originalTotal : Decimal;
  roundedTotal : Decimal;
  perItemAdjustments : list RoundingAdjustment;
  ta_totalAdjustment : Decimal;
  adjustmentFromRoundingSum : Decimal
}.

Definition calculateTotalAdjustment (values : list Decimal)
    (decimalPlaces : nat) (mode : RoundingMode) : TotalAdjustment :=
  let perItemAdjustments :=
    map (fun v => roundWithAdjustment v decimalPlaces mode) values in
  let originalTotal := preciseSum values in
  let roundedItemsSum := preciseSum (map ra_rounded perItemAdjustments) in
  let roundedTotal := round originalTotal decimalPlaces mode in
  let adjustmentFromRoundingSum :=
    preciseSubtract roundedTotal roundedItemsSum in
  let totalAdjustment := preciseSubtract roundedTotal originalTotal in
  {| originalTotal := originalTotal;
     roundedTotal := roundedTotal;
     perItemAdjustments := perItemAdjustments;
     ta_totalAdjustment := totalAdjustment;
     adjustmentFromRoundingSum := adjustmentFromRoundingSum |}.

(** ** Currency-aware money objects *)

Record CurrencyMoney : Type := {
  cm_amount : Decimal;
  cm_currency : string;
  cm_config : CurrencyConfig;
  cm_isRounded : bool
}.

Definition createCurrencyMoney (amount : Decimal) (currency : string)
    (autoRound : bool) : CurrencyMoney :=
  let config := getCurrencyConfig currency in
  let amountStr := amount in
  let roundedAmount :=
    if autoRound
    then round amountStr (decimalPlaces config) DEFAULT_ROUNDING_MODE
    else amountStr in
  {| cm_amount := roundedAmount;
     cm_currency := code config;
     cm_config := config;
     cm_isRounded := autoRound |}.

Definition addCurrencyMoney (a b : CurrencyMoney) : checked CurrencyMoney :=
  if negb (String.eqb (cm_currency a) (cm_currency b)) then
    Rejected ("Cannot add different currencies: " +:+ cm_currency a
              +:+ " and " +:+ cm_currency b)
  else
    let result := preciseAdd (cm_amount a) (cm_amount b) in
    Accepted (createCurrencyMoney result (cm_currency a)
                (cm_isRounded a || cm_isRounded b)).

Definition roundMoneyToCurrency (money : Money) (mode : RoundingMode) : Money :=
  let decimalPlaces := getCurrencyDecimalPlaces (currency money) in
  {| amount := round (amount money) decimalPlaces mode;
     currency := currency money |}.

Definition roundMoneyWithAdjustment (money : Money) (mode : RoundingMode)
    : Money * RoundingAdjustment :=
  let decimalPlaces := getCurrencyDecimalPlaces (currency money) in
  let adjustment := roundWithAdjustment (amount money) decimalPlaces mode in
  ({| amount := ra_rounded adjustment; currency := currency money |},
   adjustment).

Definition isValidCurrency (currencyCode : string) : bool :=
  bool_decide (is_Some (CURRENCIES !! toUpperCase currencyCode)).

(** ** Tax, commission and round-off helpers *)

Record TaxResult : Type := {
  tr_taxAmount : Decimal;
  totalWithTax : Decimal
}.

Definition calculateTax (baseAmount taxRate : Decimal) (currency : string)
    : TaxResult :=
  let taxAmount :=
    roundForCurrency (precisePercentage baseAmount taxRate) currency
      DEFAULT_ROUNDING_MODE in
  let totalWithTax := preciseAdd baseAmount taxAmount in
  {| tr_taxAmount := taxAmount;
     totalWithTax :=
       roundForCurrency totalWithTax currency DEFAULT_ROUNDING_MODE |}.

Record GSTResult : Type := {
  gstAmount : Decimal;
  gst_cgst : Decimal;
  gst_sgst : Decimal;
  totalWithGST : Decimal
}.

Definition calculateGST (baseAmount gstRate : Decimal) (currency : string)
    : result GSTResult :=
  halfRate ← preciseDivide gstRate 2 DEFAULT_PRECISION;
  let cgst :=
    roundForCurrency (precisePercentage baseAmount halfRate) currency
      DEFAULT_ROUNDING_MODE in
  let sgst :=
    roundForCurrency (precisePercentage baseAmount halfRate) currency
      DEFAULT_ROUNDING_MODE in
  let gstAmount := preciseAdd cgst sgst in
  let totalWithGST := preciseAdd baseAmount gstAmount in
  mret {| gstAmount := gstAmount;
          gst_cgst := cgst;
          gst_sgst := sgst;
          totalWithGST :=
            roundForCurrency totalWithGST currency DEFAULT_ROUNDING_MODE |}.

Record TaxInclusiveResult : Type := {
  ti_baseAmount : Decimal;
  ti_taxAmount : Decimal
}.

Definition calculateBaseFromTaxInclusive (totalAmount taxRate : Decimal)
    (currency : string) : result TaxInclusiveResult :=
  rateFraction ← preciseDivide taxRate 100 DEFAULT_PRECISION;
  let divisor := preciseAdd 1 rateFraction in
  exactBase ← preciseDivide totalAmount divisor DEFAULT_PRECISION;
  let baseAmount :=
    roundForCurrency exactBase currency DEFAULT_ROUNDING_MODE in
  let taxAmount := preciseSubtract totalAmount baseAmount in
  mret {| ti_baseAmount := baseAmount;
          ti_taxAmount :=
            roundForCurrency taxAmount currency DEFAULT_ROUNDING_MODE |}.

Record DiscountResult : Type := {
  dr_discountAmount : Decimal;
  finalAmount : Decimal;
  effectiveDiscountPercent : Decimal
}.

Section Discount.

(** [precisePercentageOf(part, whole)] of the decimal engine, what
    percentage the part is of the whole; it divides, so it can throw. *)
Variable precisePercentageOf : Decimal -> Decimal -> result Decimal.

Definition calculateDiscount (originalAmount : Decimal)
    (discountPercent discountAmount : option Decimal) (currency : string)
    : result DiscountResult :=
  let calculatedDiscount :=
    match discountPercent, discountAmount with
    | Some p, Some a =>
        if negb (preciseIsZero p) then precisePercentage originalAmount p
        else a
    | Some p, None =>
        if negb (preciseIsZero p) then precisePercentage originalAmount p
        else 0
    | None, Some a => a
    | None, None => 0
    end in
  (* Round the discount *)
  let calculatedDiscount :=
    roundForCurrency calculatedDiscount currency DEFAULT_ROUNDING_MODE in
  (* Ensure discount doesn't exceed original amount *)
  let calculatedDiscount :=
    if preciseGreaterThan calculatedDiscount originalAmount
    then originalAmount else calculatedDiscount in
  let finalAmount :=
    roundForCurrency (preciseSubtract originalAmount calculatedDiscount)
      currency DEFAULT_ROUNDING_MODE in
  effectiveDiscountPercent ←
    (if preciseIsZero originalAmount then mret 0
     else
       pct ← precisePercentageOf calculatedDiscount originalAmount;
       mret (round pct 2 DEFAULT_ROUNDING_MODE));
  mret {| dr_discountAmount := calculatedDiscount;
          finalAmount := finalAmount;
          effectiveDiscountPercent := effectiveDiscountPercent |}.

End Discount.

Record CommissionResult : Type := {
  commission : Decimal;
  gstOnCommission : Decimal;
  tds : Decimal;
  netCommission : Decimal;
  netToProperty : Decimal
}.

Definition calculateCommission (grossAmount commissionRate tdsRate
    gstOnCommissionRate : Decimal) (currency : string) : CommissionResult :=
  let rnd x := roundForCurrency x currency DEFAULT_ROUNDING_MODE in
  let commission := rnd (precisePercentage grossAmount commissionRate) in
  let gstOnCommission :=
    rnd (precisePercentage commission gstOnCommissionRate) in
  let tds := rnd (precisePercentage commission tdsRate) in
  (* Net commission = Commission + GST on Commission - TDS *)
  let netCommission :=
    rnd (preciseSubtract (preciseAdd commission gstOnCommission) tds) in
  (* Net to property = Gross - Commission - GST on Commission + TDS *)
  let netToProperty :=
    rnd (preciseAdd
           (preciseSubtract grossAmount
              (preciseAdd commission gstOnCommission))
           tds) in
  {| commission := commission;
     gstOnCommission := gstOnCommission;
     tds := tds;
     netCommission := netCommission;
     netToProperty := netToProperty |}.

Inductive RoundTo : Type := NEAREST | RoundUP | RoundDOWN.

Record RoundOff : Type := {
  roundedAmount : Decimal;
  roundOffAmount : Decimal
}.

Definition calculateRoundOff (amount : Decimal) (roundTo : RoundTo) : RoundOff :=
  let originalAmount := amount in
  let roundedAmount :=
    match roundTo with
    | RoundUP => round originalAmount 0 ROUND_CEIL
    | RoundDOWN => round originalAmount 0 ROUND_FLOOR
    | NEAREST => round originalAmount 0 ROUND_HALF_UP
    end in
  let roundOffAmount := preciseSubtract roundedAmount originalAmount in
  {| roundedAmount := roundedAmount; roundOffAmount := roundOffAmount |}.

Definition calculatePercentageOfTotal (part total : Decimal) (currency : string)
    : result Decimal :=
  let totalNum := safeToNumber total 0 in
  if mathIsZero totalNum then mret 0
  else
    q ← preciseDivide part total DEFAULT_PRECISION;
    mret (toNumber (preciseMultiply q 100)).

Definition applyPriceMultiplier (price multiplier : Decimal)
    (currency : string) : Decimal :=
  roundCurrencyNumber (preciseMultiply price multiplier) currency None.

Record DiscountConfig : Type := {
  dc_value : option Decimal;
  dc_amount : option Decimal;
  dc_isActive : option bool
}.

(** A JS number is truthy unless it is zero. *)
Definition positiveNumber (x : option Decimal) : option Decimal :=
  match x with
  | Some n => if negb (Qeq_bool n 0) && negb (Qle_bool n 0) then Some n else None
  | None => None
  end.

Definition calculateDiscountAmount (totalAmount : Decimal)
    (discount : option DiscountConfig) (currency : string) : Decimal :=
  match discount with
  | None => 0
  | Some discount =>
      match positiveNumber (dc_value discount) with
      | Some value => percentageNumber totalAmount value currency
      | None =>
          match positiveNumber (dc_amount discount) with
          | Some amount => roundCurrencyNumber amount currency None
          | None => 0
          end
      end
  end.

(** ** Vocabulary of the statements about the helpers *)

(** The decimal places at which a number helper rounds: those of its
    currency argument, or of the default currency when that argument reads
    'UP' or 'DOWN'. *)
Definition helperDecimalPlaces (currencyOrDirection : string) : nat :=
  if String.eqb currencyOrDirection "UP" || String.eqb currencyOrDirection "DOWN"
  then getCurrencyDecimalPlaces DEFAULT_CURRENCY_CODE
  else getCurrencyDecimalPlaces currencyOrDirection.

(** The decimals that a JS number holds exactly: an integer mantissa of at
    most 15 significant digits (or 10^15 itself) and a decimal exponent well
    inside the range of the normal doubles.  Converting such a decimal to a
    number and reading the number back as a decimal gives the same decimal,
    so the conversions [toNumber] and [safeToNumber] lose nothing on it. *)
Definition exactNumber (x : Decimal) : Prop :=
  exists m e : Z,
    x == inject_Z m * 10 ^ e
    /\ (Z.abs m <= 10 ^ 15)%Z
    /\ (-300 <= e <= 280)%Z.

(** 10^12.  An amount of at most this magnitude that is rounded to the
    decimal places of a currency (at most three) is an exact number. *)
Definition numberLimit : Decimal := 1000000000000.

(** The strings of ASCII characters, on which [toUpperCase] is
    [String.prototype.toUpperCase]. *)
Fixpoint asciiOnly (s : string) : bool :=
  match s with
  | EmptyString => true
  | String c s' => (nat_of_ascii c <? 128)%nat && asciiOnly s'
  end.

Definition entryActive (entry : LedgerEntry) : bool :=
  default false (le_isActive entry).

Definition entryCredit (entry : LedgerEntry) : bool :=
  bool_decide (le_type entry = Some "CREDIT"%string).

Definition entryAmount (entry : LedgerEntry) : Decimal :=
  default 0 (le_amount entry).

(** The sum of the amounts of the active entries of type 'CREDIT', and of
    the active entries of any other type. *)
Definition activeCredits (entries : list LedgerEntry) : Decimal :=
  preciseSum
    (map entryAmount
       (List.filter (fun e => entryActive e && entryCredit e) entries)).

Definition activeDebits (entries : list LedgerEntry) : Decimal :=
  preciseSum
    (map entryAmount
       (List.filter (fun e => entryActive e && negb (entryCredit e)) entries)).

(** * Properties *)

(** ** The result monad *)

Lemma bind_Ok {A B : Type} (m : result A) (f : A -> result B) (b : B) :
  m ≫= f = Ok b -> exists a, m = Ok a /\ f a = Ok b.
Proof.
  destruct m as [a | e]; simpl; intros H.
  - exists a. split; [reflexivity | exact H].
  - discriminate H.
Qed.

(** ** Comparisons of the engine, reflected *)

Lemma preciseIsZero_true (a : Decimal) : preciseIsZero a = true <-> a == 0.
Proof. unfold preciseIsZero. apply Qeq_bool_iff. Qed.

Lemma preciseIsZero_false (a : Decimal) : preciseIsZero a = false <-> ~ a == 0.
Proof.
  rewrite <- preciseIsZero_true. destruct (preciseIsZero a); split; intros H;
    try reflexivity; try discriminate; try (intros H'; discriminate H').
  exfalso. apply H. reflexivity.
Qed.

Lemma preciseEquals_true (a b : Decimal) : preciseEquals a b = true <-> a == b.
Proof. unfold preciseEquals. apply Qeq_bool_iff. Qed.

Lemma preciseGreaterThan_true (a b : Decimal) :
  preciseGreaterThan a b = true <-> b < a.
Proof.
  unfold preciseGreaterThan. rewrite negb_true_iff.
  destruct (Qle_bool a b) eqn:E.
  - apply Qle_bool_iff in E. split; [discriminate | intros H; lra].
  - split; [intros _ | reflexivity].
    apply Qnot_le_lt. intros H. apply Qle_bool_iff in H. congruence.
Qed.

Lemma preciseGreaterThan_false (a b : Decimal) :
  preciseGreaterThan a b = false <-> a <= b.
Proof.
  unfold preciseGreaterThan. rewrite negb_false_iff. apply Qle_bool_iff.
Qed.

Lemma preciseIsNegative_true (a : Decimal) : preciseIsNegative a = true <-> a < 0.
Proof. apply (preciseGreaterThan_true 0 a). Qed.

Lemma preciseIsNegative_false (a : Decimal) :
  preciseIsNegative a = false <-> 0 <= a.
Proof. apply (preciseGreaterThan_false 0 a). Qed.

(** ** Scales and rounding *)

Lemma pow10_pos (d : nat) : (0 < pow10 d)%Z.
Proof. unfold pow10. apply Z.pow_pos_nonneg; lia. Qed.

Lemma pow10_le (d d' : nat) :
  (d <= d')%nat -> exists c : Z, pow10 d' = (c * pow10 d)%Z.
Proof.
  intros H. exists (10 ^ Z.of_nat (d' - d))%Z. unfold pow10.
  rewrite <- Z.pow_add_r by lia. f_equal. lia.
Qed.

Lemma scale_minorUnit (d : nat) : inject_Z (pow10 d) * minorUnit d == 1.
Proof.
  unfold minorUnit. apply Qmult_inv_r.
  pose proof (pow10_pos d) as H. intros E.
  unfold Qeq in E. simpl in E. lia.
Qed.

Lemma minorUnit_pos (d : nat) : 0 < minorUnit d.
Proof.
  unfold minorUnit. apply Qinv_lt_0_compat.
  pose proof (pow10_pos d) as H. unfold Qlt. simpl. lia.
Qed.

Lemma minorUnit_le (d d' : nat) :
  (d <= d')%nat -> exists c : Z, minorUnit d == inject_Z c * minorUnit d'.
Proof.
  intros H. destruct (pow10_le d d' H) as [c Hc]. exists c.
  pose proof (scale_minorUnit d) as H1. pose proof (scale_minorUnit d') as H2.
  rewrite Hc, inject_Z_mult in H2.
  transitivity (minorUnit d * (inject_Z c * inject_Z (pow10 d) * minorUnit d')).
  - rewrite H2. ring.
  - transitivity (inject_Z c * minorUnit d' * (inject_Z (pow10 d) * minorUnit d)).
    + ring.
    + rewrite H1. ring.
Qed.

(** A value that is a whole number is left alone by every rounding mode. *)
Lemma roundToInteger_whole (mode : PrecisionRoundingMode) (q : Q) (k : Z) :
  q == inject_Z k -> roundToInteger mode q = k.
Proof.
  destruct q as [n p]. unfold Qeq. simpl. intros H.
  assert (Hn : n = (k * Zpos p)%Z) by lia. subst n.
  unfold roundToInteger. simpl.
  rewrite Z.div_mul, Z.mod_mul by lia. simpl.
  destruct mode; try reflexivity;
    repeat match goal with |- context [if ?b then _ else _] => destruct b end;
    reflexivity.
Qed.

Lemma preciseRound_atScale (x : Decimal) (d : nat) (mode : PrecisionRoundingMode) :
  atScale d (preciseRound x d mode).
Proof. eexists. unfold preciseRound. reflexivity. Qed.

Lemma preciseRound_id (x : Decimal) (d : nat) (mode : PrecisionRoundingMode) :
  atScale d x -> preciseRound x d mode == x.
Proof.
  intros [k Hk]. unfold preciseRound.
  rewrite (roundToInteger_whole mode _ k).
  - symmetry. exact Hk.
  - rewrite Hk. rewrite <- Qmult_assoc, (Qmult_comm (minorUnit d)).
    rewrite scale_minorUnit. ring.
Qed.

Lemma round_atScale (x : Decimal) (d : nat) (mode : RoundingMode) :
  atScale d (round x d mode).
Proof. apply preciseRound_atScale. Qed.

Lemma round_id (x : Decimal) (d : nat) (mode : RoundingMode) :
  atScale d x -> round x d mode == x.
Proof. apply preciseRound_id. Qed.

Lemma atScale_proper (d : nat) (x y : Decimal) :
  x == y -> atScale d x -> atScale d y.
Proof. intros E [k Hk]. exists k. rewrite <- E. exact Hk. Qed.

Lemma atScale_0 (d : nat) : atScale d 0.
Proof. exists 0%Z. ring. Qed.

Lemma atScale_plus (d : nat) (x y : Decimal) :
  atScale d x -> atScale d y -> atScale d (x + y).
Proof.
  intros [k Hk] [l Hl]. exists (k + l)%Z.
  rewrite inject_Z_plus, Hk, Hl. ring.
Qed.

Lemma atScale_minus (d : nat) (x y : Decimal) :
  atScale d x -> atScale d y -> atScale d (x - y).
Proof.
  intros [k Hk] [l Hl]. exists (k - l)%Z.
  unfold Z.sub. rewrite inject_Z_plus, inject_Z_opp, Hk, Hl. ring.
Qed.

Lemma atScale_le (d d' : nat) (x : Decimal) :
  (d <= d')%nat -> atScale d x -> atScale d' x.
Proof.
  intros H [k Hk]. destruct (minorUnit_le d d' H) as [c Hc].
  exists (k * c)%Z. rewrite inject_Z_mult, Hk, Hc. ring.
Qed.

(** ** Sums *)

Lemma fold_preciseAdd (l : list Decimal) (a : Decimal) :
  fold_left preciseAdd l a == a + preciseSum l.
Proof.
  unfold preciseSum. revert a.
  induction l as [| x l IH]; intros a; simpl.
  - ring.
  - rewrite (IH (preciseAdd a x)), (IH (preciseAdd 0 x)).
    unfold preciseAdd. ring.
Qed.

Lemma preciseSum_cons (x : Decimal) (l : list Decimal) :
  preciseSum (x :: l) == x + preciseSum l.
Proof.
  unfold preciseSum at 1. simpl. rewrite fold_preciseAdd.
  unfold preciseAdd. ring.
Qed.

Lemma atScale_preciseSum (d : nat) (l : list Decimal) :
  Forall (atScale d) l -> atScale d (preciseSum l).
Proof.
  induction 1 as [| x l Hx Hl IH].
  - apply atScale_0.
  - apply (atScale_proper d (x + preciseSum l)).
    + symmetry. apply preciseSum_cons.
    + apply atScale_plus; assumption.
Qed.

Lemma roundForCurrency_atScale (x : Decimal) (c : string) (mode : RoundingMode) :
  atScale (getCurrencyDecimalPlaces c) (roundForCurrency x c mode).
Proof. apply round_atScale. Qed.

Lemma roundForCurrency_id (x : Decimal) (c : string) (mode : RoundingMode) :
  atScale (getCurrencyDecimalPlaces c) x -> roundForCurrency x c mode == x.
Proof. apply round_id. Qed.

Lemma inject_Z_nonzero (z : Z) : (z <> 0)%Z -> ~ inject_Z z == 0.
Proof. intros H E. unfold Qeq in E. simpl in E. lia. Qed.

(** ** More on the rounding decision *)

(** The rounding decision depends on the value only, not on the fraction
    that represents it. *)
Lemma roundToInteger_proper (mode : PrecisionRoundingMode) (q q' : Q) :
  q == q' -> roundToInteger mode q = roundToInteger mode q'.
Proof.
  intros E. pose proof (Qfloor_comp q q' E) as Hfl.
  destruct q as [n p], q' as [n' p']. unfold Qeq in E. simpl in E, Hfl.
  unfold roundToInteger. cbn [Qnum Qden]. rewrite <- Hfl.
  set (fl := (n / Z.pos p)%Z) in *.
  assert (Hr : (n mod Z.pos p = n - Z.pos p * fl)%Z)
    by (unfold fl; rewrite Z.mod_eq by lia; reflexivity).
  assert (Hr' : (n' mod Z.pos p' = n' - Z.pos p' * fl)%Z)
    by (rewrite Hfl; rewrite Z.mod_eq by lia; reflexivity).
  rewrite Hr, Hr'.
  set (r := (n - Z.pos p * fl)%Z). set (r' := (n' - Z.pos p' * fl)%Z).
  assert (Hrr : (r * Z.pos p' = r' * Z.pos p)%Z) by (unfold r, r'; nia).
  assert (Hz : (r =? 0)%Z = (r' =? 0)%Z).
  { destruct (Z.eqb_spec r 0), (Z.eqb_spec r' 0); try reflexivity; nia. }
  assert (Hc : (2 * r ?= Z.pos p)%Z = (2 * r' ?= Z.pos p')%Z).
  { rewrite <- (Zcompare_mult_compat p' (2 * r) (Z.pos p)).
    rewrite <- (Zcompare_mult_compat p (2 * r') (Z.pos p')).
    f_equal; nia. }
  assert (Hs : (0 <=? n)%Z = (0 <=? n')%Z).
  { destruct (Z.leb_spec 0 n), (Z.leb_spec 0 n'); try reflexivity; nia. }
  rewrite Hz, Hc, Hs. reflexivity.
Qed.

#[global] Instance preciseRound_proper :
  Proper (Qeq ==> eq ==> eq ==> Qeq) preciseRound.
Proof.
  unfold Proper, respectful. intros x y E d d' Hd m m' Hm. subst d' m'.
  unfold preciseRound.
  rewrite (roundToInteger_proper m (x * inject_Z (pow10 d))
             (y * inject_Z (pow10 d))) by (rewrite E; reflexivity).
  reflexivity.
Qed.

#[global] Instance round_proper : Proper (Qeq ==> eq ==> eq ==> Qeq) round.
Proof.
  unfold Proper, respectful. intros x y E d d' Hd m m' Hm. subst d' m'.
  unfold round. rewrite E. reflexivity.
Qed.

#[global] Instance roundForCurrency_proper :
  Proper (Qeq ==> eq ==> eq ==> Qeq) roundForCurrency.
Proof.
  unfold Proper, respectful. intros x y E c c' Hc m m' Hm. subst c' m'.
  unfold roundForCurrency. rewrite E. reflexivity.
Qed.

(** The floor and the remainder of the decision, in the rationals. *)
Lemma floor_remainder (q : Q) :
  let fl := (Qnum q / Z.pos (Qden q))%Z in
  let r := (Qnum q mod Z.pos (Qden q))%Z in
  q == inject_Z fl + inject_Z r / inject_Z (Z.pos (Qden q))
  /\ (0 <= r < Z.pos (Qden q))%Z.
Proof.
  destruct q as [n p]. cbv zeta. cbn [Qnum Qden].
  set (fl := (n / Z.pos p)%Z). set (r := (n mod Z.pos p)%Z).
  assert (Hb : (0 <= r < Z.pos p)%Z) by (apply Z.mod_pos_bound; lia).
  split; [| exact Hb].
  assert (Hn : (n = Z.pos p * fl + r)%Z) by (apply Z.div_mod; lia).
  assert (Hp : ~ inject_Z (Z.pos p) == 0) by (apply inject_Z_nonzero; lia).
  rewrite (Qmake_Qdiv n p). rewrite Hn at 1.
  rewrite inject_Z_plus, inject_Z_mult. field. exact Hp.
Qed.

(** Every mode returns the floor or the next integer, the floor when the
    value is whole; the half modes return a nearest integer. *)
Lemma roundToInteger_error (mode : PrecisionRoundingMode) (q : Q) :
  let e := inject_Z (roundToInteger mode q) - q in
  -1 < e < 1
  /\ (mode = FLOOR -> e <= 0)
  /\ (mode = CEIL -> 0 <= e)
  /\ (mode = HALF_UP \/ mode = HALF_DOWN \/ mode = HALF_EVEN
      \/ mode = HALF_CEIL \/ mode = HALF_FLOOR -> -(1#2) <= e <= 1#2)
  /\ (0 <= q -> 0 <= inject_Z (roundToInteger mode q)).
Proof.
  destruct (floor_remainder q) as [Hq Hb]. cbv zeta in Hq, Hb.
  unfold roundToInteger.
  set (fl := (Qnum q / Z.pos (Qden q))%Z) in *.
  set (r := (Qnum q mod Z.pos (Qden q))%Z) in *.
  set (p := Z.pos (Qden q)) in *.
  set (f := inject_Z r / inject_Z p) in *.
  assert (Hp : 0 < inject_Z p).
  { change 0 with (inject_Z 0). rewrite <- Zlt_Qlt. unfold p. lia. }
  assert (Hf0 : 0 <= f).
  { unfold f. apply Qle_shift_div_l; [exact Hp |].
    change 0 with (inject_Z 0). rewrite Qmult_0_l.
    change 0 with (inject_Z 0). rewrite <- Zle_Qle. lia. }
  assert (Hf1 : f < 1).
  { unfold f. apply Qlt_shift_div_r; [exact Hp |].
    rewrite Qmult_1_l. rewrite <- Zlt_Qlt. lia. }
  assert (Hfz : (r =? 0)%Z = true -> f == 0).
  { intros H. apply Z.eqb_eq in H. unfold f. rewrite H.
    change (inject_Z 0) with 0. unfold Qdiv. ring. }
  assert (Hfnz : (r =? 0)%Z = false -> 0 < f).
  { intros H. apply Z.eqb_neq in H. unfold f.
    apply Qlt_shift_div_l; [exact Hp |]. rewrite Qmult_0_l.
    change 0 with (inject_Z 0). rewrite <- Zlt_Qlt. lia. }
  assert (Hhalf : match (2 * r ?= p)%Z with
                  | Lt => f < 1#2 | Eq => f == 1#2 | Gt => 1#2 < f end).
  { assert (H2 : 2 * f == inject_Z (2 * r) / inject_Z p)
      by (unfold f; rewrite inject_Z_mult; unfold Qdiv; ring).
    destruct (Z.compare_spec (2 * r) p) as [H | H | H].
    - assert (H3 : 2 * f == 1).
      { rewrite H2, H. field. lra. }
      lra.
    - assert (H3 : 2 * f < 1).
      { rewrite H2. apply Qlt_shift_div_r; [exact Hp |].
        rewrite Qmult_1_l. rewrite <- Zlt_Qlt. exact H. }
      lra.
    - assert (H3 : 1 < 2 * f).
      { rewrite H2. apply Qlt_shift_div_l; [exact Hp |].
        rewrite Qmult_1_l. rewrite <- Zlt_Qlt. exact H. }
      lra. }
  assert (Hsign : 0 <= q -> (0 <= fl)%Z).
  { intros H. unfold fl. apply Z.div_pos; [| lia].
    destruct q as [n d]. unfold Qle in H. simpl in H. simpl. lia. }
  assert (Hfl1 : inject_Z (fl + 1) == inject_Z fl + 1)
    by (rewrite inject_Z_plus; reflexivity).
  assert (Hfl0 : 0 <= q -> 0 <= inject_Z fl).
  { intros H. change 0 with (inject_Z 0). rewrite <- Zle_Qle. auto. }
  cbv zeta.
  destruct mode;
    repeat match goal with
    | |- context [(r =? 0)%Z] =>
        let E := fresh "E" in
        destruct (r =? 0)%Z eqn:E;
        [specialize (Hfz eq_refl) | specialize (Hfnz eq_refl)]
    | |- context [(2 * r ?= p)%Z] => destruct (2 * r ?= p)%Z
    | |- context [(0 <=? Qnum q)%Z] => destruct (0 <=? Qnum q)%Z
    | |- context [Z.even fl] => destruct (Z.even fl)
    end;
    rewrite ?Hfl1;
    (split; [split; lra |]);
    (split; [intros; try discriminate; lra |]);
    (split; [intros; try discriminate; lra |]);
    (split; [intros [H | [H | [H | [H | H]]]]; try discriminate H; split; lra |]);
    intros H; specialize (Hfl0 H); lra.
Qed.

(** The error of [preciseRound], in minor units of the target scale. *)
Lemma preciseRound_error (mode : PrecisionRoundingMode) (x : Decimal) (d : nat) :
  let e := preciseRound x d mode - x in
  (- minorUnit d < e < minorUnit d)
  /\ (mode = FLOOR -> e <= 0)
  /\ (mode = CEIL -> 0 <= e)
  /\ (mode = HALF_UP \/ mode = HALF_DOWN \/ mode = HALF_EVEN
      \/ mode = HALF_CEIL \/ mode = HALF_FLOOR ->
      - (minorUnit d * (1#2)) <= e <= minorUnit d * (1#2))
  /\ (0 <= x -> 0 <= preciseRound x d mode).
Proof.
  cbv zeta. unfold preciseRound.
  pose proof (minorUnit_pos d) as Hmu.
  pose proof (scale_minorUnit d) as Hone.
  set (mu := minorUnit d) in *. set (P := inject_Z (pow10 d)) in *.
  assert (HP : 0 < P).
  { unfold P. change 0 with (inject_Z 0). rewrite <- Zlt_Qlt. apply pow10_pos. }
  destruct (roundToInteger_error mode (x * P)) as (Hb & Hfl & Hce & Hhalf & Hpos).
  set (z := inject_Z (roundToInteger mode (x * P))) in *.
  cbv zeta in *.
  assert (Hx : x == x * P * mu) by (rewrite <- Qmult_assoc, Hone; ring).
  assert (He : z * mu - x == (z - x * P) * mu) by (rewrite Hx at 1; ring).
  set (e0 := z - x * P) in *.
  split; [| split; [| split; [| split]]].
  - rewrite He. split; nra.
  - intros H. rewrite He. specialize (Hfl H). nra.
  - intros H. rewrite He. specialize (Hce H). nra.
  - intros H. rewrite He. specialize (Hhalf H). split; nra.
  - intros H. assert (H0 : 0 <= x * P) by nra. specialize (Hpos H0). nra.
Qed.

Lemma round_error (mode : RoundingMode) (x : Decimal) (d : nat) :
  - minorUnit d < round x d mode - x < minorUnit d.
Proof. apply (preciseRound_error (mapRoundingMode mode) x d). Qed.

Lemma round_nonneg (mode : RoundingMode) (x : Decimal) (d : nat) :
  0 <= x -> 0 <= round x d mode.
Proof. apply (preciseRound_error (mapRoundingMode mode) x d). Qed.

(** The half-even decision: a nearest integer, the even one on a tie. *)
Lemma roundToInteger_half_even (q : Q) :
  let k := roundToInteger HALF_EVEN q in
  let e := inject_Z k - q in
  - (1#2) <= e <= 1#2
  /\ (e == 1#2 \/ e == - (1#2) -> Z.even k = true).
Proof.
  destruct (floor_remainder q) as [Hq Hb]. cbv zeta in Hq, Hb.
  unfold roundToInteger.
  set (fl := (Qnum q / Z.pos (Qden q))%Z) in *.
  set (r := (Qnum q mod Z.pos (Qden q))%Z) in *.
  set (p := Z.pos (Qden q)) in *.
  set (f := inject_Z r / inject_Z p) in *.
  assert (Hp : 0 < inject_Z p).
  { change 0 with (inject_Z 0). rewrite <- Zlt_Qlt. unfold p. lia. }
  assert (Hf0 : 0 <= f).
  { unfold f. apply Qle_shift_div_l; [exact Hp |].
    change 0 with (inject_Z 0). rewrite Qmult_0_l.
    change 0 with (inject_Z 0). rewrite <- Zle_Qle. lia. }
  assert (Hf1 : f < 1).
  { unfold f. apply Qlt_shift_div_r; [exact Hp |].
    rewrite Qmult_1_l. rewrite <- Zlt_Qlt. lia. }
  assert (H2 : 2 * f == inject_Z (2 * r) / inject_Z p)
    by (unfold f; rewrite inject_Z_mult; unfold Qdiv; ring).
  assert (Hfl1 : inject_Z (fl + 1) == inject_Z fl + 1)
    by (rewrite inject_Z_plus; reflexivity).
  cbv zeta.
  destruct (Z.compare_spec (2 * r) p) as [H | H | H].
  - assert (H3 : 2 * f == 1) by (rewrite H2, H; field; lra).
    destruct (Z.even fl) eqn:Ev.
    + split; [split; lra | intros _; exact Ev].
    + rewrite Hfl1. split; [split; lra | intros _].
      replace (fl + 1)%Z with (Z.succ fl) by lia.
      rewrite Z.even_succ, <- Z.negb_even, Ev. reflexivity.
  - assert (H3 : 2 * f < 1).
    { rewrite H2. apply Qlt_shift_div_r; [exact Hp |].
      rewrite Qmult_1_l. rewrite <- Zlt_Qlt. exact H. }
    split; [split; lra | intros [E | E]; exfalso; lra].
  - assert (H3 : 1 < 2 * f).
    { rewrite H2. apply Qlt_shift_div_l; [exact Hp |].
      rewrite Qmult_1_l. rewrite <- Zlt_Qlt. exact H. }
    rewrite Hfl1. split; [split; lra | intros [E | E]; exfalso; lra].
Qed.

(** Rounding in the default mode achieves [roundedHalfEven]. *)
Lemma round_half_even (x : Decimal) (d : nat) :
  roundedHalfEven d x (round x d DEFAULT_ROUNDING_MODE).
Proof.
  unfold round, DEFAULT_ROUNDING_MODE, mapRoundingMode, preciseRound.
  pose proof (minorUnit_pos d) as Hmu.
  pose proof (scale_minorUnit d) as Hone.
  set (mu := minorUnit d) in *. set (P := inject_Z (pow10 d)) in *.
  destruct (roundToInteger_half_even (x * P)) as [Hb Heven].
  cbv zeta in Hb, Heven.
  exists (roundToInteger HALF_EVEN (x * P)).
  set (z := inject_Z (roundToInteger HALF_EVEN (x * P))) in *.
  assert (Hx : x == x * P * mu) by (rewrite <- Qmult_assoc, Hone; ring).
  assert (He : z * mu - x == (z - x * P) * mu) by (rewrite Hx at 1; ring).
  set (e0 := z - x * P) in *.
  split; [reflexivity |]. fold mu. split.
  - rewrite He. clear - Hb Hmu. clearbody e0 mu. split; nra.
  - intros [E | E]; rewrite He in E; apply Heven; clear - E Hmu;
      clearbody e0 mu.
    + left. nra.
    + right. nra.
Qed.

Lemma roundForCurrency_half_even (x : Decimal) (c : string) :
  roundedHalfEven (getCurrencyDecimalPlaces c) x
    (roundForCurrency x c DEFAULT_ROUNDING_MODE).
Proof. apply round_half_even. Qed.

(** [roundedHalfEven] determines the rounded value. *)
Lemma roundedHalfEven_unique (d : nat) (x r r' : Decimal) :
  roundedHalfEven d x r -> roundedHalfEven d x r' -> r == r'.
Proof.
  intros (k & Hk & Hb & He) (k' & Hk' & Hb' & He').
  pose proof (minorUnit_pos d) as Hmu. set (mu := minorUnit d) in *.
  assert (Hd : r - r' == inject_Z (k - k') * mu).
  { rewrite Hk, Hk'. unfold Z.sub. rewrite inject_Z_plus, inject_Z_opp. ring. }
  assert (Hle : (-1 <= k - k' <= 1)%Z).
  { split.
    - rewrite Zle_Qle. change (inject_Z (-1)) with (-(1)).
      set (z := inject_Z (k - k')) in *. nra.
    - rewrite Zle_Qle. change (inject_Z 1) with 1.
      set (z := inject_Z (k - k')) in *. nra. }
  assert (Hcases : (k - k' = 0 \/ k - k' = 1 \/ k - k' = -1)%Z) by lia.
  destruct Hcases as [E | [E | E]]; rewrite E in Hd.
  - change (inject_Z 0) with 0 in Hd. lra.
  - exfalso. change (inject_Z 1) with 1 in Hd.
    assert (E1 : Z.even k = true) by (apply He; left; lra).
    assert (E2 : Z.even k' = true) by (apply He'; right; lra).
    replace k with (Z.succ k') in E1 by lia.
    rewrite Z.even_succ, <- Z.negb_even, E2 in E1. discriminate E1.
  - exfalso. change (inject_Z (-1)) with (-(1)) in Hd.
    assert (E1 : Z.even k = true) by (apply He; right; lra).
    assert (E2 : Z.even k' = true) by (apply He'; left; lra).
    replace k' with (Z.succ k) in E2 by lia.
    rewrite Z.even_succ, <- Z.negb_even, E1 in E2. discriminate E2.
Qed.

(** ** Division *)

Lemma preciseDivide_zero (a b : Decimal) (p : nat) :
  b == 0 -> preciseDivide a b p = Throw DivisionByZero.
Proof.
  intros H. unfold preciseDivide.
  apply preciseIsZero_true in H. rewrite H. reflexivity.
Qed.

Lemma preciseDivide_nonzero (a b : Decimal) (p : nat) :
  ~ b == 0 -> preciseDivide a b p = Ok (truncateTo p (a / b)).
Proof.
  intros H. unfold preciseDivide.
  apply preciseIsZero_false in H. rewrite H. reflexivity.
Qed.

(** ** Derived mode *)

Section DerivedMode.

Variable input : LineItemInput.

Let r : LineItemResult := calculateLineItem input.
Let v : ValidatedLineItem := validateLineItemInput input.
Let rnd (x : Decimal) : Decimal :=
  roundForCurrency x (v_currency v) DEFAULT_ROUNDING_MODE.

Lemma derived_currency :
  li_currency r = v_currency v
  /\ li_decimalPlaces r = getCurrencyDecimalPlaces (v_currency v).
Proof. split; reflexivity. Qed.

Lemma derived_gross :
  grossAmount (calculated r) = rnd (v_unitPrice v * inject_Z (v_quantity v)).
Proof. reflexivity. Qed.

Lemma effectiveDiscount_min (discount gross : Decimal) :
  (if preciseGreaterThan discount gross then gross else discount)
  = Qmin discount gross.
Proof.
  unfold Qmin, GenericMinMax.gmin.
  destruct (preciseGreaterThan discount gross) eqn:E.
  - apply preciseGreaterThan_true in E.
    rewrite (proj1 (Qgt_alt _ _) E). reflexivity.
  - apply preciseGreaterThan_false in E.
    pose proof (proj1 (Qle_alt _ _) E) as E'.
    destruct (discount ?= gross); [reflexivity | reflexivity | congruence].
Qed.

Lemma derived_taxable :
  taxableAmount (calculated r)
  = rnd (grossAmount (calculated r)
         - Qmin (v_discountAmount v) (grossAmount (calculated r))).
Proof.
  rewrite <- effectiveDiscount_min. reflexivity.
Qed.

Lemma derived_tax :
  taxAmount (calculated r)
  = rnd (taxableAmount (calculated r) * v_taxRate v / 100).
Proof. reflexivity. Qed.

Lemma derived_total :
  total (calculated r)
  = rnd (taxableAmount (calculated r) + taxAmount (calculated r)).
Proof. reflexivity. Qed.

Lemma derived_adjustment : roundingAdjustment r = 0.
Proof. reflexivity. Qed.

Lemma derived_atScale :
  let d := li_decimalPlaces r in
  atScale d (grossAmount (calculated r))
  /\ atScale d (taxableAmount (calculated r))
  /\ atScale d (taxAmount (calculated r))
  /\ atScale d (total (calculated r)).
Proof.
  repeat split; apply roundForCurrency_atScale.
Qed.

Lemma derived_total_exact :
  total (calculated r)
  == taxableAmount (calculated r) + taxAmount (calculated r).
Proof.
  rewrite derived_total. unfold rnd. apply roundForCurrency_id.
  apply atScale_plus; apply derived_atScale.
Qed.

Lemma derived_invariant : lineItemInvariant r.
Proof.
  unfold lineItemInvariant.
  rewrite derived_total_exact, derived_adjustment. ring.
Qed.

End DerivedMode.

(** ** Entered-total mode *)

Section EnteredTotalMode.

Variables (enteredTotal quantity : Decimal).
Variables (taxRate discountAmount : option Decimal).
Variable currency : string.

Let tax : Decimal := default 0 taxRate.
Let discount : Decimal := default 0 discountAmount.
Let qty : Z := Z.max 1 (Qfloor quantity).
Let entered : Decimal :=
  roundForCurrency enteredTotal currency DEFAULT_ROUNDING_MODE.
Let taxMultiplier : Decimal :=
  1 + truncateTo DEFAULT_PRECISION (tax / 100).

(** The function throws exactly when the tax multiplier is zero, and
    otherwise returns the record assembled from the entered total and the
    line item recomputed from the displayed unit price. *)
Lemma calculateLineItemFromTotal_cases :
  (taxMultiplier == 0
   /\ calculateLineItemFromTotal enteredTotal quantity taxRate
        discountAmount currency = Throw DivisionByZero)
  \/ (~ taxMultiplier == 0
      /\ exists r : EnteredTotalLineItemResult,
           calculateLineItemFromTotal enteredTotal quantity taxRate
             discountAmount currency = Ok r
           /\ let recomputed :=
                calculateLineItem
                  {| in_unitPrice := Some (displayedUnitPrice r);
                     in_quantity := inject_Z qty;
                     in_discountAmount := Some discount;
                     in_taxRate := Some tax;
                     in_currency := Some currency |} in
              total (calculated r) = entered
              /\ grossAmount (calculated r) = grossAmount (calculated recomputed)
              /\ taxableAmount (calculated r)
                 = taxableAmount (calculated recomputed)
              /\ taxAmount (calculated r) = taxAmount (calculated recomputed)
              /\ recomputedTotal r = total (calculated recomputed)
              /\ roundingAdjustment r = entered - recomputedTotal r
              /\ hasAdjustment r = negb (preciseIsZero (roundingAdjustment r))
              /\ displayedUnitPrice r
                 = roundForCurrency (exactUnitPrice r) currency
                     DEFAULT_ROUNDING_MODE
              /\ s_unitPrice (input r) = displayedUnitPrice r
              /\ s_quantity (input r) = qty
              /\ li_currency r = currency
              /\ li_decimalPlaces r = getCurrencyDecimalPlaces currency).
Proof.
  unfold calculateLineItemFromTotal. cbv zeta.
  unfold safeParsePreciseString, mathMax, mathFloor, safeToNumber.
  fold tax discount qty entered.
  rewrite (preciseDivide_nonzero tax 100) by (intros E; discriminate E).
  cbn [mbind result_bind]. unfold preciseAdd at 1. fold taxMultiplier.
  destruct (Qeq_dec taxMultiplier 0) as [Hz | Hnz].
  - left. split; [exact Hz |].
    rewrite (preciseDivide_zero entered taxMultiplier) by exact Hz.
    reflexivity.
  - right. split; [exact Hnz |].
    rewrite (preciseDivide_nonzero entered taxMultiplier) by exact Hnz.
    cbn [mbind result_bind].
    rewrite preciseDivide_nonzero by (apply inject_Z_nonzero; lia).
    cbn [mbind result_bind].
    eexists. split; [reflexivity |].
    cbn. repeat split; reflexivity.
Qed.

End EnteredTotalMode.

(** The quotient of a non-negative value is truncated to a non-negative
    one, so a non-negative tax rate never makes the tax multiplier zero. *)
Lemma truncateTo_nonneg (p : nat) (x : Decimal) : 0 <= x -> 0 <= truncateTo p x.
Proof.
  intros Hx. unfold truncateTo, preciseRound.
  apply Qmult_le_0_compat; [| apply Qlt_le_weak, minorUnit_pos].
  assert (Hq : 0 <= x * inject_Z (pow10 p)).
  { apply Qmult_le_0_compat; [exact Hx |].
    pose proof (pow10_pos p). unfold Qle. simpl. lia. }
  destruct (x * inject_Z (pow10 p)) as [n d].
  unfold Qle in Hq. simpl in Hq.
  assert (Hn : (0 <= n)%Z) by lia.
  unfold roundToInteger. simpl.
  apply Z.leb_le in Hn as Hb. rewrite Hb.
  change 0 with (inject_Z 0). rewrite <- Zle_Qle. apply Z.div_pos; lia.
Qed.

Lemma entered_total_returns (enteredTotal quantity : Decimal)
    (taxRate discountAmount : option Decimal) (currency : string) :
  0 <= default 0 taxRate ->
  returns (calculateLineItemFromTotal enteredTotal quantity taxRate
             discountAmount currency) = true.
Proof.
  intros Htax.
  destruct (calculateLineItemFromTotal_cases enteredTotal quantity taxRate
              discountAmount currency) as [[Hz _] | [_ [r [Hr _]]]].
  - exfalso.
    pose proof (truncateTo_nonneg DEFAULT_PRECISION (default 0 taxRate / 100)) as H.
    assert (H0 : 0 <= default 0 taxRate / 100).
    { apply Qle_shift_div_l; [reflexivity | lra]. }
    specialize (H H0). lra.
  - rewrite Hr. reflexivity.
Qed.

(** [input.currency || 'INR'] keeps the scale: the empty code is unknown
    to the registry and falls back to the two decimal places of INR. *)
Lemma currency_or_INR_scale (c : string) :
  getCurrencyDecimalPlaces (if String.eqb c "" then "INR"%string else c)
  = getCurrencyDecimalPlaces c.
Proof.
  destruct (String.eqb_spec c "") as [-> | _]; [vm_compute |]; reflexivity.
Qed.

(** What entered-total mode returns is a sound line item at the scale of
    its currency. *)
Lemma entered_result_sound (enteredTotal quantity : Decimal)
    (taxRate discountAmount : option Decimal) (currency : string)
    (r : EnteredTotalLineItemResult) :
  calculateLineItemFromTotal enteredTotal quantity taxRate discountAmount
    currency = Ok r ->
  lineItemInvariant r
  /\ roundingAdjustment r
     == roundForCurrency enteredTotal currency DEFAULT_ROUNDING_MODE
        - recomputedTotal r
  /\ atScale (li_decimalPlaces r) (total (calculated r))
  /\ atScale (li_decimalPlaces r) (taxableAmount (calculated r))
  /\ atScale (li_decimalPlaces r) (taxAmount (calculated r))
  /\ atScale (li_decimalPlaces r) (roundingAdjustment r).
Proof.
  intros Hok.
  destruct (calculateLineItemFromTotal_cases enteredTotal quantity taxRate
              discountAmount currency)
    as [[_ Hthrow] | [_ [r' [Hr H]]]].
  { rewrite Hthrow in Hok. discriminate Hok. }
  rewrite Hr in Hok. injection Hok as ->. cbv zeta in H.
  destruct H as (Htot & _ & Ht & Hx & Hrec & Hadj & _ & _ & _ & _ & Hcur & Hd).
  set (recomputed := calculateLineItem _) in *.
  assert (Hscale : li_decimalPlaces recomputed = li_decimalPlaces r).
  { rewrite Hd. apply currency_or_INR_scale. }
  destruct (derived_atScale
              {| in_unitPrice := Some (displayedUnitPrice r);
                 in_quantity := inject_Z (Z.max 1 (Qfloor quantity));
                 in_discountAmount := Some (default 0 discountAmount);
                 in_taxRate := Some (default 0 taxRate);
                 in_currency := Some currency |})
    as (_ & Ht' & Hx' & Htot').
  fold recomputed in Ht', Hx', Htot'. cbv zeta in Ht', Hx', Htot'.
  rewrite Hscale in Ht', Hx', Htot'.
  assert (Hent : atScale (li_decimalPlaces r) (total (calculated r))).
  { rewrite Htot, Hd. apply roundForCurrency_atScale. }
  assert (Hexact := derived_total_exact
              {| in_unitPrice := Some (displayedUnitPrice r);
                 in_quantity := inject_Z (Z.max 1 (Qfloor quantity));
                 in_discountAmount := Some (default 0 discountAmount);
                 in_taxRate := Some (default 0 taxRate);
                 in_currency := Some currency |}).
  fold recomputed in Hexact.
  split; [| split; [| split; [| split; [| split]]]].
  - unfold lineItemInvariant. rewrite Hadj, Hrec, Ht, Hx, Htot.
    rewrite Hexact. ring.
  - rewrite Hadj. apply Qeq_refl.
  - exact Hent.
  - rewrite Ht. exact Ht'.
  - rewrite Hx. exact Hx'.
  - rewrite Hadj, Hrec. apply atScale_minus; [| exact Htot'].
    rewrite <- Htot. exact Hent.
Qed.

Lemma entered_result_scale (enteredTotal quantity : Decimal)
    (taxRate discountAmount : option Decimal) (currency : string)
    (r : EnteredTotalLineItemResult) :
  calculateLineItemFromTotal enteredTotal quantity taxRate discountAmount
    currency = Ok r ->
  li_decimalPlaces r = getCurrencyDecimalPlaces currency
  /\ total (calculated r)
     = roundForCurrency enteredTotal currency DEFAULT_ROUNDING_MODE.
Proof.
  intros Hok.
  destruct (calculateLineItemFromTotal_cases enteredTotal quantity taxRate
              discountAmount currency)
    as [[_ Hthrow] | [_ [r' [Hr H]]]].
  { rewrite Hthrow in Hok. discriminate Hok. }
  rewrite Hr in Hok. injection Hok as ->. cbv zeta in H.
  destruct H as (Htot & _ & _ & _ & _ & _ & _ & _ & _ & _ & _ & Hd).
  split; [exact Hd | exact Htot].
Qed.

Lemma derived_result_sound (input : LineItemInput) :
  let r := calculateLineItem input in
  lineItemInvariant r
  /\ atScale (li_decimalPlaces r) (total (calculated r))
  /\ atScale (li_decimalPlaces r) (taxableAmount (calculated r))
  /\ atScale (li_decimalPlaces r) (taxAmount (calculated r))
  /\ atScale (li_decimalPlaces r) (roundingAdjustment r).
Proof.
  intros r. split; [apply derived_invariant |].
  destruct (derived_atScale input) as (_ & Ht & Hx & Htot).
  split; [exact Htot |]. split; [exact Ht |]. split; [exact Hx |].
  unfold r. rewrite derived_adjustment. apply atScale_0.
Qed.

(** The adjustment is taken from the rounded entered total: for the
    entered total 10.005 in INR the total is rounded to 10.00, the
    recomputed total is 10.00 and the adjustment is 0, not
    10.005 − 10.00.  And a tax rate of −100 makes the tax multiplier zero,
    so that no result is returned at all. *)
Lemma entered_adjustment_from_rounded_total :
  match calculateLineItemFromTotal 10.005 1 (Some 0) (Some 0) "INR" with
  | Ok r =>
      recomputedTotal r == 10
      /\ roundingAdjustment r == 0
      /\ ~ roundingAdjustment r == 10.005 - recomputedTotal r
  | Throw _ => False
  end
  /\ calculateLineItemFromTotal 100 1 (Some (-100)) (Some 0) "INR"
     = Throw DivisionByZero.
Proof.
  split.
  - vm_compute. split; [reflexivity | split; [reflexivity | discriminate]].
  - vm_compute. reflexivity.
Qed.

(** C1 (amended). Every line item satisfies
    total == taxableAmount + taxAmount + roundingAdjustment, all four being
    whole numbers of minor units of the item's currency: for every input of
    [calculateLineItem], and for every result that
    [calculateLineItemFromTotal] returns, whose roundingAdjustment is the
    entered total, rounded to the currency scale, minus the recomputed total
    (the entered total itself when it is already at that scale).
    Entered-total mode returns no result exactly when the tax multiplier
    1 + taxRate/100 is zero, where the division by zero propagates. *)
Theorem line_item_total_invariant :
  (forall input : LineItemInput,
     let r := calculateLineItem input in
     lineItemInvariant r
     /\ atScale (li_decimalPlaces r) (total (calculated r))
     /\ atScale (li_decimalPlaces r) (taxableAmount (calculated r))
     /\ atScale (li_decimalPlaces r) (taxAmount (calculated r))
     /\ atScale (li_decimalPlaces r) (roundingAdjustment r))
  /\ (forall (enteredTotal quantity : Decimal)
             (taxRate discountAmount : option Decimal) (currency : string),
        match calculateLineItemFromTotal enteredTotal quantity taxRate
                discountAmount currency with
        | Ok r =>
            lineItemInvariant r
            /\ roundingAdjustment r
               == roundForCurrency enteredTotal currency DEFAULT_ROUNDING_MODE
                  - recomputedTotal r
            /\ atScale (li_decimalPlaces r) (total (calculated r))
            /\ atScale (li_decimalPlaces r) (taxableAmount (calculated r))
            /\ atScale (li_decimalPlaces r) (taxAmount (calculated r))
            /\ atScale (li_decimalPlaces r) (roundingAdjustment r)
            /\ (atScale (li_decimalPlaces r) enteredTotal ->
                roundingAdjustment r == enteredTotal - recomputedTotal r)
            /\ ~ 1 + truncateTo DEFAULT_PRECISION (default 0 taxRate / 100)
                 == 0
        | Throw e =>
            e = DivisionByZero
            /\ 1 + truncateTo DEFAULT_PRECISION (default 0 taxRate / 100) == 0
        end).
Proof.
  split.
  - apply derived_result_sound.
  - intros enteredTotal quantity taxRate discountAmount currency.
    destruct (calculateLineItemFromTotal enteredTotal quantity taxRate
                discountAmount currency) as [r | e] eqn:E.
    + destruct (entered_result_sound _ _ _ _ _ r E)
        as (Hinv & Hadj & Htot & Ht & Hx & Ha).
      destruct (entered_result_scale _ _ _ _ _ r E) as [Hd _].
      split; [exact Hinv |]. split; [exact Hadj |]. split; [exact Htot |].
      split; [exact Ht |]. split; [exact Hx |]. split; [exact Ha |].
      split.
      * intros Hscale. rewrite Hadj.
        rewrite roundForCurrency_id by (rewrite <- Hd; exact Hscale).
        reflexivity.
      * destruct (calculateLineItemFromTotal_cases enteredTotal quantity
                    taxRate discountAmount currency)
          as [[_ Hthrow] | [Hnz _]];
          [rewrite Hthrow in E; discriminate E | exact Hnz].
    + destruct (calculateLineItemFromTotal_cases enteredTotal quantity taxRate
                  discountAmount currency)
        as [[Hz Hthrow] | [_ [r [Hr _]]]]; rewrite E in *.
      * injection Hthrow as ->. split; [reflexivity | exact Hz].
      * discriminate Hr.
Qed.

(** C6. In derived mode every step is computed from the sanitised input
    and rounded to the currency scale before the next step consumes it:
    grossAmount = round(unitPrice × quantity),
    taxableAmount = round(grossAmount − min(discount, grossAmount)),
    taxAmount = round(taxableAmount × taxRate / 100),
    total = round(taxableAmount + taxAmount), and roundingAdjustment = 0.
    Each of the four amounts is a whole number of minor units of the
    currency, at most half a minor unit from the exact value of its step,
    the even one on a tie; the discount that is returned is the capped
    one.  For unitPrice = 1000, quantity = 2, taxRate = 18 this gives
    2000.00, 2000.00, 360.00, 2360.00 and 0; for 3 × 33.335 with discount
    10.004 at 7.77% every step rounds (100.00 on a tie, 90.00, 6.99,
    96.99); for 2 × 19.99 with discount 50 the discount is capped at the
    gross amount 39.98 and nothing is left to tax. *)
Theorem derived_mode_steps :
  (forall request : LineItemInput,
     let v := validateLineItemInput request in
     let r := calculateLineItem request in
     let d := getCurrencyDecimalPlaces (v_currency v) in
     let rnd x := roundForCurrency x (v_currency v) DEFAULT_ROUNDING_MODE in
     (grossAmount (calculated r) = rnd (v_unitPrice v * inject_Z (v_quantity v))
      /\ taxableAmount (calculated r)
         = rnd (grossAmount (calculated r)
                - Qmin (v_discountAmount v) (grossAmount (calculated r)))
      /\ taxAmount (calculated r)
         = rnd (taxableAmount (calculated r) * v_taxRate v / 100)
      /\ total (calculated r)
         = rnd (taxableAmount (calculated r) + taxAmount (calculated r))
      /\ roundingAdjustment r = 0)
     /\ (roundedHalfEven d (v_unitPrice v * inject_Z (v_quantity v))
           (grossAmount (calculated r))
         /\ roundedHalfEven d
              (grossAmount (calculated r)
               - Qmin (v_discountAmount v) (grossAmount (calculated r)))
              (taxableAmount (calculated r))
         /\ roundedHalfEven d
              (taxableAmount (calculated r) * v_taxRate v / 100)
              (taxAmount (calculated r))
         /\ roundedHalfEven d
              (taxableAmount (calculated r) + taxAmount (calculated r))
              (total (calculated r)))
     /\ s_discountAmount (input r)
        = Qmin (v_discountAmount v) (grossAmount (calculated r))
     /\ li_decimalPlaces r = d)
  /\ (let r := calculateLineItem
                 {| in_unitPrice := Some 1000;
                    in_quantity := 2;
                    in_discountAmount := None;
                    in_taxRate := Some 18;
                    in_currency := None |} in
      grossAmount (calculated r) == 2000
      /\ taxableAmount (calculated r) == 2000
      /\ taxAmount (calculated r) == 360
      /\ total (calculated r) == 2360
      /\ roundingAdjustment r == 0)
  /\ (let r := calculateLineItem
                 {| in_unitPrice := Some 33.335;
                    in_quantity := 3;
                    in_discountAmount := Some 10.004;
                    in_taxRate := Some 7.77;
                    in_currency := Some "INR"%string |} in
      grossAmount (calculated r) == 100
      /\ taxableAmount (calculated r) == 90
      /\ taxAmount (calculated r) == 6.99
      /\ total (calculated r) == 96.99
      /\ roundingAdjustment r == 0)
  /\ (let r := calculateLineItem
                 {| in_unitPrice := Some 19.99;
                    in_quantity := 2;
                    in_discountAmount := Some 50;
                    in_taxRate := Some 18;
                    in_currency := Some "INR"%string |} in
      grossAmount (calculated r) == 39.98
      /\ s_discountAmount (input r) == 39.98
      /\ taxableAmount (calculated r) == 0
      /\ taxAmount (calculated r) == 0
      /\ total (calculated r) == 0).
Proof.
  split; [| split; [| split]].
  - intros request v r d rnd. subst v r d rnd.
    split; [| split; [| split]].
    + split; [apply derived_gross |].
      split; [apply derived_taxable |].
      split; [apply derived_tax |].
      split; [apply derived_total | apply derived_adjustment].
    + split; [| split; [| split]].
      * rewrite (derived_gross request). apply roundForCurrency_half_even.
      * rewrite (derived_taxable request).
        apply roundForCurrency_half_even.
      * rewrite (derived_tax request). apply roundForCurrency_half_even.
      * rewrite (derived_total request). apply roundForCurrency_half_even.
    + rewrite <- effectiveDiscount_min. reflexivity.
    + reflexivity.
  - vm_compute. repeat split.
  - vm_compute. repeat split.
  - vm_compute. repeat split.
Qed.

(** An entered total with more digits than the currency keeps: the
    returned total is the rounded one. *)
Lemma entered_total_is_rounded :
  match calculateLineItemFromTotal 10.005 1 (Some 0) (Some 0) "INR" with
  | Ok r => total (calculated r) == 10 /\ ~ total (calculated r) == 10.005
  | Throw _ => False
  end.
Proof. vm_compute. split; [reflexivity | discriminate]. Qed.

(** Entered total 1180 at 18% back-solves to the unit price 1000 with no
    adjustment.  Entered total 5000 for three units at 18% back-solves to
    the unit price 1412.43, and the recomputation 3 × 1412.43 = 4237.29,
    plus the tax 762.71, is 5000.00 again: the total stays 5000.00 and the
    adjustment is zero. *)
Example entered_total_examples :
  match calculateLineItemFromTotal 1180 1 (Some 18) (Some 0) "INR",
        calculateLineItemFromTotal 5000 3 (Some 18) (Some 0) "INR" with
  | Ok a, Ok b =>
      (displayedUnitPrice a == 1000
       /\ taxableAmount (calculated a) == 1000
       /\ taxAmount (calculated a) == 180
       /\ total (calculated a) == 1180
       /\ hasAdjustment a = false)
      /\ (displayedUnitPrice b == 1412.43
          /\ taxableAmount (calculated b) == 4237.29
          /\ taxAmount (calculated b) == 762.71
          /\ total (calculated b) == 5000
          /\ roundingAdjustment b == 0
          /\ hasAdjustment b = false)
  | _, _ => False
  end.
Proof. vm_compute. repeat split. Qed.

(** C5 (amended). In entered-total mode, whenever the tax multiplier
    1 + taxRate/100 is not zero, [calculateLineItemFromTotal] returns a
    result whose total is the entered total rounded to the currency scale
    (not the recomputed one), whose roundingAdjustment is that total minus
    the total recomputed by [calculateLineItem] from the displayed (rounded)
    unit price, and whose hasAdjustment is true exactly when the adjustment
    is nonzero; the total is the entered total itself when that is already
    at the currency scale.  When the multiplier is zero the division by
    zero is thrown. *)
Theorem entered_total_mode_result
    (enteredTotal quantity : Decimal)
    (taxRate discountAmount : option Decimal) (currency : string) :
  let entered := roundForCurrency enteredTotal currency DEFAULT_ROUNDING_MODE in
  let taxMultiplier :=
    1 + truncateTo DEFAULT_PRECISION (default 0 taxRate / 100) in
  match calculateLineItemFromTotal enteredTotal quantity taxRate
          discountAmount currency with
  | Ok r =>
      ~ taxMultiplier == 0
      /\ total (calculated r) = entered
      /\ displayedUnitPrice r
         = roundForCurrency (exactUnitPrice r) currency DEFAULT_ROUNDING_MODE
      /\ recomputedTotal r
         = total (calculated
             (calculateLineItem
                {| in_unitPrice := Some (displayedUnitPrice r);
                   in_quantity := inject_Z (Z.max 1 (Qfloor quantity));
                   in_discountAmount := Some (default 0 discountAmount);
                   in_taxRate := Some (default 0 taxRate);
                   in_currency := Some currency |}))
      /\ roundingAdjustment r = entered - recomputedTotal r
      /\ (hasAdjustment r = true <-> ~ roundingAdjustment r == 0)
      /\ (atScale (getCurrencyDecimalPlaces currency) enteredTotal ->
          total (calculated r) == enteredTotal)
  | Throw e => e = DivisionByZero /\ taxMultiplier == 0
  end.
Proof.
  intros entered taxMultiplier.
  destruct (calculateLineItemFromTotal_cases enteredTotal quantity taxRate
              discountAmount currency)
    as [[Hz Hthrow] | [Hnz [r [Hr H]]]].
  - rewrite Hthrow. split; [reflexivity | exact Hz].
  - rewrite Hr. cbv zeta in H.
    destruct H as (Htot & _ & _ & _ & Hrec & Hadj & Hhas & Hdisp & _).
    split; [exact Hnz |]. split; [exact Htot |]. split; [exact Hdisp |].
    split; [exact Hrec |]. split; [exact Hadj |].
    split.
    + rewrite Hhas, negb_true_iff. apply preciseIsZero_false.
    + intros Hscale. rewrite Htot. apply roundForCurrency_id. exact Hscale.
Qed.

(** ** The CGST/SGST split *)

(** A tax amount below the minor unit is lost by the split. *)
Lemma split_loses_sub_unit_tax :
  match splitTaxCGSTSGST 0.001 "INR" with
  | Ok s => cgst s == 0 /\ sgst s == 0 /\ ~ cgst s + sgst s == 0.001
  | Throw _ => False
  end.
Proof. vm_compute. split; [reflexivity | split; [reflexivity | discriminate]]. Qed.

(** C7 (amended). For every currency and every tax amount that is a whole
    number of minor units of that currency, [splitTaxCGSTSGST] returns cgst
    as the rounded half of the tax and sgst as the remainder tax − cgst
    (its rounding changes nothing), so that cgst + sgst == taxAmount
    exactly. *)
Theorem split_tax_conserves (taxAmount : Decimal) (currency : string) :
  atScale (getCurrencyDecimalPlaces currency) taxAmount ->
  exists s : TaxSplit,
    splitTaxCGSTSGST taxAmount currency = Ok s
    /\ cgst s = roundForCurrency (truncateTo DEFAULT_PRECISION (taxAmount / 2))
                  currency DEFAULT_ROUNDING_MODE
    /\ sgst s == taxAmount - cgst s
    /\ cgst s + sgst s == taxAmount.
Proof.
  intros Hscale. unfold splitTaxCGSTSGST.
  rewrite preciseDivide_nonzero by (intros E; discriminate E).
  cbn [mbind result_bind mret result_ret].
  eexists. split; [reflexivity |]. cbn [cgst sgst].
  set (c := roundForCurrency _ currency _).
  assert (Hs : roundForCurrency (preciseSubtract taxAmount c) currency
                 DEFAULT_ROUNDING_MODE == taxAmount - c).
  { apply roundForCurrency_id. apply atScale_minus; [exact Hscale |].
    apply roundForCurrency_atScale. }
  split; [reflexivity |]. split; [exact Hs |].
  rewrite Hs. ring.
Qed.

Lemma split_tax_conserves_witness :
  atScale (getCurrencyDecimalPlaces "INR") 181
  /\ exists s : TaxSplit,
       splitTaxCGSTSGST 181 "INR" = Ok s
       /\ cgst s = roundForCurrency (truncateTo DEFAULT_PRECISION (181 / 2))
                     "INR" DEFAULT_ROUNDING_MODE
       /\ sgst s == 181 - cgst s
       /\ cgst s + sgst s == 181.
Proof.
  assert (H : atScale (getCurrencyDecimalPlaces "INR") 181).
  { exists 18100%Z. vm_compute. reflexivity. }
  split; [exact H | apply (split_tax_conserves 181 "INR" H)].
Defined.

(** ** Division by zero *)

(** [divideMoneyNumbers] answers a zero divisor with 0. *)
Lemma divideMoneyNumbers_zero_returns :
  divideMoneyNumbers 5 0 "INR" = Ok 0
  /\ divideMoneyNumbers 5 0 "INR" <> Throw DivisionByZero.
Proof. split; [reflexivity | discriminate]. Qed.

(** C8 (amended). [divideMoney] propagates the engine's DivisionByZero
    unchanged: it throws it exactly when the divisor is zero, in particular
    for divideMoney(m, 0), and otherwise returns the truncated quotient in
    the same currency.  [divideMoneyNumbers] guards the zero divisor: it
    never throws and divideMoneyNumbers(a, 0) is 0. *)
Theorem division_by_zero_handling
    (m : Money) (a divisor : Decimal) (cur : string) :
  divideMoney m 0 = Throw DivisionByZero
  /\ match divideMoney m divisor with
     | Throw e => e = DivisionByZero /\ divisor == 0
     | Ok q => ~ divisor == 0
               /\ amount q = truncateTo DEFAULT_PRECISION (amount m / divisor)
               /\ currency q = currency m
     end
  /\ divideMoneyNumbers a 0 cur = Ok 0
  /\ returns (divideMoneyNumbers a divisor cur) = true.
Proof.
  split; [reflexivity |]. split; [| split; [reflexivity |]].
  - unfold divideMoney.
    destruct (Qeq_dec divisor 0) as [Hz | Hnz].
    + rewrite preciseDivide_zero by exact Hz.
      split; [reflexivity | exact Hz].
    + rewrite preciseDivide_nonzero by exact Hnz.
      cbn. split; [exact Hnz | split; reflexivity].
  - unfold divideMoneyNumbers, mathIsZero, safeToNumber.
    destruct (Qeq_bool divisor 0) eqn:E; [reflexivity |].
    rewrite preciseDivide_nonzero; [reflexivity |].
    intros H. apply Qeq_bool_iff in H. congruence.
Qed.

(** ** Input sanitisation *)

Lemma preciseClamp_spec (x lo hi : Decimal) :
  lo <= hi -> preciseClamp x lo hi == Qmin hi (Qmax lo x).
Proof.
  intros Hle. unfold preciseClamp.
  destruct (Q.max_spec lo x) as [[H1 E1] | [H1 E1]];
  destruct (Q.min_spec hi (Qmax lo x)) as [[H2 E2] | [H2 E2]];
  destruct (preciseGreaterThan lo x) eqn:B1;
  destruct (preciseGreaterThan x hi) eqn:B2;
  try apply preciseGreaterThan_true in B1;
  try apply preciseGreaterThan_false in B1;
  try apply preciseGreaterThan_true in B2;
  try apply preciseGreaterThan_false in B2;
  lra.
Qed.

Lemma clampDiscount_spec (d : Decimal) :
  preciseClamp d 0 (preciseMax d 0) == Qmax 0 d.
Proof.
  unfold preciseClamp, preciseMax.
  destruct (Q.max_spec 0 d) as [[H1 E1] | [H1 E1]];
  destruct (preciseGreaterThan 0 d) eqn:B1;
  try apply preciseGreaterThan_true in B1;
  try apply preciseGreaterThan_false in B1;
  try lra.
  - destruct (preciseGreaterThan d d) eqn:B2; lra.
  - destruct (preciseGreaterThan d d) eqn:B2; lra.
Qed.

(** The sanitised quantity exceeds max(1, floor(input)) downwards once the
    input passes Number.MAX_SAFE_INTEGER. *)
Lemma quantity_capped :
  let v := validateLineItemInput
             {| in_unitPrice := Some 1;
                in_quantity := 10000000000000000;
                in_discountAmount := None;
                in_taxRate := Some 0;
                in_currency := None |} in
  v_quantity v = 9007199254740991%Z
  /\ v_quantity v <> Z.max 1 (Qfloor 10000000000000000)
  /\ v_isValid v = true.
Proof. vm_compute. split; [reflexivity | split; [discriminate | reflexivity]]. Qed.

Section Sanitisation.

Variable input : LineItemInput.

Let u : Decimal := default 0 (in_unitPrice input).
Let q : Decimal := in_quantity input.
Let d : Decimal := default 0 (in_discountAmount input).
Let t : Decimal := default 0 (in_taxRate input).
Let v : ValidatedLineItem := validateLineItemInput input.

Lemma validated_unitPrice : v_unitPrice v == Qmax 0 u.
Proof.
  unfold v, validateLineItemInput. cbn [v_unitPrice].
  unfold safeParsePreciseString. fold u.
  destruct (Q.max_spec 0 u) as [[H1 E1] | [H1 E1]];
  destruct (preciseIsNegative u) eqn:B;
  try apply preciseIsNegative_true in B;
  try apply preciseIsNegative_false in B; lra.
Qed.

Lemma validated_quantity :
  v_quantity v = Z.min (Z.max 1 (Qfloor q)) MAX_SAFE_INTEGER.
Proof.
  unfold v, validateLineItemInput. cbn [v_quantity].
  unfold mathClamp, mathFloor, safeToNumber. fold q.
  f_equal. apply Z.max_comm.
Qed.

Lemma validated_discount : v_discountAmount v == Qmax 0 d.
Proof. apply clampDiscount_spec. Qed.

Lemma validated_taxRate : v_taxRate v == Qmin 100 (Qmax 0 t).
Proof. apply preciseClamp_spec. discriminate. Qed.

Lemma validated_bounds :
  0 <= v_unitPrice v
  /\ (1 <= v_quantity v <= MAX_SAFE_INTEGER)%Z
  /\ 0 <= v_discountAmount v
  /\ 0 <= v_taxRate v <= 100.
Proof.
  pose proof validated_unitPrice as Hu.
  pose proof validated_quantity as Hq.
  pose proof validated_discount as Hd.
  pose proof validated_taxRate as Ht.
  destruct (Q.max_spec 0 u) as [[? ?] | [? ?]];
  destruct (Q.max_spec 0 d) as [[? ?] | [? ?]];
  destruct (Q.max_spec 0 t) as [[? ?] | [? ?]];
  destruct (Q.min_spec 100 (Qmax 0 t)) as [[? ?] | [? ?]];
  (split; [lra | split; [unfold MAX_SAFE_INTEGER in *; lia | split; lra]]).
Qed.

End Sanitisation.

Section ReportedViolations.

Variable input : LineItemInput.

Let u : Decimal := default 0 (in_unitPrice input).
Let q : Decimal := in_quantity input.
Let d : Decimal := default 0 (in_discountAmount input).
Let t : Decimal := default 0 (in_taxRate input).
Let v : ValidatedLineItem := validateLineItemInput input.

(** The list of errors, by the five tests that fill it. *)
Lemma validated_errors :
  v_errors v
  = push_if (preciseGreaterThan t 100) "Tax rate cannot exceed 100%"
      (push_if (preciseIsNegative t) "Tax rate cannot be negative"
         (push_if (preciseIsNegative d) "Discount cannot be negative"
            (push_if (preciseGreaterThan 1 q) "Quantity must be at least 1"
               (push_if (preciseIsNegative u)
                  "Unit price cannot be negative" [])))).
Proof. reflexivity. Qed.

Ltac reflect_tests :=
  rewrite validated_errors;
  rewrite <- ?(preciseIsNegative_true u), <- ?(preciseIsNegative_true d),
          <- ?(preciseIsNegative_true t), <- ?(preciseGreaterThan_true 1 q),
          <- ?(preciseGreaterThan_true t 100);
  destruct (preciseIsNegative u), (preciseGreaterThan 1 q),
           (preciseIsNegative d), (preciseIsNegative t),
           (preciseGreaterThan t 100);
  cbn [push_if app].

Ltac decide_listed :=
  split; intros H; try reflexivity; try discriminate H;
  try (repeat constructor);
  exfalso; revert H; rewrite ?elem_of_cons, elem_of_nil; intuition discriminate.

Lemma reports_unitPrice :
  "Unit price cannot be negative"%string ∈ v_errors v <-> u < 0.
Proof. reflect_tests; decide_listed. Qed.

Lemma reports_quantity :
  "Quantity must be at least 1"%string ∈ v_errors v <-> q < 1.
Proof. reflect_tests; decide_listed. Qed.

Lemma reports_discount :
  "Discount cannot be negative"%string ∈ v_errors v <-> d < 0.
Proof. reflect_tests; decide_listed. Qed.

Lemma reports_negative_taxRate :
  "Tax rate cannot be negative"%string ∈ v_errors v <-> t < 0.
Proof. reflect_tests; decide_listed. Qed.

Lemma reports_excessive_taxRate :
  "Tax rate cannot exceed 100%"%string ∈ v_errors v <-> 100 < t.
Proof. reflect_tests; decide_listed. Qed.

Lemma invalid_iff_violates : v_isValid v = false <-> violates input.
Proof.
  unfold violates. fold u q d t.
  change (v_isValid v) with (length (v_errors v) =? 0)%nat.
  reflect_tests;
    (split; [intros H; try discriminate H; tauto
            | intros H; try reflexivity;
              exfalso; intuition discriminate]).
Qed.

End ReportedViolations.

(** C9 (amended). Input sanitisation never aborts.  For every
    LineItemInput, [validateLineItemInput] clamps each offending field to
    its nearest valid value (negative unit price and negative discount to 0,
    tax rate into [0,100], quantity to
    min(max(1, floor(input)), Number.MAX_SAFE_INTEGER)), records each
    specific violation in the errors it returns, with isValid = false
    exactly when a violation occurred, and [calculateLineItem] proceeds
    with the clamped values. *)
Theorem sanitisation_clamps_and_reports (given : LineItemInput) :
  let v := validateLineItemInput given in
  let r := calculateLineItem given in
  let u := default 0 (in_unitPrice given) in
  let q := in_quantity given in
  let d := default 0 (in_discountAmount given) in
  let t := default 0 (in_taxRate given) in
  (v_unitPrice v == Qmax 0 u
   /\ v_quantity v = Z.min (Z.max 1 (Qfloor q)) MAX_SAFE_INTEGER
   /\ v_discountAmount v == Qmax 0 d
   /\ v_taxRate v == Qmin 100 (Qmax 0 t))
  /\ (("Unit price cannot be negative"%string ∈ v_errors v <-> u < 0)
      /\ ("Quantity must be at least 1"%string ∈ v_errors v <-> q < 1)
      /\ ("Discount cannot be negative"%string ∈ v_errors v <-> d < 0)
      /\ ("Tax rate cannot be negative"%string ∈ v_errors v <-> t < 0)
      /\ ("Tax rate cannot exceed 100%"%string ∈ v_errors v <-> 100 < t))
  /\ (v_isValid v = false <-> violates given)
  /\ (s_unitPrice (input r) = v_unitPrice v
      /\ s_quantity (input r) = v_quantity v
      /\ s_taxRate (input r) = v_taxRate v
      /\ s_discountAmount (input r)
         = Qmin (v_discountAmount v) (grossAmount (calculated r))
      /\ grossAmount (calculated r)
         = roundForCurrency (v_unitPrice v * inject_Z (v_quantity v))
             (v_currency v) DEFAULT_ROUNDING_MODE).
Proof.
  intros v r u q d t.
  split; [| split; [| split]].
  - split; [apply validated_unitPrice |].
    split; [apply validated_quantity |].
    split; [apply validated_discount | apply validated_taxRate].
  - split; [apply reports_unitPrice |].
    split; [apply reports_quantity |].
    split; [apply reports_discount |].
    split; [apply reports_negative_taxRate | apply reports_excessive_taxRate].
  - apply invalid_iff_violates.
  - split; [reflexivity |]. split; [reflexivity |]. split; [reflexivity |].
    split; [| apply derived_gross].
    rewrite <- effectiveDiscount_min. reflexivity.
Qed.

(** ** Aggregation and the integrity checker *)

Lemma preciseEquals_refl (a : Decimal) : preciseEquals a a = true.
Proof. apply preciseEquals_true. reflexivity. Qed.

Lemma aggregate_items (its : list LineItemResult) (c : string) :
  items (aggregateLineItems its c) = its
  /\ agg_currency (aggregateLineItems its c) = c.
Proof.
  unfold aggregateLineItems. destruct its as [| item rest]; split; reflexivity.
Qed.

Lemma aggregate_grandTotal (its : list LineItemResult) (c : string) :
  grandTotal (aggregateLineItems its c)
  == roundForCurrency
       (preciseSum (map (fun item => total (calculated item)) its))
       c DEFAULT_ROUNDING_MODE.
Proof.
  unfold aggregateLineItems. destruct its as [| item rest].
  - cbn. symmetry. apply roundForCurrency_id. apply atScale_0.
  - reflexivity.
Qed.

(** A line item priced in INR that the aggregation is asked to total in
    JPY. *)
Lemma grand_total_rounded_to_other_scale :
  let its :=
    [ calculateLineItem
        {| in_unitPrice := Some 0.5; in_quantity := 1;
           in_discountAmount := None; in_taxRate := Some 0;
           in_currency := Some "INR"%string |} ] in
  its <> []
  /\ grandTotal (aggregateLineItems its "JPY") == 0
  /\ preciseSum (map (fun item => total (calculated item)) its) == 0.5
  /\ ~ grandTotal (aggregateLineItems its "JPY")
       == preciseSum (map (fun item => total (calculated item)) its).
Proof.
  split; [discriminate |]. vm_compute.
  split; [reflexivity | split; [reflexivity | discriminate]].
Qed.

(** C3 (amended). For every list of line items whose totals are whole
    numbers of minor units of the aggregation currency, the grandTotal of
    [aggregateLineItems] equals the exact sum of the items' totals. *)
Theorem grand_total_is_sum (its : list LineItemResult) (c : string) :
  Forall (fun item =>
            atScale (getCurrencyDecimalPlaces c) (total (calculated item)))
         its ->
  grandTotal (aggregateLineItems its c)
  == preciseSum (map (fun item => total (calculated item)) its).
Proof.
  intros H. rewrite aggregate_grandTotal.
  apply roundForCurrency_id, atScale_preciseSum.
  induction H as [| item rest Hitem _ IH]; constructor; assumption.
Qed.

Lemma grand_total_is_sum_witness :
  let its :=
    [ calculateLineItem
        {| in_unitPrice := Some 1000; in_quantity := 2;
           in_discountAmount := None; in_taxRate := Some 18;
           in_currency := Some "INR"%string |};
      calculateLineItem
        {| in_unitPrice := Some 750; in_quantity := 1;
           in_discountAmount := Some 100; in_taxRate := Some 18;
           in_currency := Some "INR"%string |} ] in
  Forall (fun item =>
            atScale (getCurrencyDecimalPlaces "INR") (total (calculated item)))
         its
  /\ grandTotal (aggregateLineItems its "INR")
     == preciseSum (map (fun item => total (calculated item)) its).
Proof.
  intros its.
  assert (H : Forall (fun item =>
                atScale (getCurrencyDecimalPlaces "INR")
                  (total (calculated item))) its).
  { constructor; [| constructor; [| constructor]].
    - exists 236000%Z. vm_compute. reflexivity.
    - exists 76700%Z. vm_compute. reflexivity. }
  split; [exact H | apply (grand_total_is_sum its "INR" H)].
Defined.

Lemma verifyLineItems_clean (c : string) (its : list LineItemResult) :
  Forall (fun item =>
            total (calculated item)
            == roundForCurrency
                 (preciseAdd
                    (preciseAdd (taxableAmount (calculated item))
                                (taxAmount (calculated item)))
                    (roundingAdjustment item))
                 c DEFAULT_ROUNDING_MODE)
         its ->
  forall (i : nat) (errs : list IntegrityError),
    verifyLineItems c i its errs = errs.
Proof.
  induction 1 as [| item rest Hitem _ IH]; intros i errs; simpl.
  - reflexivity.
  - apply preciseEquals_true in Hitem. rewrite Hitem. simpl. apply IH.
Qed.

Lemma producedAt_checks (d : nat) (item : LineItemResult) :
  producedAt d item ->
  lineItemInvariant item
  /\ atScale d (taxableAmount (calculated item)
                + taxAmount (calculated item) + roundingAdjustment item).
Proof.
  intros [inp Hd | enteredTotal quantity taxRate discountAmount cur r Hr Hd].
  - destruct (derived_result_sound inp) as (Hinv & _ & Ht & Hx & Ha).
    split; [exact Hinv |].
    repeat apply atScale_plus; eapply atScale_le; eassumption.
  - destruct (entered_result_sound _ _ _ _ _ r Hr)
      as (Hinv & _ & _ & Ht & Hx & Ha).
    split; [exact Hinv |].
    repeat apply atScale_plus; eapply atScale_le; eassumption.
Qed.

(** A line item priced in INR fails the check of an aggregation in JPY. *)
Lemma integrity_fails_across_scales :
  let its :=
    [ calculateLineItem
        {| in_unitPrice := Some 0.5; in_quantity := 1;
           in_discountAmount := None; in_taxRate := Some 0;
           in_currency := Some "INR"%string |} ] in
  let report := verifyInvoiceIntegrity (aggregateLineItems its "JPY") in
  isValid report = false /\ length (errors report) = 1%nat.
Proof. vm_compute. split; reflexivity. Qed.

(** C4 (amended). Round-trip integrity: for every list of line items
    produced by [calculateLineItem] or [calculateLineItemFromTotal] in
    currencies of no more decimal places than the aggregation currency,
    [verifyInvoiceIntegrity] of [aggregateLineItems] returns an empty errors
    list, isValid = true and a zero difference. *)
Theorem aggregation_passes_integrity (its : list LineItemResult) (c : string) :
  Forall (producedAt (getCurrencyDecimalPlaces c)) its ->
  let report := verifyInvoiceIntegrity (aggregateLineItems its c) in
  errors report = []
  /\ isValid report = true
  /\ difference (details report) == 0.
Proof.
  intros H report. unfold report, verifyInvoiceIntegrity.
  destruct (aggregate_items its c) as [-> ->].
  pose proof (aggregate_grandTotal its c) as Hgrand.
  apply preciseEquals_true in Hgrand as Hcheck.
  rewrite verifyLineItems_clean.
  - cbn [errors isValid details difference]. rewrite Hcheck. cbn.
    split; [reflexivity | split; [reflexivity |]].
    unfold preciseSubtract. rewrite Hgrand. ring.
  - eapply Forall_impl; [exact H |]. intros item Hitem. cbv beta.
    destruct (producedAt_checks _ item Hitem) as [Hinv Hscale].
    unfold preciseAdd. rewrite roundForCurrency_id by exact Hscale.
    exact Hinv.
Qed.

Lemma aggregation_passes_integrity_witness :
  let its :=
    [ calculateLineItem
        {| in_unitPrice := Some 1000; in_quantity := 1;
           in_discountAmount := None; in_taxRate := Some 18;
           in_currency := Some "INR"%string |};
      calculateLineItem
        {| in_unitPrice := Some 500; in_quantity := 2;
           in_discountAmount := None; in_taxRate := Some 12;
           in_currency := Some "JPY"%string |} ] in
  Forall (producedAt (getCurrencyDecimalPlaces "INR")) its
  /\ (let report := verifyInvoiceIntegrity (aggregateLineItems its "INR") in
      errors report = []
      /\ isValid report = true
      /\ difference (details report) == 0).
Proof.
  intros its.
  assert (H : Forall (producedAt (getCurrencyDecimalPlaces "INR")) its).
  { constructor; [| constructor; [| constructor]];
      apply produced_derived; vm_compute; lia. }
  split; [exact H | apply (aggregation_passes_integrity its "INR" H)].
Defined.

(** ** Residual redistribution *)

(** *** The increment literal *)

Lemma parse_fraction_zeros (j : nat) (rest : string) (sc : nat) :
  parse_fraction (repeat_string "0" j +:+ rest) 0 sc
  = parse_fraction rest 0 (sc + j).
Proof.
  revert sc. induction j as [| j IH]; intros sc; simpl.
  - f_equal. lia.
  - rewrite IH. f_equal. lia.
Qed.

Lemma parse_increment_digits (j : nat) :
  parse_integer ("0." +:+ repeat_string "0" j +:+ "1") 0 = Some (1%Z, S j).
Proof.
  change (parse_integer ("0." +:+ repeat_string "0" j +:+ "1") 0)
    with (parse_fraction (repeat_string "0" j +:+ "1") 0 0).
  rewrite parse_fraction_zeros. reflexivity.
Qed.

Lemma String_repeat_nonneg (s : string) (d : nat) :
  (1 <= d)%nat ->
  String_repeat s (Z.of_nat d - 1) = Ok (repeat_string s (d - 1)).
Proof.
  intros H. unfold String_repeat.
  destruct (Z.ltb_spec (Z.of_nat d - 1) 0) as [Hlt | _]; [lia |].
  do 2 f_equal. lia.
Qed.

Lemma String_repeat_negative (s : string) :
  String_repeat s (Z.of_nat 0 - 1) = Throw RangeError.
Proof. reflexivity. Qed.

(** For a scale of at least one the two literals ['0.0…01'] and
    ['-0.0…01'] denote plus and minus one minor unit. *)
Lemma increment_literal (d : nat) (positive : bool) :
  (1 <= d)%nat ->
  exists increment : Decimal,
    parseDecimal
      (if positive
       then "0." +:+ repeat_string "0" (d - 1) +:+ "1"
       else "-0." +:+ repeat_string "0" (d - 1) +:+ "1")
    = Ok increment
    /\ increment == (if positive then 1 else -1) * minorUnit d.
Proof.
  intros H. pose proof (parse_increment_digits (d - 1)) as Hp.
  replace (S (d - 1)) with d in Hp by lia.
  destruct positive.
  - exists (inject_Z 1 * minorUnit d). split; [| ring].
    unfold parseDecimal.
    change ("0." +:+ repeat_string "0" (d - 1) +:+ "1")
      with (String "0" ("." +:+ repeat_string "0" (d - 1) +:+ "1")) at 1.
    cbv iota beta. change (Ascii.eqb "0" "-") with false. cbv iota.
    rewrite Hp. reflexivity.
  - exists (- (inject_Z 1 * minorUnit d)). split; [| ring].
    unfold parseDecimal.
    change ("-0." +:+ repeat_string "0" (d - 1) +:+ "1")
      with (String "-" ("0." +:+ repeat_string "0" (d - 1) +:+ "1")).
    cbv iota beta. change (Ascii.eqb "-" "-") with true. cbv iota.
    rewrite Hp. reflexivity.
Qed.

(** *** The loop *)

Example addRoundRobin_wraps :
  Forall2 Qeq (addRoundRobin 1 4 [10; 20; 30]) [12; 21; 31].
Proof. repeat constructor. Qed.

Lemma add_at_length (i : nat) (inc : Decimal) (l : list Decimal) :
  length (add_at i inc l) = length l.
Proof. unfold add_at. apply length_alter. Qed.

Lemma add_at_sum (inc : Decimal) (l : list Decimal) (i : nat) :
  (i < length l)%nat -> preciseSum (add_at i inc l) == preciseSum l + inc.
Proof.
  revert i. induction l as [| x l IH]; intros i Hi; simpl in Hi; [lia |].
  destruct i as [| i].
  - change (add_at 0 inc (x :: l)) with (preciseAdd x inc :: l).
    rewrite !preciseSum_cons. unfold preciseAdd. ring.
  - change (add_at (S i) inc (x :: l)) with (x :: add_at i inc l).
    rewrite !preciseSum_cons. rewrite IH by lia. ring.
Qed.

Lemma addRoundRobin_from (inc : Decimal) (m index : nat) (l : list Decimal) :
  l <> [] ->
  let l' := foldl (fun acc j => add_at (j mod length acc) inc acc) l
                  (seq index m) in
  length l' = length l
  /\ preciseSum l' == preciseSum l + inject_Z (Z.of_nat m) * inc.
Proof.
  revert index l. induction m as [| m IH]; intros index l Hne; cbn [seq foldl].
  - split; [reflexivity |]. change (inject_Z (Z.of_nat 0)) with 0. ring.
  - assert (Hlen : (0 < length l)%nat) by (destruct l; [congruence | simpl; lia]).
    set (l1 := add_at (index mod length l) inc l).
    assert (Hne1 : l1 <> []).
    { intros E. pose proof (add_at_length (index mod length l) inc l) as Hl.
      fold l1 in Hl. rewrite E in Hl. simpl in Hl. lia. }
    destruct (IH (S index) l1 Hne1) as [H1 H2].
    split.
    + rewrite H1. apply add_at_length.
    + rewrite H2. unfold l1.
      rewrite add_at_sum by (apply Nat.mod_upper_bound; lia).
      rewrite Nat2Z.inj_succ, <- Z.add_1_r, inject_Z_plus. ring.
Qed.

(** Each part receives one increment per visit of the round robin. *)
Lemma roundRobin_lookup (inc : Decimal) (m : nat) :
  forall (index : nat) (l : list Decimal) (i : nat) (x : Decimal),
    l !! i = Some x ->
    exists y : Decimal,
      foldl (fun acc j => add_at (j mod length acc) inc acc) l (seq index m)
        !! i = Some y
      /\ y == x + inject_Z (Z.of_nat (visits (length l) index m i)) * inc.
Proof.
  induction m as [| m IH]; intros index l i x Hx; cbn [seq foldl].
  - exists x. split; [exact Hx |]. unfold visits. simpl. ring.
  - set (l1 := add_at (index mod length l) inc l).
    assert (Hlen : length l1 = length l) by apply add_at_length.
    unfold visits. cbn [seq List.filter].
    destruct (Nat.eqb_spec (index mod length l) i) as [E | E].
    + assert (H1 : l1 !! i = Some (preciseAdd x inc)).
      { unfold l1, add_at. rewrite E.
        rewrite list_lookup_alter_eq, Hx. reflexivity. }
      destruct (IH (S index) l1 i _ H1) as [y [Hy Hval]].
      exists y. split; [exact Hy |].
      rewrite Hval, Hlen. unfold visits, preciseAdd. cbn [length].
      rewrite Nat2Z.inj_succ, <- Z.add_1_r, inject_Z_plus. ring.
    + assert (H1 : l1 !! i = Some x).
      { unfold l1, add_at. rewrite list_lookup_alter_ne by exact E. exact Hx. }
      destruct (IH (S index) l1 i _ H1) as [y [Hy Hval]].
      exists y. split; [exact Hy |].
      rewrite Hval, Hlen. reflexivity.
Qed.

Example visits_wrap :
  visits 3 0 4 0 = 2%nat /\ visits 3 0 4 1 = 1%nat /\ visits 3 0 4 2 = 1%nat.
Proof. repeat split. Qed.

(** The loop stops after exactly [m] iterations when the difference is
    [m] increments and the safety limit leaves room for them. *)
Lemma redistribute_steps (inc : Decimal) :
  ~ inc == 0 ->
  forall (m left index : nat) (res : list Decimal) (diff : Decimal),
    diff == inject_Z (Z.of_nat m) * inc ->
    (m <= left)%nat ->
    redistribute left index inc res diff
    = foldl (fun acc j => add_at (j mod length acc) inc acc) res (seq index m).
Proof.
  intros Hinc. induction m as [| m IH]; intros left index res diff Hdiff Hle.
  - assert (Hz : preciseIsZero diff = true).
    { apply preciseIsZero_true. rewrite Hdiff.
      change (inject_Z (Z.of_nat 0)) with 0. ring. }
    destruct left; cbn [redistribute seq foldl]; [| rewrite Hz]; reflexivity.
  - destruct left as [| left]; [lia |].
    assert (Hnz : preciseIsZero diff = false).
    { apply preciseIsZero_false. rewrite Hdiff. intros E.
      apply Qmult_integral in E. destruct E as [E | E]; [| contradiction].
      unfold Qeq in E. simpl in E. lia. }
    cbn [redistribute seq foldl]. rewrite Hnz.
    apply IH; [| lia].
    unfold preciseSubtract. rewrite Hdiff.
    rewrite Nat2Z.inj_succ, <- Z.add_1_r, inject_Z_plus. ring.
Qed.

Lemma nonempty_length {A : Type} (l : list A) :
  l <> [] -> (length l =? 0)%nat = false.
Proof. destruct l; [congruence | reflexivity]. Qed.

Lemma residual_sign (diff : Decimal) (k : Z) (d : nat) :
  diff == inject_Z k * minorUnit d ->
  preciseIsZero diff = (k =? 0)%Z
  /\ preciseGreaterThan diff 0 = (0 <? k)%Z.
Proof.
  intros H. pose proof (minorUnit_pos d) as Hmu.
  assert (Hk : (k < 0 \/ k = 0 \/ 0 < k)%Z) by lia.
  destruct Hk as [Hk | [Hk | Hk]].
  - assert (Hq : inject_Z k < 0) by (change 0 with (inject_Z 0); rewrite <- Zlt_Qlt; lia).
    pose proof (Qmult_lt_compat_r _ _ (minorUnit d) Hmu Hq) as Hp.
    assert (Hd : diff < 0) by lra.
    split.
    + destruct (Z.eqb_spec k 0); [lia |]. apply preciseIsZero_false. lra.
    + destruct (Z.ltb_spec 0 k); [lia |]. apply preciseGreaterThan_false. lra.
  - subst k. assert (Hd : diff == 0) by (rewrite H; change (inject_Z 0) with 0; ring).
    split.
    + apply preciseIsZero_true. exact Hd.
    + apply preciseGreaterThan_false. lra.
  - assert (Hq : 0 < inject_Z k) by (change 0 with (inject_Z 0); rewrite <- Zlt_Qlt; lia).
    pose proof (Qmult_lt_compat_r _ _ (minorUnit d) Hmu Hq) as Hp.
    assert (Hd : 0 < diff) by lra.
    split.
    + destruct (Z.eqb_spec k 0); [lia |]. apply preciseIsZero_false. lra.
    + destruct (Z.ltb_spec 0 k); [| lia]. apply preciseGreaterThan_true. lra.
Qed.

(** C2. Residual redistribution conserves the target total.  For every
    non-empty list of values, every targetTotal and every decimalPlaces
    d >= 1 such that the residual targetTotal − sum(round(values[i], d)) is
    k minor units with |k| <= 10·n, [distributeRoundingAdjustment] returns
    a list of length n whose elements sum exactly to targetTotal; the list
    is the rounded values with one increment added at a time, |k| times, at
    the indices 0, 1, 2, ... wrapping, the increment being one minor unit
    with the sign of the residual, so that part i ends as its rounded value
    plus one increment per visit. *)
Theorem redistribution_conserves_total
    (values : list Decimal) (targetTotal : Decimal) (d : nat) (k : Z) :
  values <> [] ->
  (1 <= d)%nat ->
  targetTotal
  - preciseSum (map (fun v => round v d DEFAULT_ROUNDING_MODE) values)
  == inject_Z k * minorUnit d ->
  (Z.abs k <= 10 * Z.of_nat (length values))%Z ->
  exists (increment : Decimal) (parts : list Decimal),
    distributeRoundingAdjustment values targetTotal d = Ok parts
    /\ increment == (if (0 <? k)%Z then 1 else -1) * minorUnit d
    /\ parts
       = addRoundRobin increment (Z.abs_nat k)
           (map (fun v => round v d DEFAULT_ROUNDING_MODE) values)
    /\ length parts = length values
    /\ preciseSum parts == targetTotal
    /\ (forall (i : nat) (x : Decimal),
          map (fun v => round v d DEFAULT_ROUNDING_MODE) values !! i = Some x ->
          exists y : Decimal,
            parts !! i = Some y
            /\ y == x + inject_Z (Z.of_nat
                                    (visits (length values) 0 (Z.abs_nat k) i))
                        * increment).
Proof.
  intros Hne Hd Hres Hk.
  unfold distributeRoundingAdjustment.
  rewrite (nonempty_length values Hne). cbv zeta.
  set (rounded := map (fun v => round v d DEFAULT_ROUNDING_MODE) values) in *.
  assert (Hlen : length rounded = length values) by apply length_map.
  assert (Hrne : rounded <> []).
  { intros E. rewrite E in Hlen. destruct values; [congruence | discriminate]. }
  unfold preciseSubtract at 1 2 3.
  destruct (residual_sign _ k d Hres) as [Hzero Hpos].
  rewrite Hzero, Hpos.
  destruct (Z.eqb_spec k 0) as [-> | Hk0].
  - exists (-1 * minorUnit d), rounded.
    split; [reflexivity |]. split; [reflexivity |]. split; [reflexivity |].
    split; [exact Hlen |].
    split; [change (inject_Z 0) with 0 in Hres; lra |].
    intros i x Hx. exists x. split; [exact Hx |].
    change (inject_Z (Z.of_nat (visits (length values) 0 (Z.abs_nat 0) i)))
      with 0. ring.
  - rewrite (String_repeat_nonneg "0" d Hd). cbn [mbind result_bind].
    destruct (increment_literal d (0 <? k)%Z Hd) as [inc [Hparse Hinc]].
    rewrite Hparse. cbn [mbind result_bind mret result_ret].
    pose proof (minorUnit_pos d) as Hmu.
    assert (Hincnz : ~ inc == 0).
    { rewrite Hinc. destruct (0 <? k)%Z; lra. }
    assert (Hsteps : targetTotal - preciseSum rounded
                     == inject_Z (Z.of_nat (Z.abs_nat k)) * inc).
    { rewrite Hres, Hinc, Zabs2Nat.id_abs.
      destruct (Z.ltb_spec 0 k) as [Hp | Hn].
      - rewrite Z.abs_eq by lia. ring.
      - rewrite Z.abs_neq by lia. rewrite inject_Z_opp. ring. }
    rewrite (redistribute_steps inc Hincnz (Z.abs_nat k) _ 0 rounded _ Hsteps)
      by (rewrite Hlen; lia).
    destruct (addRoundRobin_from inc (Z.abs_nat k) 0 rounded Hrne) as [H1 H2].
    exists inc, (addRoundRobin inc (Z.abs_nat k) rounded).
    split; [reflexivity |]. split; [exact Hinc |]. split; [reflexivity |].
    split; [unfold addRoundRobin; rewrite H1; exact Hlen |].
    split; [unfold addRoundRobin; rewrite H2, <- Hsteps; ring |].
    intros i x Hx. rewrite <- Hlen.
    apply (roundRobin_lookup inc (Z.abs_nat k) 0 rounded i x Hx).
Qed.

Lemma redistribution_conserves_total_witness :
  [33.33; 33.33; 33.33] <> []
  /\ (1 <= 2)%nat
  /\ 100 - preciseSum (map (fun v => round v 2 DEFAULT_ROUNDING_MODE)
                           [33.33; 33.33; 33.33])
     == inject_Z 1 * minorUnit 2
  /\ (Z.abs 1 <= 10 * Z.of_nat (length [33.33; 33.33; 33.33]%Q))%Z
  /\ exists (increment : Decimal) (parts : list Decimal),
       distributeRoundingAdjustment [33.33; 33.33; 33.33] 100 2 = Ok parts
       /\ increment == (if (0 <? 1)%Z then 1 else -1) * minorUnit 2
       /\ parts
          = addRoundRobin increment (Z.abs_nat 1)
              (map (fun v => round v 2 DEFAULT_ROUNDING_MODE)
                   [33.33; 33.33; 33.33])
       /\ length parts = length [33.33; 33.33; 33.33]
       /\ preciseSum parts == 100
       /\ (forall (i : nat) (x : Decimal),
             map (fun v => round v 2 DEFAULT_ROUNDING_MODE)
                 [33.33; 33.33; 33.33] !! i = Some x ->
             exists y : Decimal,
               parts !! i = Some y
               /\ y == x + inject_Z
                             (Z.of_nat
                                (visits (length [33.33; 33.33; 33.33]%Q) 0
                                   (Z.abs_nat 1) i))
                           * increment).
Proof.
  assert (H1 : [33.33; 33.33; 33.33] <> []) by discriminate.
  assert (H2 : (1 <= 2)%nat) by lia.
  assert (H3 : 100 - preciseSum (map (fun v => round v 2 DEFAULT_ROUNDING_MODE)
                                     [33.33; 33.33; 33.33])
               == inject_Z 1 * minorUnit 2) by (vm_compute; reflexivity).
  assert (H4 : (Z.abs 1 <= 10 * Z.of_nat (length [33.33; 33.33; 33.33]%Q))%Z)
    by (simpl; lia).
  split; [exact H1 |]. split; [exact H2 |]. split; [exact H3 |].
  split; [exact H4 |].
  apply (redistribution_conserves_total [33.33; 33.33; 33.33] 100 2 1 H1 H2 H3 H4).
Defined.

(** C10. [distributeRoundingAdjustment] is total only for
    decimalPlaces >= 1.  For every non-empty list of values whose rounded
    sum differs from targetTotal, the call with decimalPlaces = 0 throws the
    RangeError of a digit repetition of negative length and returns
    nothing, whereas with decimalPlaces >= 1 it returns a list. *)
Theorem redistribution_defined_from_scale_one
    (values : list Decimal) (targetTotal : Decimal) (d : nat) :
  values <> [] ->
  ~ preciseSum (map (fun v => round v d DEFAULT_ROUNDING_MODE) values)
    == targetTotal ->
  match d with
  | O => distributeRoundingAdjustment values targetTotal d = Throw RangeError
  | S _ => returns (distributeRoundingAdjustment values targetTotal d) = true
  end.
Proof.
  intros Hne Hsum.
  unfold distributeRoundingAdjustment.
  rewrite (nonempty_length values Hne). cbv zeta.
  assert (Hnz : preciseIsZero
                  (preciseSubtract targetTotal
                     (preciseSum
                        (map (fun v => round v d DEFAULT_ROUNDING_MODE) values)))
                = false).
  { apply preciseIsZero_false. unfold preciseSubtract. intros E. apply Hsum. lra. }
  rewrite Hnz. destruct d as [| d'].
  - rewrite String_repeat_negative. reflexivity.
  - rewrite (String_repeat_nonneg "0" (S d')) by lia. cbn [mbind result_bind].
    match goal with
    | |- context [parseDecimal (if ?b then _ else _)] =>
        destruct (increment_literal (S d') b) as [inc [Hparse _]]; [lia |];
        rewrite Hparse
    end.
    reflexivity.
Qed.

Lemma redistribution_defined_from_scale_one_witness :
  [33.33; 33.33; 33.33] <> []
  /\ ~ preciseSum (map (fun v => round v 0 DEFAULT_ROUNDING_MODE)
                       [33.33; 33.33; 33.33]) == 100
  /\ distributeRoundingAdjustment [33.33; 33.33; 33.33] 100 0
     = Throw RangeError.
Proof.
  assert (H1 : [33.33; 33.33; 33.33] <> []) by discriminate.
  assert (H2 : ~ preciseSum (map (fun v => round v 0 DEFAULT_ROUNDING_MODE)
                                 [33.33; 33.33; 33.33]) == 100)
    by (vm_compute; discriminate).
  split; [exact H1 |]. split; [exact H2 |].
  apply (redistribution_defined_from_scale_one [33.33; 33.33; 33.33] 100 0 H1 H2).
Defined.

(** * Properties of the rest of the module *)

(** ** Rounding and its audit record *)

(** X1. Rounding is idempotent: a value already rounded to [d] decimal
    places is left unchanged by rounding it again to [d] or more places,
    whatever the two rounding modes. *)
Theorem round_idempotent (v : Decimal) (d d' : nat) (m m' : RoundingMode) :
  (d <= d')%nat ->
  round (round v d m) d' m' == round v d m.
Proof.
  intros H. apply round_id. apply (atScale_le d d' _ H). apply round_atScale.
Qed.

Lemma round_idempotent_witness :
  (2 <= 3)%nat
  /\ round (round 123.4567 2 ROUND_HALF_EVEN) 3 ROUND_UP
     == round 123.4567 2 ROUND_HALF_EVEN.
Proof.
  assert (H : (2 <= 3)%nat) by lia.
  split; [exact H |].
  apply (round_idempotent 123.4567 2 3 ROUND_HALF_EVEN ROUND_UP H).
Defined.

Lemma round_fixes_iff (v : Decimal) (d : nat) (m : RoundingMode) :
  round v d m == v <-> atScale d v.
Proof.
  split.
  - intros E. apply (atScale_proper d (round v d m) v E). apply round_atScale.
  - apply round_id.
Qed.

(** X2. The audit record of [roundWithAdjustment] reconciles: rounded ==
    original + adjustment, the rounded value is a whole number of minor
    units, the adjustment is smaller than one minor unit in magnitude, and
    hasAdjustment is false exactly when the original already was a whole
    number of minor units.  [roundForCurrencyWithAdjustment] gives the same
    record at the decimal places of the currency. *)
Theorem roundWithAdjustment_reconciles
    (value : Decimal) (d : nat) (mode : RoundingMode) (c : string) :
  let a := roundWithAdjustment value d mode in
  (ra_rounded a == ra_original a + ra_adjustment a
   /\ ra_original a = value
   /\ atScale d (ra_rounded a)
   /\ - minorUnit d < ra_adjustment a < minorUnit d
   /\ (ra_hasAdjustment a = false <-> atScale d value))
  /\ roundForCurrencyWithAdjustment value c mode
     = roundWithAdjustment value (getCurrencyDecimalPlaces c) mode.
Proof.
  intros a. split; [| reflexivity].
  unfold a, roundWithAdjustment. cbn [ra_rounded ra_original ra_adjustment
                                      ra_hasAdjustment].
  unfold preciseSubtract.
  split; [ring |]. split; [reflexivity |]. split; [apply round_atScale |].
  split; [apply round_error |].
  rewrite negb_false_iff, preciseIsZero_true.
  rewrite <- (round_fixes_iff value d mode).
  split; intros H; lra.
Qed.

(** X3. The direction of the rounding modes, as [round] maps them:
    ROUND_CEIL never lowers and ROUND_FLOOR never raises the value, the five
    ROUND_HALF modes (the default among them) stay within half a minor unit,
    and no mode turns a non-negative value negative. *)
Theorem round_direction (v : Decimal) (d : nat) (mode : RoundingMode) :
  v <= round v d ROUND_CEIL
  /\ round v d ROUND_FLOOR <= v
  /\ - (minorUnit d * (1#2)) <= round v d DEFAULT_ROUNDING_MODE - v
     <= minorUnit d * (1#2)
  /\ (match mode with
      | ROUND_HALF_UP | ROUND_HALF_DOWN | ROUND_HALF_EVEN
      | ROUND_HALF_CEIL | ROUND_HALF_FLOOR =>
          - (minorUnit d * (1#2)) <= round v d mode - v <= minorUnit d * (1#2)
      | _ => - minorUnit d < round v d mode - v < minorUnit d
      end)
  /\ (0 <= v -> 0 <= round v d mode).
Proof.
  split; [| split; [| split; [| split]]].
  - destruct (preciseRound_error CEIL v d) as (_ & _ & H & _).
    specialize (H eq_refl). unfold round. cbn [mapRoundingMode]. lra.
  - destruct (preciseRound_error FLOOR v d) as (_ & H & _).
    specialize (H eq_refl). unfold round. cbn [mapRoundingMode]. lra.
  - destruct (preciseRound_error HALF_EVEN v d) as (_ & _ & _ & H & _).
    apply H. tauto.
  - destruct (preciseRound_error (mapRoundingMode mode) v d)
      as (Hb & _ & _ & H & _).
    destruct mode; cbn [mapRoundingMode] in *; try exact Hb; apply H; tauto.
  - apply round_nonneg.
Qed.

(** ** Money objects *)

(** X4. [addMoney] and [subtractMoney] reject exactly the pairs of
    different currencies; on a common currency the sum keeps it, and
    subtracting the second operand again gives back the amount of the
    first. *)
Theorem addMoney_subtractMoney (a b : Money) :
  match addMoney a b with
  | Accepted s =>
      currency a = currency b
      /\ amount s == amount a + amount b
      /\ currency s = currency a
      /\ exists t : Money,
           subtractMoney s b = Accepted t
           /\ amount t == amount a
           /\ currency t = currency a
  | Rejected _ =>
      currency a <> currency b
      /\ exists message : string, subtractMoney a b = Rejected message
  end.
Proof.
  unfold addMoney, subtractMoney.
  destruct (String.eqb_spec (currency a) (currency b)) as [E | E]; cbn.
  - split; [exact E |]. split; [reflexivity |]. split; [reflexivity |].
    rewrite E, String.eqb_refl. cbn.
    eexists. split; [reflexivity |]. cbn.
    split; [unfold preciseSubtract, preciseAdd; ring | reflexivity].
  - split; [exact E |]. eexists. reflexivity.
Qed.

Lemma truncateTo_id (p : nat) (x : Decimal) : atScale p x -> truncateTo p x == x.
Proof. apply preciseRound_id. Qed.

#[global] Instance truncateTo_proper : Proper (eq ==> Qeq ==> Qeq) truncateTo.
Proof.
  unfold Proper, respectful. intros p p' Hp x y E. subst p'.
  unfold truncateTo. rewrite E. reflexivity.
Qed.

(** X5. Dividing a multiplied Money by the same non-zero factor gives the
    Money back, provided its amount has no more fractional digits than the
    quotient keeps (20). *)
Theorem multiplyMoney_divideMoney (m : Money) (factor : Decimal) :
  ~ factor == 0 ->
  atScale DEFAULT_PRECISION (amount m) ->
  exists q : Money,
    divideMoney (multiplyMoney m factor) factor = Ok q
    /\ amount q == amount m
    /\ currency q = currency m.
Proof.
  intros Hf Hs. unfold divideMoney, multiplyMoney. cbn [amount currency].
  rewrite preciseDivide_nonzero by exact Hf.
  eexists. split; [reflexivity |]. cbn [amount currency].
  split; [| reflexivity].
  assert (E : preciseMultiply (amount m) factor / factor == amount m)
    by (unfold preciseMultiply; field; exact Hf).
  rewrite E. apply truncateTo_id. exact Hs.
Qed.

Lemma multiplyMoney_divideMoney_witness :
  ~ 3 == 0
  /\ atScale DEFAULT_PRECISION (amount (createMoney 12.5 "INR"))
  /\ exists q : Money,
       divideMoney (multiplyMoney (createMoney 12.5 "INR") 3) 3 = Ok q
       /\ amount q == amount (createMoney 12.5 "INR")
       /\ currency q = currency (createMoney 12.5 "INR").
Proof.
  assert (H1 : ~ 3 == 0) by discriminate.
  assert (H2 : atScale DEFAULT_PRECISION (amount (createMoney 12.5 "INR"))).
  { exists 1250000000000000000000%Z. vm_compute. reflexivity. }
  split; [exact H1 |]. split; [exact H2 |].
  apply (multiplyMoney_divideMoney (createMoney 12.5 "INR") 3 H1 H2).
Defined.

(** ** Smallest currency units *)

Lemma mathPow_10 (d : nat) : mathPow 10 d = inject_Z (pow10 d).
Proof. reflexivity. Qed.

Lemma pow10_nonzero (d : nat) : ~ inject_Z (pow10 d) == 0.
Proof. apply inject_Z_nonzero. pose proof (pow10_pos d). lia. Qed.

Lemma atScale_0_whole (k : Z) : atScale 0 (inject_Z k).
Proof.
  exists k. assert (H : minorUnit 0 == 1) by reflexivity.
  rewrite H. ring.
Qed.

(** X6. Conversion to the smallest unit and back is a round trip: for an
    amount that is a whole number of units at [d] decimal places (d <= 20),
    [toSmallestUnit] is the amount times 10^d, a whole number, and
    [fromSmallestUnit] returns the amount again without throwing. *)
Theorem smallest_unit_roundtrip (value : Decimal) (d : nat) :
  (d <= DEFAULT_PRECISION)%nat ->
  atScale d value ->
  toSmallestUnit value d == value * inject_Z (pow10 d)
  /\ atScale 0 (toSmallestUnit value d)
  /\ exists back : Decimal,
       fromSmallestUnit (toSmallestUnit value d) d = Ok back
       /\ back == value.
Proof.
  intros Hd Hs.
  assert (Hwhole : atScale 0 (value * inject_Z (pow10 d))).
  { destruct Hs as [k Hk].
    apply (atScale_proper 0 (inject_Z k)); [| apply atScale_0_whole].
    rewrite Hk, <- Qmult_assoc, (Qmult_comm (minorUnit d)), scale_minorUnit.
    ring. }
  assert (Hto : toSmallestUnit value d == value * inject_Z (pow10 d)).
  { unfold toSmallestUnit. cbv zeta. rewrite mathPow_10.
    unfold preciseMultiply. apply preciseRound_id. exact Hwhole. }
  split; [exact Hto |].
  split; [unfold toSmallestUnit; apply preciseRound_atScale |].
  unfold fromSmallestUnit. cbv zeta. rewrite mathPow_10.
  rewrite preciseDivide_nonzero by apply pow10_nonzero.
  eexists. split; [reflexivity |].
  assert (E : toSmallestUnit value d / inject_Z (pow10 d) == value).
  { rewrite Hto. field. apply pow10_nonzero. }
  rewrite E. apply truncateTo_id. apply (atScale_le d _ _ Hd Hs).
Qed.

Lemma smallest_unit_roundtrip_witness :
  (2 <= DEFAULT_PRECISION)%nat
  /\ atScale 2 123.45
  /\ toSmallestUnit 123.45 2 == 123.45 * inject_Z (pow10 2)
  /\ atScale 0 (toSmallestUnit 123.45 2)
  /\ exists back : Decimal,
       fromSmallestUnit (toSmallestUnit 123.45 2) 2 = Ok back
       /\ back == 123.45.
Proof.
  assert (H1 : (2 <= DEFAULT_PRECISION)%nat) by (vm_compute; lia).
  assert (H2 : atScale 2 123.45) by (exists 12345%Z; vm_compute; reflexivity).
  split; [exact H1 |]. split; [exact H2 |].
  apply (smallest_unit_roundtrip 123.45 2 H1 H2).
Defined.

(** ** More on residual redistribution *)

(** X7. [distributeRoundingAdjustment] returns the rounded values
    themselves, and never throws, when there is nothing to distribute: for
    an empty list, and whenever the rounded values already sum to the
    target; this holds at every scale, zero decimal places included. *)
Theorem distribute_nothing_to_do
    (values : list Decimal) (targetTotal : Decimal) (d : nat) :
  values = []
  \/ preciseSum (map (fun v => round v d DEFAULT_ROUNDING_MODE) values)
     == targetTotal ->
  distributeRoundingAdjustment values targetTotal d
  = Ok (map (fun v => round v d DEFAULT_ROUNDING_MODE) values).
Proof.
  intros [-> | H]; [reflexivity |].
  unfold distributeRoundingAdjustment.
  destruct values as [| v values]; [reflexivity |].
  cbn [length Nat.eqb]. cbv zeta.
  assert (Hz : preciseIsZero
                 (preciseSubtract targetTotal
                    (preciseSum
                       (map (fun v => round v d DEFAULT_ROUNDING_MODE)
                            (v :: values)))) = true).
  { apply preciseIsZero_true. unfold preciseSubtract. lra. }
  rewrite Hz. reflexivity.
Qed.

Lemma distribute_nothing_to_do_witness :
  ([10.4; 20.6] = []
   \/ preciseSum (map (fun v => round v 0 DEFAULT_ROUNDING_MODE) [10.4; 20.6])
      == 31)
  /\ distributeRoundingAdjustment [10.4; 20.6] 31 0
     = Ok (map (fun v => round v 0 DEFAULT_ROUNDING_MODE) [10.4; 20.6]).
Proof.
  assert (H : [10.4; 20.6] = []
              \/ preciseSum (map (fun v => round v 0 DEFAULT_ROUNDING_MODE)
                                 [10.4; 20.6]) == 31).
  { right. vm_compute. reflexivity. }
  split; [exact H | apply (distribute_nothing_to_do [10.4; 20.6] 31 0 H)].
Defined.

(** The loop runs to the safety limit when the difference does not reach
    zero before. *)
Lemma redistribute_exhausts (inc : Decimal) :
  forall (left index : nat) (res : list Decimal) (diff : Decimal),
    (forall j : nat, (j < left)%nat ->
       ~ diff - inject_Z (Z.of_nat j) * inc == 0) ->
    redistribute left index inc res diff
    = foldl (fun acc j => add_at (j mod length acc) inc acc) res
            (seq index left).
Proof.
  induction left as [| left IH]; intros index res diff H; [reflexivity |].
  assert (Hnz : preciseIsZero diff = false).
  { apply preciseIsZero_false. intros E. apply (H 0%nat); [lia |].
    change (inject_Z (Z.of_nat 0)) with 0. lra. }
  cbn [redistribute seq foldl]. rewrite Hnz. apply IH.
  intros j Hj E. apply (H (S j)); [lia |].
  rewrite Nat2Z.inj_succ, <- Z.add_1_r, inject_Z_plus.
  change (inject_Z 1) with 1. unfold preciseSubtract in E.
  rewrite <- E. ring.
Qed.

(** With a residual to distribute at a scale of at least one, the function
    returns the list the loop leaves. *)
Lemma distribute_runs_loop
    (values : list Decimal) (targetTotal : Decimal) (d : nat) (k : Z) :
  values <> [] ->
  (1 <= d)%nat ->
  (k <> 0)%Z ->
  targetTotal
  - preciseSum (map (fun v => round v d DEFAULT_ROUNDING_MODE) values)
  == inject_Z k * minorUnit d ->
  exists increment : Decimal,
    increment == (if (0 <? k)%Z then 1 else -1) * minorUnit d
    /\ distributeRoundingAdjustment values targetTotal d
       = Ok (redistribute (length values * 10) 0 increment
               (map (fun v => round v d DEFAULT_ROUNDING_MODE) values)
               (targetTotal
                - preciseSum
                    (map (fun v => round v d DEFAULT_ROUNDING_MODE) values))).
Proof.
  intros Hne Hd Hk Hres.
  unfold distributeRoundingAdjustment.
  rewrite (nonempty_length values Hne). cbv zeta.
  unfold preciseSubtract.
  destruct (residual_sign _ k d Hres) as [Hzero Hpos].
  rewrite Hzero, Hpos.
  destruct (Z.eqb_spec k 0) as [E | _]; [contradiction |].
  rewrite (String_repeat_nonneg "0" d Hd). cbn [mbind result_bind].
  destruct (increment_literal d (0 <? k)%Z Hd) as [inc [Hparse Hinc]].
  rewrite Hparse. cbn [mbind result_bind mret result_ret].
  exists inc. split; [exact Hinc |].
  rewrite length_map. reflexivity.
Qed.

(** X8. The safety limit of the redistribution loop: when the residual is
    more than 10·n minor units (n values, scale at least one), the loop
    stops after exactly 10·n round-robin increments and the returned list
    does not sum to the target: it falls short by the remaining
    |k| − 10·n increments. *)
Theorem distribute_safety_limit
    (values : list Decimal) (targetTotal : Decimal) (d : nat) (k : Z) :
  values <> [] ->
  (1 <= d)%nat ->
  targetTotal
  - preciseSum (map (fun v => round v d DEFAULT_ROUNDING_MODE) values)
  == inject_Z k * minorUnit d ->
  (10 * Z.of_nat (length values) < Z.abs k)%Z ->
  exists (increment : Decimal) (parts : list Decimal),
    distributeRoundingAdjustment values targetTotal d = Ok parts
    /\ increment == (if (0 <? k)%Z then 1 else -1) * minorUnit d
    /\ parts
       = addRoundRobin increment (length values * 10)
           (map (fun v => round v d DEFAULT_ROUNDING_MODE) values)
    /\ length parts = length values
    /\ preciseSum parts
       == targetTotal
          - inject_Z (Z.abs k - 10 * Z.of_nat (length values)) * increment
    /\ ~ preciseSum parts == targetTotal.
Proof.
  intros Hne Hd Hres Hk.
  assert (Hk0 : (k <> 0)%Z) by lia.
  destruct (distribute_runs_loop values targetTotal d k Hne Hd Hk0 Hres)
    as [inc [Hinc Hrun]].
  set (rounded := map (fun v => round v d DEFAULT_ROUNDING_MODE) values) in *.
  assert (Hlen : length rounded = length values) by apply length_map.
  assert (Hrne : rounded <> []).
  { intros E. rewrite E in Hlen. destruct values; [congruence | discriminate]. }
  pose proof (minorUnit_pos d) as Hmu.
  assert (Hincnz : ~ inc == 0).
  { rewrite Hinc. destruct (0 <? k)%Z; lra. }
  assert (Hsteps : targetTotal - preciseSum rounded
                   == inject_Z (Z.abs k) * inc).
  { rewrite Hres, Hinc.
    destruct (Z.ltb_spec 0 k) as [Hp | Hn].
    - rewrite Z.abs_eq by lia. ring.
    - rewrite Z.abs_neq by lia. rewrite inject_Z_opp. ring. }
  rewrite (redistribute_exhausts inc (length values * 10) 0 rounded) in Hrun.
  - destruct (addRoundRobin_from inc (length values * 10) 0 rounded Hrne)
      as [H1 H2].
    exists inc, (addRoundRobin inc (length values * 10) rounded).
    split; [exact Hrun |]. split; [exact Hinc |]. split; [reflexivity |].
    split; [unfold addRoundRobin; rewrite H1; exact Hlen |].
    assert (Hsum : preciseSum (addRoundRobin inc (length values * 10) rounded)
                   == targetTotal
                      - inject_Z (Z.abs k - 10 * Z.of_nat (length values)) * inc).
    { unfold addRoundRobin. rewrite H2.
      replace (Z.of_nat (length values * 10))
        with (10 * Z.of_nat (length values))%Z by lia.
      unfold Z.sub. rewrite inject_Z_plus, inject_Z_opp. lra. }
    split; [exact Hsum |].
    rewrite Hsum. intros E.
    assert (Hq : inject_Z (Z.abs k - 10 * Z.of_nat (length values)) * inc == 0)
      by lra.
    apply Qmult_integral in Hq. destruct Hq as [Hq | Hq]; [| contradiction].
    unfold Qeq in Hq. simpl in Hq. lia.
  - intros j Hj E.
    assert (Hq : inject_Z (Z.abs k - Z.of_nat j) * inc == 0).
    { unfold Z.sub. rewrite inject_Z_plus, inject_Z_opp. lra. }
    apply Qmult_integral in Hq. destruct Hq as [Hq | Hq]; [| contradiction].
    unfold Qeq in Hq. simpl in Hq. lia.
Qed.

Lemma distribute_safety_limit_witness :
  [1.00] <> []
  /\ (1 <= 2)%nat
  /\ 1.11 - preciseSum (map (fun v => round v 2 DEFAULT_ROUNDING_MODE) [1.00])
     == inject_Z 11 * minorUnit 2
  /\ (10 * Z.of_nat (length [1.00]%Q) < Z.abs 11)%Z
  /\ exists (increment : Decimal) (parts : list Decimal),
       distributeRoundingAdjustment [1.00] 1.11 2 = Ok parts
       /\ increment == (if (0 <? 11)%Z then 1 else -1) * minorUnit 2
       /\ parts
          = addRoundRobin increment (length [1.00]%Q * 10)
              (map (fun v => round v 2 DEFAULT_ROUNDING_MODE) [1.00])
       /\ length parts = length [1.00]%Q
       /\ preciseSum parts
          == 1.11 - inject_Z (Z.abs 11 - 10 * Z.of_nat (length [1.00]%Q))
                    * increment
       /\ ~ preciseSum parts == 1.11.
Proof.
  assert (H1 : [1.00] <> []) by discriminate.
  assert (H2 : (1 <= 2)%nat) by lia.
  assert (H3 : 1.11 - preciseSum (map (fun v => round v 2 DEFAULT_ROUNDING_MODE)
                                      [1.00])
               == inject_Z 11 * minorUnit 2) by (vm_compute; reflexivity).
  assert (H4 : (10 * Z.of_nat (length [1.00]%Q) < Z.abs 11)%Z) by (simpl; lia).
  split; [exact H1 |]. split; [exact H2 |]. split; [exact H3 |].
  split; [exact H4 |].
  apply (distribute_safety_limit [1.00] 1.11 2 11 H1 H2 H3 H4).
Defined.

(** ** Total adjustment *)

Lemma preciseSum_nil : preciseSum [] == 0.
Proof. reflexivity. Qed.

Lemma preciseSum_adjustments (values : list Decimal) (d : nat) (mode : RoundingMode) :
  let recs := map (fun v => roundWithAdjustment v d mode) values in
  preciseSum (map ra_adjustment recs)
  == preciseSum (map ra_rounded recs) - preciseSum values.
Proof.
  cbv zeta. induction values as [| v values IH].
  - cbn [map]. rewrite !preciseSum_nil. ring.
  - cbn [map]. rewrite !preciseSum_cons, IH.
    cbn [ra_adjustment ra_rounded roundWithAdjustment].
    unfold preciseSubtract. ring.
Qed.

(** X9. [calculateTotalAdjustment] reconciles the two ways of rounding a
    list: there is one audit record per value, the rounded total is the
    original total plus totalAdjustment, and totalAdjustment is the sum of
    the per-item adjustments plus adjustmentFromRoundingSum, which is a
    whole number of minor units; totalAdjustment itself is smaller than one
    minor unit. *)
Theorem total_adjustment_reconciles
    (values : list Decimal) (d : nat) (mode : RoundingMode) :
  let t := calculateTotalAdjustment values d mode in
  length (perItemAdjustments t) = length values
  /\ originalTotal t = preciseSum values
  /\ roundedTotal t == originalTotal t + ta_totalAdjustment t
  /\ ta_totalAdjustment t
     == preciseSum (map ra_adjustment (perItemAdjustments t))
        + adjustmentFromRoundingSum t
  /\ atScale d (adjustmentFromRoundingSum t)
  /\ - minorUnit d < ta_totalAdjustment t < minorUnit d.
Proof.
  intros t. unfold t, calculateTotalAdjustment.
  cbn [perItemAdjustments originalTotal roundedTotal ta_totalAdjustment
       adjustmentFromRoundingSum].
  split; [apply length_map |]. split; [reflexivity |].
  unfold preciseSubtract.
  split; [ring |].
  split; [rewrite (preciseSum_adjustments values d mode); ring |].
  split; [| apply round_error].
  apply atScale_minus; [apply round_atScale |].
  apply atScale_preciseSum.
  induction values as [| v values IH]; cbn [map]; constructor; [| exact IH].
  apply round_atScale.
Qed.

(** ** Tax helpers *)

(** X10. [calculateTax] returns the tax rounded to the currency scale, and
    for a base amount that is a whole number of minor units the total with
    tax is exactly base + tax; a non-negative base and rate give a
    non-negative tax. *)
Theorem calculateTax_total (baseAmount taxRate : Decimal) (c : string) :
  atScale (getCurrencyDecimalPlaces c) baseAmount ->
  let t := calculateTax baseAmount taxRate c in
  atScale (getCurrencyDecimalPlaces c) (tr_taxAmount t)
  /\ totalWithTax t == baseAmount + tr_taxAmount t
  /\ (0 <= baseAmount -> 0 <= taxRate -> 0 <= tr_taxAmount t).
Proof.
  intros Hs t. unfold t, calculateTax. cbn [tr_taxAmount totalWithTax].
  split; [apply roundForCurrency_atScale |].
  split.
  - apply roundForCurrency_id. unfold preciseAdd.
    apply atScale_plus; [exact Hs | apply roundForCurrency_atScale].
  - intros Hb Hr. apply round_nonneg. unfold precisePercentage.
    apply Qle_shift_div_l; [reflexivity |]. nra.
Qed.

Lemma calculateTax_total_witness :
  atScale (getCurrencyDecimalPlaces "INR") 999.99
  /\ (let t := calculateTax 999.99 18 "INR" in
      atScale (getCurrencyDecimalPlaces "INR") (tr_taxAmount t)
      /\ totalWithTax t == 999.99 + tr_taxAmount t
      /\ (0 <= 999.99 -> 0 <= 18 -> 0 <= tr_taxAmount t)).
Proof.
  assert (H : atScale (getCurrencyDecimalPlaces "INR") 999.99)
    by (exists 99999%Z; vm_compute; reflexivity).
  split; [exact H | apply (calculateTax_total 999.99 18 "INR" H)].
Defined.

Lemma minorUnit_S (d : nat) : minorUnit d == 10 * minorUnit (S d).
Proof.
  pose proof (scale_minorUnit d) as H1. pose proof (scale_minorUnit (S d)) as H2.
  assert (E : pow10 (S d) = (10 * pow10 d)%Z).
  { unfold pow10. rewrite Nat2Z.inj_succ, Z.pow_succ_r by lia. reflexivity. }
  rewrite E, inject_Z_mult in H2. change (inject_Z 10) with 10 in H2.
  transitivity (minorUnit d * (10 * inject_Z (pow10 d) * minorUnit (S d))).
  - rewrite H2. ring.
  - transitivity (10 * minorUnit (S d) * (inject_Z (pow10 d) * minorUnit d)).
    + ring.
    + rewrite H1. ring.
Qed.

Lemma half_atScale (d : nat) (x : Decimal) : atScale d x -> atScale (S d) (x / 2).
Proof.
  intros [k Hk]. exists (5 * k)%Z.
  rewrite Hk, (minorUnit_S d), inject_Z_mult. change (inject_Z 5) with 5.
  field.
Qed.

(** A whole number of minor units smaller than two units in magnitude is
    at most one unit. *)
Lemma atScale_within_unit (d : nat) (x : Decimal) :
  atScale d x ->
  - (2 * minorUnit d) < x < 2 * minorUnit d ->
  - minorUnit d <= x <= minorUnit d.
Proof.
  intros [k Hk] [Hlo Hhi]. pose proof (minorUnit_pos d) as Hmu.
  assert (Hk1 : (-1 <= k <= 1)%Z).
  { assert (H1 : inject_Z k < 2) by nra.
    assert (H2 : -2 < inject_Z k) by nra.
    change 2 with (inject_Z 2) in H1. change (-2) with (inject_Z (-2)) in H2.
    rewrite <- Zlt_Qlt in H1, H2. lia. }
  assert (H3 : inject_Z (-1) <= inject_Z k <= inject_Z 1)
    by (rewrite <- !Zle_Qle; lia).
  change (inject_Z (-1)) with (-1) in H3. change (inject_Z 1) with 1 in H3.
  rewrite Hk. split; nra.
Qed.

(** X11. [calculateGST] never throws; CGST and SGST are the same amount,
    the GST amount is their exact sum and a whole number of minor units, and
    for a rate of at most 19 fractional digits it differs from the tax that
    [calculateTax] computes at the full rate by at most one minor unit. *)
Theorem calculateGST_halves (baseAmount gstRate : Decimal) (c : string) :
  atScale 19 gstRate ->
  match calculateGST baseAmount gstRate c with
  | Ok g =>
      gst_cgst g = gst_sgst g
      /\ gstAmount g == gst_cgst g + gst_sgst g
      /\ atScale (getCurrencyDecimalPlaces c) (gstAmount g)
      /\ - minorUnit (getCurrencyDecimalPlaces c)
         <= gstAmount g - tr_taxAmount (calculateTax baseAmount gstRate c)
         <= minorUnit (getCurrencyDecimalPlaces c)
  | Throw _ => False
  end.
Proof.
  intros Hrate. unfold calculateGST.
  rewrite preciseDivide_nonzero by (intros E; discriminate E).
  cbn [mbind result_bind mret result_ret gst_cgst gst_sgst gstAmount].
  set (d := getCurrencyDecimalPlaces c).
  set (half := truncateTo DEFAULT_PRECISION (gstRate / 2)).
  assert (Hhalf : half == gstRate / 2).
  { apply truncateTo_id. apply (half_atScale 19 gstRate Hrate). }
  set (a := roundForCurrency (precisePercentage baseAmount half) c
              DEFAULT_ROUNDING_MODE).
  assert (Ha : atScale d a) by apply roundForCurrency_atScale.
  split; [reflexivity |]. split; [reflexivity |].
  split; [apply atScale_plus; exact Ha |].
  unfold calculateTax. cbn [tr_taxAmount].
  set (x := precisePercentage baseAmount gstRate).
  set (b := roundForCurrency x c DEFAULT_ROUNDING_MODE).
  assert (Hb : atScale d b) by apply roundForCurrency_atScale.
  assert (Hx : precisePercentage baseAmount half == x * (1#2)).
  { unfold x, precisePercentage. rewrite Hhalf. field. }
  destruct (preciseRound_error HALF_EVEN (precisePercentage baseAmount half) d)
    as (_ & _ & _ & Hea & _).
  destruct (preciseRound_error HALF_EVEN x d) as (_ & _ & _ & Heb & _).
  assert (Hmodes : HALF_EVEN = HALF_UP \/ HALF_EVEN = HALF_DOWN
                   \/ HALF_EVEN = HALF_EVEN \/ HALF_EVEN = HALF_CEIL
                   \/ HALF_EVEN = HALF_FLOOR) by tauto.
  specialize (Hea Hmodes). specialize (Heb Hmodes).
  change (preciseRound (precisePercentage baseAmount half) d HALF_EVEN)
    with a in Hea.
  change (preciseRound x d HALF_EVEN) with b in Heb.
  pose proof (minorUnit_pos d) as Hmu.
  unfold preciseAdd.
  apply atScale_within_unit.
  - apply atScale_minus; [apply atScale_plus; exact Ha | exact Hb].
  - rewrite Hx in Hea. clear Ha Hb Hx Hhalf. clearbody a b x half d.
    split; lra.
Qed.

Lemma calculateGST_halves_witness :
  atScale 19 18
  /\ match calculateGST 1000.55 18 "INR" with
     | Ok g =>
         gst_cgst g = gst_sgst g
         /\ gstAmount g == gst_cgst g + gst_sgst g
         /\ atScale (getCurrencyDecimalPlaces "INR") (gstAmount g)
         /\ - minorUnit (getCurrencyDecimalPlaces "INR")
            <= gstAmount g - tr_taxAmount (calculateTax 1000.55 18 "INR")
            <= minorUnit (getCurrencyDecimalPlaces "INR")
     | Throw _ => False
     end.
Proof.
  assert (H : atScale 19 18)
    by (exists 180000000000000000000%Z; vm_compute; reflexivity).
  split; [exact H | apply (calculateGST_halves 1000.55 18 "INR" H)].
Defined.

(** X12. [calculateBaseFromTaxInclusive] throws the engine's
    DivisionByZero exactly when the divisor 1 + taxRate/100 is zero;
    otherwise the base amount is a whole number of minor units and, for a
    total that is one too, base + tax is exactly the total. *)
Theorem base_from_tax_inclusive (totalAmount taxRate : Decimal) (c : string) :
  let divisor := 1 + truncateTo DEFAULT_PRECISION (taxRate / 100) in
  match calculateBaseFromTaxInclusive totalAmount taxRate c with
  | Ok r =>
      ~ divisor == 0
      /\ ti_baseAmount r
         = roundForCurrency (truncateTo DEFAULT_PRECISION (totalAmount / divisor))
             c DEFAULT_ROUNDING_MODE
      /\ atScale (getCurrencyDecimalPlaces c) (ti_baseAmount r)
      /\ atScale (getCurrencyDecimalPlaces c) (ti_taxAmount r)
      /\ (atScale (getCurrencyDecimalPlaces c) totalAmount ->
          ti_baseAmount r + ti_taxAmount r == totalAmount)
  | Throw e => e = DivisionByZero /\ divisor == 0
  end.
Proof.
  intros divisor. unfold calculateBaseFromTaxInclusive.
  rewrite (preciseDivide_nonzero taxRate 100) by (intros E; discriminate E).
  cbn [mbind result_bind]. unfold preciseAdd. fold divisor.
  destruct (Qeq_dec divisor 0) as [Hz | Hnz].
  - rewrite preciseDivide_zero by exact Hz. split; [reflexivity | exact Hz].
  - rewrite preciseDivide_nonzero by exact Hnz.
    cbn [mbind result_bind mret result_ret ti_baseAmount ti_taxAmount].
    split; [exact Hnz |]. split; [reflexivity |].
    split; [apply roundForCurrency_atScale |].
    split; [apply roundForCurrency_atScale |].
    intros Hs. rewrite (roundForCurrency_id (preciseSubtract _ _)).
    + unfold preciseSubtract. ring.
    + apply atScale_minus; [exact Hs | apply roundForCurrency_atScale].
Qed.

(** X13. [calculateCommission] conserves the gross amount: the net
    commission is exactly commission + GST on commission − TDS, and for a
    gross amount that is a whole number of minor units the net commission
    and the net to the property add up to the gross amount exactly. *)
Theorem commission_conserves_gross
    (gross commissionRate tdsRate gstRate : Decimal) (c : string) :
  atScale (getCurrencyDecimalPlaces c) gross ->
  let r := calculateCommission gross commissionRate tdsRate gstRate c in
  netCommission r == commission r + gstOnCommission r - tds r
  /\ netToProperty r == gross - commission r - gstOnCommission r + tds r
  /\ netCommission r + netToProperty r == gross.
Proof.
  intros Hs r. unfold r, calculateCommission.
  cbn [netCommission netToProperty commission gstOnCommission tds].
  set (d := getCurrencyDecimalPlaces c) in *.
  set (cm := roundForCurrency (precisePercentage gross commissionRate) c
               DEFAULT_ROUNDING_MODE).
  set (g := roundForCurrency (precisePercentage cm gstRate) c
              DEFAULT_ROUNDING_MODE).
  set (t := roundForCurrency (precisePercentage cm tdsRate) c
              DEFAULT_ROUNDING_MODE).
  assert (Hcm : atScale d cm) by apply roundForCurrency_atScale.
  assert (Hg : atScale d g) by apply roundForCurrency_atScale.
  assert (Ht : atScale d t) by apply roundForCurrency_atScale.
  unfold preciseAdd, preciseSubtract.
  assert (H1 : roundForCurrency (cm + g - t) c DEFAULT_ROUNDING_MODE
               == cm + g - t).
  { apply roundForCurrency_id.
    apply atScale_minus; [apply atScale_plus |]; assumption. }
  assert (H2 : roundForCurrency (gross - (cm + g) + t) c DEFAULT_ROUNDING_MODE
               == gross - (cm + g) + t).
  { apply roundForCurrency_id.
    apply atScale_plus; [apply atScale_minus; [| apply atScale_plus] |];
      assumption. }
  rewrite H1, H2. split; [reflexivity |]. split; ring.
Qed.

Lemma commission_conserves_gross_witness :
  atScale (getCurrencyDecimalPlaces "INR") 12345.67
  /\ (let r := calculateCommission 12345.67 15 10 18 "INR" in
      netCommission r == commission r + gstOnCommission r - tds r
      /\ netToProperty r == 12345.67 - commission r - gstOnCommission r + tds r
      /\ netCommission r + netToProperty r == 12345.67).
Proof.
  assert (H : atScale (getCurrencyDecimalPlaces "INR") 12345.67)
    by (exists 1234567%Z; vm_compute; reflexivity).
  split; [exact H | apply (commission_conserves_gross 12345.67 15 10 18 "INR" H)].
Defined.

(** ** Round-off *)

Lemma minorUnit_0 : minorUnit 0 == 1.
Proof. reflexivity. Qed.

(** X14. [calculateRoundOff] returns a whole amount with
    rounded == amount + roundOff; 'UP' never lowers the amount
    (0 <= roundOff < 1), 'DOWN' never raises it (−1 < roundOff <= 0),
    'NEAREST' moves it by at most one half, and a whole amount has no
    round-off. *)
Theorem roundOff_bounds (value : Decimal) (roundTo : RoundTo) :
  let r := calculateRoundOff value roundTo in
  atScale 0 (roundedAmount r)
  /\ roundedAmount r == value + roundOffAmount r
  /\ match roundTo with
     | RoundUP => 0 <= roundOffAmount r < 1
     | RoundDOWN => -1 < roundOffAmount r <= 0
     | NEAREST => - (1#2) <= roundOffAmount r <= 1#2
     end
  /\ (atScale 0 value -> roundOffAmount r == 0).
Proof.
  intros r. unfold r, calculateRoundOff. cbn [roundedAmount roundOffAmount].
  pose proof minorUnit_0 as H1.
  split; [destruct roundTo; apply round_atScale |].
  unfold preciseSubtract. split; [ring |].
  split.
  - destruct roundTo; unfold round; cbn [mapRoundingMode].
    + destruct (preciseRound_error HALF_UP value 0) as (_ & _ & _ & H & _).
      assert (Hm : HALF_UP = HALF_UP \/ HALF_UP = HALF_DOWN
                   \/ HALF_UP = HALF_EVEN \/ HALF_UP = HALF_CEIL
                   \/ HALF_UP = HALF_FLOOR) by tauto.
      specialize (H Hm). rewrite H1 in H. lra.
    + destruct (preciseRound_error CEIL value 0) as (Hb & _ & H & _).
      specialize (H eq_refl). rewrite H1 in Hb. lra.
    + destruct (preciseRound_error FLOOR value 0) as (Hb & H & _).
      specialize (H eq_refl). rewrite H1 in Hb. lra.
  - intros Hs. destruct roundTo; rewrite (round_id value 0 _ Hs); ring.
Qed.

(** ** The currency registry *)

Lemma upper_ascii_idempotent (ch : ascii) :
  upper_ascii (upper_ascii ch) = upper_ascii ch.
Proof.
  destruct ch as [[] [] [] [] [] [] [] []]; reflexivity.
Qed.

Lemma toUpperCase_idempotent (s : string) :
  toUpperCase (toUpperCase s) = toUpperCase s.
Proof.
  induction s as [| ch s IH]; [reflexivity |].
  cbn [toUpperCase]. rewrite upper_ascii_idempotent, IH. reflexivity.
Qed.

Lemma registry_lookup (keys : list string) (g : string -> CurrencyConfig) :
  forall (m : gmap string CurrencyConfig) (k : string) (cfg : CurrencyConfig),
    foldl (fun acc key => <[ key := g key ]> acc) m keys !! k = Some cfg ->
    (k ∈ keys /\ cfg = g k) \/ m !! k = Some cfg.
Proof.
  induction keys as [| key keys IH]; intros m k cfg H; cbn [foldl] in H.
  - right. exact H.
  - destruct (IH _ _ _ H) as [[Hin Hcfg] | Hm].
    + left. split; [right; exact Hin | exact Hcfg].
    + apply lookup_insert_Some in Hm. destruct Hm as [[-> <-] | [_ Hm]].
      * left. split; [left | reflexivity].
      * right. exact Hm.
Qed.

Lemma registry_member (keys : list string) (g : string -> CurrencyConfig) :
  forall (m : gmap string CurrencyConfig) (k : string),
    k ∈ keys ->
    is_Some (foldl (fun acc key => <[ key := g key ]> acc) m keys !! k).
Proof.
  assert (Hkeep : forall keys (m : gmap string CurrencyConfig) k,
            is_Some (m !! k) ->
            is_Some (foldl (fun acc key => <[ key := g key ]> acc) m keys !! k)).
  { clear keys. induction keys as [| key keys IH]; intros m k H; cbn [foldl].
    - exact H.
    - apply IH. apply lookup_insert_is_Some.
      destruct (decide (key = k)); [left; assumption | right; split; assumption]. }
  induction keys as [| key keys IH]; intros m k Hin.
  - inversion Hin.
  - cbn [foldl]. apply elem_of_cons in Hin. destruct Hin as [-> | Hin].
    + apply Hkeep. rewrite lookup_insert_eq. eexists. reflexivity.
    + apply IH. exact Hin.
Qed.

Lemma known_decimal_places (k : string) (n : nat) :
  CURRENCY_DECIMAL_PLACES !! k = Some n -> n = 0%nat \/ n = 2%nat \/ n = 3%nat.
Proof.
  intros H. apply elem_of_list_to_map_2 in H.
  repeat (apply elem_of_cons in H; destruct H as [H | H];
          [injection H as _ ->; tauto |]).
  inversion H.
Qed.

Lemma getCurrencyConfig_upper (c : string) :
  getCurrencyConfig (toUpperCase c) = getCurrencyConfig c.
Proof.
  unfold getCurrencyConfig. rewrite toUpperCase_idempotent. reflexivity.
Qed.

Lemma getCurrencyConfig_code (c : string) :
  code (getCurrencyConfig c) = toUpperCase c.
Proof.
  unfold getCurrencyConfig.
  destruct (CURRENCIES !! toUpperCase c) as [config |] eqn:E; [| reflexivity].
  unfold CURRENCIES in E. apply registry_lookup in E.
  destruct E as [[_ ->] | E]; [reflexivity |].
  change (list_to_map []) with (∅ : gmap string CurrencyConfig) in E.
  rewrite lookup_empty in E. discriminate E.
Qed.

Lemma decimalPlaces_known (c : string) :
  getCurrencyDecimalPlaces c = 0%nat \/ getCurrencyDecimalPlaces c = 2%nat
  \/ getCurrencyDecimalPlaces c = 3%nat.
Proof.
  unfold getCurrencyDecimalPlaces, getCurrencyConfig.
  destruct (CURRENCIES !! toUpperCase c) as [config |] eqn:E.
  - unfold CURRENCIES in E. apply registry_lookup in E.
    destruct E as [[_ ->] | E];
      [| change (list_to_map []) with (∅ : gmap string CurrencyConfig) in E;
         rewrite lookup_empty in E; discriminate E].
    cbn [decimalPlaces].
    destruct (CURRENCY_DECIMAL_PLACES !! toUpperCase c) as [n |] eqn:En.
    + apply (known_decimal_places _ _ En).
    + right. left. reflexivity.
  - right. left. reflexivity.
Qed.

Lemma upper_ascii_keeps_ascii (ch : ascii) :
  (nat_of_ascii ch <? 128)%nat = true ->
  (nat_of_ascii (upper_ascii ch) <? 128)%nat = true.
Proof.
  destruct ch as [[] [] [] [] [] [] [] []]; intros H;
    try discriminate H; reflexivity.
Qed.

Lemma toUpperCase_keeps_ascii (s : string) :
  asciiOnly s = true -> asciiOnly (toUpperCase s) = true.
Proof.
  induction s as [| ch s IH]; [reflexivity |].
  cbn [asciiOnly toUpperCase]. intros H.
  apply andb_true_iff in H. destruct H as [H1 H2].
  rewrite (upper_ascii_keeps_ascii ch H1), (IH H2). reflexivity.
Qed.

(** X22. The currency registry, for a code of ASCII characters: the
    configuration carries the upper-cased code, again of ASCII characters,
    the default rounding mode and 0, 2 or 3 decimal places; the lookup is
    case-insensitive; [isValidCurrency] holds exactly for the codes of
    CURRENCY_CODES, and every other code falls back to the default two
    decimal places. *)
Theorem currency_registry (c : string) :
  asciiOnly c = true ->
  let cfg := getCurrencyConfig c in
  code cfg = toUpperCase c
  /\ asciiOnly (code cfg) = true
  /\ roundingMode cfg = DEFAULT_ROUNDING_MODE
  /\ (decimalPlaces cfg = 0%nat \/ decimalPlaces cfg = 2%nat
      \/ decimalPlaces cfg = 3%nat)
  /\ getCurrencyConfig (toUpperCase c) = cfg
  /\ (isValidCurrency c = true <-> toUpperCase c ∈ CURRENCY_CODES)
  /\ (isValidCurrency c = false ->
      decimalPlaces cfg = DEFAULT_DECIMAL_PLACES).
Proof.
  intros Hascii cfg.
  assert (Hcode : code cfg = toUpperCase c) by apply getCurrencyConfig_code.
  split; [exact Hcode |].
  split; [rewrite Hcode; apply toUpperCase_keeps_ascii; exact Hascii |].
  clear Hcode. unfold cfg, getCurrencyConfig, isValidCurrency.
  rewrite toUpperCase_idempotent.
  destruct (CURRENCIES !! toUpperCase c) as [config |] eqn:E.
  - unfold CURRENCIES in E. apply registry_lookup in E.
    destruct E as [[Hin ->] | E];
      [| change (list_to_map []) with (∅ : gmap string CurrencyConfig) in E;
         rewrite lookup_empty in E; discriminate E].
    cbn [code roundingMode decimalPlaces].
    split; [reflexivity |].
    split.
    { destruct (CURRENCY_DECIMAL_PLACES !! toUpperCase c) as [n |] eqn:En.
      - apply (known_decimal_places _ _ En).
      - right. left. reflexivity. }
    split; [reflexivity |].
    split.
    { split; [intros _; exact Hin | intros _].
      apply bool_decide_eq_true. eexists. reflexivity. }
    intros H. apply bool_decide_eq_false in H. exfalso. apply H.
    eexists. reflexivity.
  - cbn [code roundingMode decimalPlaces].
    split; [reflexivity |].
    split; [right; left; reflexivity |]. split; [reflexivity |].
    split; [| reflexivity].
    split.
    + intros H. apply bool_decide_eq_true in H. destruct H as [x Hx].
      discriminate Hx.
    + intros Hin. exfalso.
      destruct (registry_member CURRENCY_CODES
                  (fun key =>
                     {| code := key;
                        decimalPlaces :=
                          default 2%nat (CURRENCY_DECIMAL_PLACES !! key);
                        roundingMode := DEFAULT_ROUNDING_MODE |})
                  (list_to_map []) (toUpperCase c) Hin) as [x Hx].
      unfold CURRENCIES in E. rewrite E in Hx. discriminate Hx.
Qed.

Lemma currency_registry_witness :
  let c : string := "kwd" in
  asciiOnly c = true
  /\ (let cfg := getCurrencyConfig c in
      code cfg = toUpperCase c
      /\ asciiOnly (code cfg) = true
      /\ roundingMode cfg = DEFAULT_ROUNDING_MODE
      /\ (decimalPlaces cfg = 0%nat \/ decimalPlaces cfg = 2%nat
          \/ decimalPlaces cfg = 3%nat)
      /\ getCurrencyConfig (toUpperCase c) = cfg
      /\ (isValidCurrency c = true <-> toUpperCase c ∈ CURRENCY_CODES)
      /\ (isValidCurrency c = false ->
          decimalPlaces cfg = DEFAULT_DECIMAL_PLACES)).
Proof.
  intros c.
  assert (H : asciiOnly c = true) by reflexivity.
  split; [exact H | apply (currency_registry c H)].
Defined.

(** ** The number helpers *)

Lemma roundCurrencyNumber_round (v : Decimal) (c : string)
    (dir : option Direction) :
  exists mode : RoundingMode,
    roundCurrencyNumber v c dir = round v (helperDecimalPlaces c) mode.
Proof.
  unfold roundCurrencyNumber, helperDecimalPlaces, toNumber.
  destruct (String.eqb c "UP"); cbn; [eexists; reflexivity |].
  destruct (String.eqb c "DOWN"); cbn; eexists; reflexivity.
Qed.

Lemma roundCurrencyNumber_atScale (v : Decimal) (c : string)
    (dir : option Direction) :
  atScale (helperDecimalPlaces c) (roundCurrencyNumber v c dir).
Proof.
  destruct (roundCurrencyNumber_round v c dir) as [mode ->].
  apply round_atScale.
Qed.

Lemma roundCurrencyNumber_id (v : Decimal) (c : string)
    (dir : option Direction) :
  atScale (helperDecimalPlaces c) v -> roundCurrencyNumber v c dir == v.
Proof.
  destruct (roundCurrencyNumber_round v c dir) as [mode ->].
  apply round_id.
Qed.

#[global] Instance roundCurrencyNumber_proper :
  Proper (Qeq ==> eq ==> eq ==> Qeq) roundCurrencyNumber.
Proof.
  unfold Proper, respectful. intros x y E c c' Hc dir dir' Hdir. subst c' dir'.
  unfold roundCurrencyNumber, toNumber.
  destruct (String.eqb c "UP"); [rewrite E; reflexivity |].
  destruct (String.eqb c "DOWN"); rewrite E; reflexivity.
Qed.

Lemma helperDecimalPlaces_known (c : string) :
  helperDecimalPlaces c = 0%nat \/ helperDecimalPlaces c = 2%nat
  \/ helperDecimalPlaces c = 3%nat.
Proof.
  unfold helperDecimalPlaces.
  destruct (String.eqb c "UP" || String.eqb c "DOWN"); apply decimalPlaces_known.
Qed.

(** A whole number of minor units, at most three decimal places, of
    magnitude at most 10^12 is an exact number. *)
Lemma atScale_exactNumber (d : nat) (x : Decimal) :
  (d <= 3)%nat -> atScale d x -> Qabs x <= numberLimit -> exactNumber x.
Proof.
  intros Hd [k Hk] Hx.
  apply Qabs_Qle_condition in Hx. destruct Hx as [Hlo Hhi].
  unfold numberLimit in Hlo, Hhi.
  exists k, (- Z.of_nat d)%Z.
  assert (Hcase : d = 0%nat \/ d = 1%nat \/ d = 2%nat \/ d = 3%nat) by lia.
  assert (Hmu : minorUnit d == 10 ^ (- Z.of_nat d)
                /\ inject_Z (10 ^ 15) * minorUnit d >= 1000000000000).
  { destruct Hcase as [-> | [-> | [-> | ->]]]; split;
      vm_compute; try reflexivity; discriminate. }
  destruct Hmu as [Hmu Hbig].
  split; [rewrite <- Hmu; exact Hk |].
  split; [| lia].
  pose proof (minorUnit_pos d) as Hpos.
  set (mu := minorUnit d) in *. clearbody mu.
  apply Z.abs_le. split.
  - rewrite Zle_Qle. rewrite inject_Z_opp.
    set (z := inject_Z k) in *. set (B := inject_Z (10 ^ 15)) in *.
    clearbody z B. nra.
  - rewrite Zle_Qle.
    set (z := inject_Z k) in *. set (B := inject_Z (10 ^ 15)) in *.
    clearbody z B. nra.
Qed.

(** Rounding keeps an amount of magnitude at most 10^12 within that
    magnitude, so that the rounded amount is an exact number. *)
Lemma round_within_limit (v : Decimal) (d : nat) (mode : RoundingMode) :
  (d <= 3)%nat -> Qabs v <= numberLimit ->
  Qabs (round v d mode) <= numberLimit /\ exactNumber (round v d mode).
Proof.
  intros Hd Hv.
  assert (Hr : Qabs (round v d mode) <= numberLimit).
  { destruct (round_atScale v d mode) as [k Hk].
    pose proof (round_error mode v d) as He.
    apply Qabs_Qle_condition in Hv. destruct Hv as [Hlo Hhi].
    apply Qabs_Qle_condition.
    assert (HL : exists l : Z, numberLimit == inject_Z l * minorUnit d).
    { exists (1000000000000 * pow10 d)%Z.
      rewrite inject_Z_mult, <- Qmult_assoc, scale_minorUnit.
      unfold numberLimit. ring. }
    destruct HL as [l Hl].
    pose proof (minorUnit_pos d) as Hpos.
    set (r := round v d mode) in *. set (L := numberLimit) in *.
    set (mu := minorUnit d) in *. clearbody r L mu.
    assert (Hkl : (- l <= k <= l)%Z).
    { assert (H1 : inject_Z k < inject_Z (l + 1)).
      { rewrite inject_Z_plus. change (inject_Z 1) with 1.
        set (zk := inject_Z k) in *. set (zl := inject_Z l) in *.
        clearbody zk zl. nra. }
      assert (H2 : inject_Z (- l - 1) < inject_Z k).
      { unfold Z.sub. rewrite inject_Z_plus, !inject_Z_opp.
        change (inject_Z 1) with 1.
        set (zk := inject_Z k) in *. set (zl := inject_Z l) in *.
        clearbody zk zl. nra. }
      rewrite <- Zlt_Qlt in H1, H2. lia. }
    destruct Hkl as [H1 H2].
    rewrite Zle_Qle in H1, H2. rewrite inject_Z_opp in H1.
    set (zk := inject_Z k) in *. set (zl := inject_Z l) in *.
    clearbody zk zl. split; nra. }
  split; [exact Hr |].
  apply (atScale_exactNumber d); [exact Hd | apply round_atScale | exact Hr].
Qed.

(** X15. The direction overload of [roundCurrencyNumber], for a value of
    magnitude at most 10^12: when the second argument reads 'UP' (or
    'DOWN') the value is rounded towards +∞ (−∞) at the two decimal places
    of the default currency INR, whatever the third argument says, so the
    result is never below (above) the value and less than one paisa away;
    in every case the rounded decimal that is converted to a number is one
    that a number holds exactly, a whole number of minor units of the
    scale the helper uses and less than one minor unit from the value. *)
Theorem roundCurrencyNumber_direction
    (v : Decimal) (dir : option Direction) (c : string) :
  Qabs v <= numberLimit ->
  (roundCurrencyNumber v "UP" dir = round v 2 ROUND_CEIL
   /\ exactNumber (round v 2 ROUND_CEIL)
   /\ v <= roundCurrencyNumber v "UP" dir < v + minorUnit 2)
  /\ (roundCurrencyNumber v "DOWN" dir = round v 2 ROUND_FLOOR
      /\ exactNumber (round v 2 ROUND_FLOOR)
      /\ v - minorUnit 2 < roundCurrencyNumber v "DOWN" dir <= v)
  /\ (exists mode : RoundingMode,
        roundCurrencyNumber v c dir = round v (helperDecimalPlaces c) mode
        /\ exactNumber (round v (helperDecimalPlaces c) mode))
  /\ atScale (helperDecimalPlaces c) (roundCurrencyNumber v c dir)
  /\ - minorUnit (helperDecimalPlaces c)
     < roundCurrencyNumber v c dir - v
     < minorUnit (helperDecimalPlaces c).
Proof.
  intros Hv.
  split; [| split; [| split; [| split]]].
  - split; [reflexivity |].
    split; [apply round_within_limit; [lia | exact Hv] |].
    change (roundCurrencyNumber v "UP" dir) with (preciseRound v 2 CEIL).
    destruct (preciseRound_error CEIL v 2) as (Hb & _ & H & _).
    specialize (H eq_refl). lra.
  - split; [reflexivity |].
    split; [apply round_within_limit; [lia | exact Hv] |].
    change (roundCurrencyNumber v "DOWN" dir) with (preciseRound v 2 FLOOR).
    destruct (preciseRound_error FLOOR v 2) as (Hb & H & _).
    specialize (H eq_refl). lra.
  - destruct (roundCurrencyNumber_round v c dir) as [mode E].
    exists mode. split; [exact E |].
    apply round_within_limit; [| exact Hv].
    destruct (helperDecimalPlaces_known c) as [-> | [-> | ->]]; lia.
  - apply roundCurrencyNumber_atScale.
  - destruct (roundCurrencyNumber_round v c dir) as [mode ->].
    apply round_error.
Qed.

Lemma roundCurrencyNumber_direction_witness :
  let v : Decimal := 1234.5678 in
  Qabs v <= numberLimit
  /\ (roundCurrencyNumber v "UP" None = round v 2 ROUND_CEIL
      /\ exactNumber (round v 2 ROUND_CEIL)
      /\ v <= roundCurrencyNumber v "UP" None < v + minorUnit 2)
  /\ (roundCurrencyNumber v "DOWN" None = round v 2 ROUND_FLOOR
      /\ exactNumber (round v 2 ROUND_FLOOR)
      /\ v - minorUnit 2 < roundCurrencyNumber v "DOWN" None <= v)
  /\ (exists mode : RoundingMode,
        roundCurrencyNumber v "KWD" None
        = round v (helperDecimalPlaces "KWD") mode
        /\ exactNumber (round v (helperDecimalPlaces "KWD") mode))
  /\ atScale (helperDecimalPlaces "KWD") (roundCurrencyNumber v "KWD" None)
  /\ - minorUnit (helperDecimalPlaces "KWD")
     < roundCurrencyNumber v "KWD" None - v
     < minorUnit (helperDecimalPlaces "KWD").
Proof.
  intros v.
  assert (H : Qabs v <= numberLimit) by (vm_compute; discriminate).
  split; [exact H | apply (roundCurrencyNumber_direction v None "KWD" H)].
Defined.

(** X16. [percentOfNumber] and [calculatePercentageOfTotal] never throw:
    a zero whole gives 0 through their guard, and otherwise the divisor is
    not zero.  An amount that a number holds exactly, so that the guard
    sees it as it is, is 100 percent of itself unless it is zero. *)
Theorem percent_helpers_guarded (part whole : Decimal) (c : string) :
  returns (percentOfNumber part whole c) = true
  /\ returns (calculatePercentageOfTotal part whole c) = true
  /\ percentOfNumber part 0 c = Ok 0
  /\ calculatePercentageOfTotal part 0 c = Ok 0
  /\ (exactNumber whole ->
      match percentOfNumber whole whole c,
            calculatePercentageOfTotal whole whole c with
      | Ok p, Ok q =>
          p == (if Qeq_bool whole 0 then 0 else 100)
          /\ q == (if Qeq_bool whole 0 then 0 else 100)
      | _, _ => False
      end).
Proof.
  unfold percentOfNumber, calculatePercentageOfTotal, mathIsZero, safeToNumber,
    toNumber.
  split; [| split; [| split; [reflexivity | split; [reflexivity |]]]].
  - destruct (Qeq_bool whole 0) eqn:E; [reflexivity |].
    rewrite preciseDivide_nonzero; [reflexivity |].
    intros H. apply Qeq_bool_iff in H. congruence.
  - destruct (Qeq_bool whole 0) eqn:E; [reflexivity |].
    rewrite preciseDivide_nonzero; [reflexivity |].
    intros H. apply Qeq_bool_iff in H. congruence.
  - intros _. destruct (Qeq_bool whole 0) eqn:E; cbn [mret result_ret].
    + split; reflexivity.
    + assert (Hnz : ~ whole == 0).
      { intros H. apply Qeq_bool_iff in H. congruence. }
      rewrite preciseDivide_nonzero by exact Hnz.
      cbn [mbind result_bind mret result_ret].
      assert (H1 : truncateTo DEFAULT_PRECISION (whole / whole) == 1).
      { assert (E1 : whole / whole == 1) by (field; exact Hnz).
        rewrite E1. apply truncateTo_id.
        exists (pow10 DEFAULT_PRECISION). rewrite scale_minorUnit. reflexivity. }
      assert (H100 : preciseMultiply
                       (truncateTo DEFAULT_PRECISION (whole / whole)) 100
                     == 100)
        by (unfold preciseMultiply; rewrite H1; reflexivity).
      split; [| exact H100].
      rewrite H100. apply roundCurrencyNumber_id.
      apply (atScale_le 0); [lia |]. apply (atScale_0_whole 100).
Qed.

Lemma subtractMoneyList_sum
    (initial : Decimal) (values : list Decimal) (c : string) :
  atScale (helperDecimalPlaces c) initial ->
  Forall (atScale (helperDecimalPlaces c)) values ->
  subtractMoneyList initial values c == initial - preciseSum values
  /\ atScale (helperDecimalPlaces c) (subtractMoneyList initial values c).
Proof.
  intros Hi Hv. revert initial Hi.
  induction Hv as [| v values Hv _ IH]; intros initial Hi.
  - change (subtractMoneyList initial [] c) with initial.
    split; [rewrite preciseSum_nil; ring | exact Hi].
  - change (subtractMoneyList initial (v :: values) c)
      with (subtractMoneyList (subtractMoneyNumbers initial v c) values c).
    assert (Hstep : subtractMoneyNumbers initial v c == initial - v).
    { unfold subtractMoneyNumbers. apply roundCurrencyNumber_id.
      apply atScale_minus; assumption. }
    destruct (IH (subtractMoneyNumbers initial v c)) as [H1 H2].
    + apply roundCurrencyNumber_atScale.
    + split; [| exact H2].
      rewrite H1, Hstep, preciseSum_cons. ring.
Qed.

(** X17. [subtractMoneyList] does not drift: when the initial value and
    every value of the list are whole numbers of minor units at the scale
    the helper rounds to, and every partial difference has magnitude at
    most 10^12, every accumulator of the reduction is a decimal that a
    number holds exactly and is exactly the initial value minus the values
    subtracted so far; so is the result, although every step is rounded. *)
Theorem subtractMoneyList_exact
    (initial : Decimal) (values : list Decimal) (c : string) :
  atScale (helperDecimalPlaces c) initial ->
  Forall (atScale (helperDecimalPlaces c)) values ->
  (forall n : nat,
     Qabs (initial - preciseSum (take n values)) <= numberLimit) ->
  subtractMoneyList initial values c == initial - preciseSum values
  /\ atScale (helperDecimalPlaces c) (subtractMoneyList initial values c)
  /\ (forall n : nat,
        subtractMoneyList initial (take n values) c
        == initial - preciseSum (take n values)
        /\ exactNumber (subtractMoneyList initial (take n values) c)).
Proof.
  intros Hi Hv Hbound.
  destruct (subtractMoneyList_sum initial values c Hi Hv) as [H1 H2].
  split; [exact H1 |]. split; [exact H2 |].
  intros n.
  destruct (subtractMoneyList_sum initial (take n values) c Hi
              (Forall_take _ n values Hv)) as [E Hs].
  split; [exact E |].
  apply (atScale_exactNumber (helperDecimalPlaces c)); [| exact Hs |].
  - destruct (helperDecimalPlaces_known c) as [-> | [-> | ->]]; lia.
  - rewrite E. apply Hbound.
Qed.

Lemma subtractMoneyList_exact_witness :
  let values : list Decimal := [100; 200.5; 50] in
  atScale (helperDecimalPlaces "INR") 1000
  /\ Forall (atScale (helperDecimalPlaces "INR")) values
  /\ (forall n : nat,
        Qabs (1000 - preciseSum (take n values)) <= numberLimit)
  /\ subtractMoneyList 1000 values "INR" == 1000 - preciseSum values
  /\ atScale (helperDecimalPlaces "INR") (subtractMoneyList 1000 values "INR")
  /\ (forall n : nat,
        subtractMoneyList 1000 (take n values) "INR"
        == 1000 - preciseSum (take n values)
        /\ exactNumber (subtractMoneyList 1000 (take n values) "INR")).
Proof.
  intros values.
  assert (H1 : atScale (helperDecimalPlaces "INR") 1000)
    by (exists 100000%Z; vm_compute; reflexivity).
  assert (H2 : Forall (atScale (helperDecimalPlaces "INR")) values).
  { constructor; [| constructor; [| constructor; [| constructor]]].
    - exists 10000%Z. vm_compute. reflexivity.
    - exists 20050%Z. vm_compute. reflexivity.
    - exists 5000%Z. vm_compute. reflexivity. }
  assert (H3 : forall n : nat,
             Qabs (1000 - preciseSum (take n values)) <= numberLimit).
  { intros [| [| [| [| n]]]]; vm_compute; discriminate. }
  split; [exact H1 |]. split; [exact H2 |]. split; [exact H3 |].
  apply (subtractMoneyList_exact 1000 values "INR" H1 H2 H3).
Defined.

Lemma foldl_preciseAdd (l : list Decimal) (a : Decimal) :
  foldl (fun acc current => preciseAdd acc current) a l == a + preciseSum l.
Proof.
  revert a. induction l as [| x l IH]; intros a; cbn [foldl].
  - rewrite preciseSum_nil. ring.
  - rewrite IH, preciseSum_cons. unfold preciseAdd. ring.
Qed.

Lemma preciseSum_Permutation (l l' : list Decimal) :
  l ≡ₚ l' -> preciseSum l == preciseSum l'.
Proof.
  induction 1 as [| x l l' _ IH | x y l | l l' l'' _ IH1 _ IH2].
  - reflexivity.
  - rewrite !preciseSum_cons, IH. reflexivity.
  - rewrite !preciseSum_cons. ring.
  - rewrite IH1. exact IH2.
Qed.

Lemma addMoneyNumbers_sum (values : list Decimal) (c : string) :
  addMoneyNumbers (Some values) c
  == roundCurrencyNumber (preciseSum values) c None.
Proof.
  destruct values as [| v values].
  - cbn. symmetry. apply roundCurrencyNumber_id. apply atScale_0.
  - unfold addMoneyNumbers. rewrite foldl_preciseAdd.
    apply roundCurrencyNumber_proper; [ring | reflexivity | reflexivity].
Qed.

(** X18. [addMoneyNumbers] is 0 for a missing or empty array, and the
    order of the values does not matter.  When the exact sum has magnitude
    at most 10^12, the result is that sum rounded once at the scale of the
    helper, a decimal that a number holds exactly, less than one minor
    unit from the sum. *)
Theorem addMoneyNumbers_order (values values' : list Decimal) (c : string) :
  values ≡ₚ values' ->
  addMoneyNumbers (Some values) c == addMoneyNumbers (Some values') c
  /\ (Qabs (preciseSum values) <= numberLimit ->
      exists mode : RoundingMode,
        addMoneyNumbers (Some values) c
        == round (preciseSum values) (helperDecimalPlaces c) mode
        /\ exactNumber (round (preciseSum values) (helperDecimalPlaces c) mode)
        /\ - minorUnit (helperDecimalPlaces c)
           < addMoneyNumbers (Some values) c - preciseSum values
           < minorUnit (helperDecimalPlaces c))
  /\ addMoneyNumbers None c = 0
  /\ addMoneyNumbers (Some []) c = 0.
Proof.
  intros Hp.
  split; [| split; [| split; reflexivity]].
  - rewrite !addMoneyNumbers_sum.
    apply roundCurrencyNumber_proper; [| reflexivity | reflexivity].
    apply preciseSum_Permutation. exact Hp.
  - intros Hb.
    destruct (roundCurrencyNumber_round (preciseSum values) c None) as [mode E].
    exists mode.
    assert (Hsum : addMoneyNumbers (Some values) c
                   == round (preciseSum values) (helperDecimalPlaces c) mode)
      by (rewrite addMoneyNumbers_sum, E; reflexivity).
    split; [exact Hsum |]. split.
    + apply round_within_limit; [| exact Hb].
      destruct (helperDecimalPlaces_known c) as [-> | [-> | ->]]; lia.
    + rewrite Hsum. apply round_error.
Qed.

Lemma addMoneyNumbers_order_witness :
  let values : list Decimal := [100; 200.25; 50.1] in
  let values' : list Decimal := [50.1; 100; 200.25] in
  values ≡ₚ values'
  /\ addMoneyNumbers (Some values) "INR" == addMoneyNumbers (Some values') "INR"
  /\ (Qabs (preciseSum values) <= numberLimit ->
      exists mode : RoundingMode,
        addMoneyNumbers (Some values) "INR"
        == round (preciseSum values) (helperDecimalPlaces "INR") mode
        /\ exactNumber
             (round (preciseSum values) (helperDecimalPlaces "INR") mode)
        /\ - minorUnit (helperDecimalPlaces "INR")
           < addMoneyNumbers (Some values) "INR" - preciseSum values
           < minorUnit (helperDecimalPlaces "INR"))
  /\ addMoneyNumbers None "INR" = 0
  /\ addMoneyNumbers (Some []) "INR" = 0.
Proof.
  intros values values'.
  assert (H : values ≡ₚ values').
  { change values' with ([50.1] ++ [100; 200.25]).
    change values with ([100; 200.25] ++ [50.1]).
    apply Permutation_app_comm. }
  split; [exact H |].
  apply (addMoneyNumbers_order values values' "INR" H).
Defined.

(** ** The ledger *)

Lemma ledger_contributions (entries : list LedgerEntry) :
  preciseSum (map ledgerContribution entries)
  == activeCredits entries - activeDebits entries.
Proof.
  unfold activeCredits, activeDebits.
  induction entries as [| e entries IH].
  - cbn. reflexivity.
  - cbn [map List.filter]. rewrite preciseSum_cons, IH.
    unfold ledgerContribution, entryActive, entryCredit, entryAmount.
    assert (Ha : (match le_amount e with
                  | Some a => if Qeq_bool a 0 then 0 else a
                  | None => 0
                  end) == default 0 (le_amount e)).
    { destruct (le_amount e) as [a |]; cbn; [| reflexivity].
      destruct (Qeq_bool a 0) eqn:E; [| reflexivity].
      apply Qeq_bool_iff in E. symmetry. exact E. }
    destruct (default false (le_isActive e)); cbn [negb andb].
    + destruct (bool_decide (le_type e = Some "CREDIT"%string));
        cbn [negb map]; rewrite ?preciseSum_cons, Ha; ring.
    + ring.
Qed.

Lemma filter_active_again (f : LedgerEntry -> bool) (entries : list LedgerEntry) :
  List.filter (fun e => entryActive e && f e) (List.filter entryActive entries)
  = List.filter (fun e => entryActive e && f e) entries.
Proof.
  induction entries as [| e entries IH]; [reflexivity |].
  cbn [List.filter]. destruct (entryActive e) eqn:Ea.
  - cbn [List.filter andb]. rewrite Ea. cbn [andb]. rewrite IH. reflexivity.
  - cbn [andb]. exact IH.
Qed.

Lemma ledger_total_sum (entries : list LedgerEntry) (c : string) :
  calculateLedgerTotal (Some entries) c
  == roundCurrencyNumber (activeCredits entries - activeDebits entries) c None.
Proof.
  destruct entries as [| e entries].
  - cbn. symmetry. apply roundCurrencyNumber_id. apply atScale_0.
  - unfold calculateLedgerTotal. rewrite addMoneyNumbers_sum.
    apply roundCurrencyNumber_proper; [| reflexivity | reflexivity].
    apply ledger_contributions.
Qed.

(** X19. [calculateLedgerTotal]: entries that are inactive (or whose
    isActive is missing) contribute nothing, so removing them does not
    change the total, and a missing or empty ledger totals 0.  When the
    sum of the active CREDIT amounts minus the sum of the other active
    amounts has magnitude at most 10^12, the total is that difference
    rounded once, a decimal that a number holds exactly. *)
Theorem ledger_total (entries : list LedgerEntry) (c : string) :
  calculateLedgerTotal (Some (List.filter entryActive entries)) c
  == calculateLedgerTotal (Some entries) c
  /\ (Qabs (activeCredits entries - activeDebits entries) <= numberLimit ->
      exists mode : RoundingMode,
        calculateLedgerTotal (Some entries) c
        == round (activeCredits entries - activeDebits entries)
             (helperDecimalPlaces c) mode
        /\ exactNumber
             (round (activeCredits entries - activeDebits entries)
                (helperDecimalPlaces c) mode)
        /\ - minorUnit (helperDecimalPlaces c)
           < calculateLedgerTotal (Some entries) c
             - (activeCredits entries - activeDebits entries)
           < minorUnit (helperDecimalPlaces c))
  /\ calculateLedgerTotal None c = 0
  /\ calculateLedgerTotal (Some []) c = 0.
Proof.
  split; [| split; [| split; reflexivity]].
  - rewrite !ledger_total_sum. unfold activeCredits, activeDebits.
    rewrite !filter_active_again. reflexivity.
  - intros Hb.
    destruct (roundCurrencyNumber_round
                (activeCredits entries - activeDebits entries) c None)
      as [mode E].
    exists mode.
    assert (Hsum : calculateLedgerTotal (Some entries) c
                   == round (activeCredits entries - activeDebits entries)
                        (helperDecimalPlaces c) mode)
      by (rewrite ledger_total_sum, E; reflexivity).
    split; [exact Hsum |]. split.
    + apply round_within_limit; [| exact Hb].
      destruct (helperDecimalPlaces_known c) as [-> | [-> | ->]]; lia.
    + rewrite Hsum. apply round_error.
Qed.

(** ** Interest *)

Lemma iter_multiply (n : nat) (q p : Decimal) :
  Nat.iter n (fun x => preciseMultiply x q) p == p * q ^ Z.of_nat n.
Proof.
  induction n as [| n IH].
  - change (p == p * 1). ring.
  - rewrite Nat.iter_succ. unfold preciseMultiply at 1. rewrite IH.
    rewrite Nat2Z.inj_succ, <- Z.add_1_r.
    rewrite Qpower_plus' by lia. rewrite Qpower_1_r. ring.
Qed.

(** X20. [compoundInterest] throws the engine's DivisionByZero exactly when
    the compounding frequency is zero and returns otherwise.  When the
    number of periods time × frequency is a decimal that a number holds
    exactly and is at most 10^12, the result is
    principal × (1 + r)^n − principal, where r is the rate per period (the
    quotient rate / (100 × frequency), kept to 20 digits) and n is
    floor(time × frequency), or 0 when that is negative; less than one full
    period earns no interest. *)
Theorem compoundInterest_closed_form (principal rate time frequency : Decimal) :
  let n := Z.max 0 (Qfloor (time * frequency)) in
  let r := truncateTo DEFAULT_PRECISION (rate / (100 * frequency)) in
  match compoundInterest principal rate time frequency with
  | Ok interest =>
      ~ frequency == 0
      /\ (exactNumber (time * frequency) ->
          time * frequency <= numberLimit ->
          interest == principal * (1 + r) ^ n - principal
          /\ (time * frequency < 1 -> interest == 0))
  | Throw e => e = DivisionByZero /\ frequency == 0
  end.
Proof.
  intros n r. unfold compoundInterest.
  destruct (Qeq_dec frequency 0) as [Hz | Hnz].
  - rewrite preciseDivide_zero
      by (unfold preciseMultiply; rewrite Hz; reflexivity).
    split; [reflexivity | exact Hz].
  - assert (Hd : ~ preciseMultiply 100 frequency == 0).
    { unfold preciseMultiply. intros E. apply Hnz. lra. }
    rewrite preciseDivide_nonzero by exact Hd.
    cbn [mbind result_bind mret result_ret].
    change (truncateTo DEFAULT_PRECISION (rate / preciseMultiply 100 frequency))
      with r.
    change (mathMax 0 (mathFloor (toNumber (preciseMultiply time frequency))))
      with n.
    assert (Hval : preciseSubtract
                     (Nat.iter (Z.to_nat n)
                        (fun result => preciseMultiply result (preciseAdd 1 r))
                        principal)
                     principal
                   == principal * (1 + r) ^ n - principal).
    { unfold preciseSubtract. rewrite iter_multiply.
      rewrite Z2Nat.id by (unfold n; lia). reflexivity. }
    split; [exact Hnz |]. intros _ _. split; [exact Hval |].
    intros Hlt. rewrite Hval.
    assert (Hn : n = 0%Z).
    { pose proof (Qfloor_le (time * frequency)) as Hfl.
      assert (H1 : inject_Z (Qfloor (time * frequency)) < inject_Z 1)
        by (change (inject_Z 1) with 1; lra).
      rewrite <- Zlt_Qlt in H1. unfold n. lia. }
    assert (E : (1 + r) ^ n == 1) by (rewrite Hn; reflexivity).
    rewrite E. ring.
Qed.

(** X21. [simpleInterest] never throws and returns principal × rate × time
    / 100 cut to 20 fractional digits: the result is at most 10^-20 away
    from the exact value and exact when that value has no more than 20
    fractional digits. *)
Theorem simpleInterest_value (principal rate time : Decimal) :
  match simpleInterest principal rate time with
  | Ok interest =>
      - minorUnit DEFAULT_PRECISION
      < interest - principal * rate * time / 100
      < minorUnit DEFAULT_PRECISION
      /\ (atScale DEFAULT_PRECISION (principal * rate * time / 100) ->
          interest == principal * rate * time / 100)
  | Throw _ => False
  end.
Proof.
  unfold simpleInterest.
  rewrite preciseDivide_nonzero by (intros E; discriminate E).
  unfold preciseMultiply. split.
  - apply (preciseRound_error DOWN).
  - apply truncateTo_id.
Qed.

(** ** Currency-aware money objects *)

Lemma createCurrencyMoney_upper (v : Decimal) (c : string) (r : bool) :
  createCurrencyMoney v (toUpperCase c) r
  = {| cm_amount :=
         if r then round v (getCurrencyDecimalPlaces c) DEFAULT_ROUNDING_MODE
         else v;
       cm_currency := toUpperCase c;
       cm_config := getCurrencyConfig c;
       cm_isRounded := r |}.
Proof.
  unfold createCurrencyMoney, getCurrencyDecimalPlaces.
  rewrite getCurrencyConfig_upper, getCurrencyConfig_code. reflexivity.
Qed.

(** X23. Currency-aware money, for codes of ASCII characters:
    [createCurrencyMoney] stores the upper-cased code, and
    [addCurrencyMoney] of two created values is accepted exactly when their
    codes agree up to case; the sum is flagged rounded when either operand
    is, is then a whole number of minor units, and when both operands are
    rounded it is exactly the sum of their amounts. *)
Theorem currencyMoney_addition
    (x y : Decimal) (c1 c2 : string) (r1 r2 : bool) :
  asciiOnly c1 = true ->
  asciiOnly c2 = true ->
  let a := createCurrencyMoney x c1 r1 in
  let b := createCurrencyMoney y c2 r2 in
  cm_currency a = toUpperCase c1
  /\ asciiOnly (cm_currency a) = true
  /\ asciiOnly (cm_currency b) = true
  /\ match addCurrencyMoney a b with
     | Accepted s =>
         toUpperCase c1 = toUpperCase c2
         /\ cm_currency s = toUpperCase c1
         /\ cm_isRounded s = r1 || r2
         /\ (r1 || r2 = true ->
             atScale (getCurrencyDecimalPlaces c1) (cm_amount s))
         /\ (r1 && r2 = true -> cm_amount s == cm_amount a + cm_amount b)
     | Rejected _ => toUpperCase c1 <> toUpperCase c2
     end.
Proof.
  intros Hc1 Hc2 a b.
  assert (Ha : cm_currency a = toUpperCase c1) by apply getCurrencyConfig_code.
  assert (Hb : cm_currency b = toUpperCase c2) by apply getCurrencyConfig_code.
  split; [exact Ha |].
  split; [rewrite Ha; apply toUpperCase_keeps_ascii; exact Hc1 |].
  split; [rewrite Hb; apply toUpperCase_keeps_ascii; exact Hc2 |].
  unfold addCurrencyMoney. rewrite Ha, Hb.
  change (cm_isRounded a) with r1. change (cm_isRounded b) with r2.
  destruct (String.eqb_spec (toUpperCase c1) (toUpperCase c2)) as [E | E];
    cbn [negb]; [| exact E].
  split; [exact E |].
  rewrite createCurrencyMoney_upper.
  cbn [cm_currency cm_isRounded cm_amount].
  split; [reflexivity |]. split; [reflexivity |].
  split.
  - intros Hr. rewrite Hr. apply round_atScale.
  - intros Hr. apply andb_true_iff in Hr. destruct Hr as [-> ->]. cbn [orb].
    apply round_id. unfold a, b, createCurrencyMoney, preciseAdd.
    cbn [cm_amount]. fold (getCurrencyDecimalPlaces c1).
    fold (getCurrencyDecimalPlaces c2).
    assert (Hd : getCurrencyDecimalPlaces c2 = getCurrencyDecimalPlaces c1).
    { unfold getCurrencyDecimalPlaces.
      rewrite <- (getCurrencyConfig_upper c2), <- E, getCurrencyConfig_upper.
      reflexivity. }
    rewrite Hd. apply atScale_plus; apply round_atScale.
Qed.

Lemma currencyMoney_addition_witness :
  let a := createCurrencyMoney 10.005 "usd" true in
  let b := createCurrencyMoney 2.5 "USD" false in
  asciiOnly "usd" = true
  /\ asciiOnly "USD" = true
  /\ cm_currency a = toUpperCase "usd"
  /\ asciiOnly (cm_currency a) = true
  /\ asciiOnly (cm_currency b) = true
  /\ match addCurrencyMoney a b with
     | Accepted s =>
         toUpperCase "usd" = toUpperCase "USD"
         /\ cm_currency s = toUpperCase "usd"
         /\ cm_isRounded s = true || false
         /\ (true || false = true ->
             atScale (getCurrencyDecimalPlaces "usd") (cm_amount s))
         /\ (true && false = true -> cm_amount s == cm_amount a + cm_amount b)
     | Rejected _ => toUpperCase "usd" <> toUpperCase "USD"
     end.
Proof.
  intros a b.
  assert (H1 : asciiOnly "usd" = true) by reflexivity.
  assert (H2 : asciiOnly "USD" = true) by reflexivity.
  split; [exact H1 |]. split; [exact H2 |].
  apply (currencyMoney_addition 10.005 2.5 "usd" "USD" true false H1 H2).
Defined.

(** ** The integrity checker, as a decision *)

Lemma verifyLineItems_appends (c : string) (its : list LineItemResult) :
  forall (i : nat) (errs : list IntegrityError),
  exists extra : list IntegrityError,
    verifyLineItems c i its errs = errs ++ extra
    /\ (extra = []
        <-> Forall (fun item =>
                      total (calculated item)
                      == roundForCurrency
                           (taxableAmount (calculated item)
                            + taxAmount (calculated item)
                            + roundingAdjustment item)
                           c DEFAULT_ROUNDING_MODE)
                   its).
Proof.
  induction its as [| item rest IH]; intros i errs.
  - exists []. split; [cbn; rewrite app_nil_r; reflexivity |].
    split; [intros _; constructor | reflexivity].
  - cbn [verifyLineItems]. unfold preciseAdd.
    destruct (preciseEquals (total (calculated item))
                (roundForCurrency
                   (taxableAmount (calculated item) + taxAmount (calculated item)
                    + roundingAdjustment item) c DEFAULT_ROUNDING_MODE)) eqn:E;
      cbn [negb].
    + apply preciseEquals_true in E.
      destruct (IH (S i) errs) as [extra [Hrun Hiff]].
      exists extra. split; [exact Hrun |].
      rewrite Hiff. split.
      * intros H. constructor; assumption.
      * intros H. inversion H; assumption.
    + destruct (IH (S i)
                  (errs ++ [LineItemMismatch (i + 1) (total (calculated item))
                              (roundForCurrency
                                 (taxableAmount (calculated item)
                                  + taxAmount (calculated item)
                                  + roundingAdjustment item)
                                 c DEFAULT_ROUNDING_MODE)]))
        as [extra [Hrun _]].
      eexists. split; [rewrite Hrun, <- app_assoc; reflexivity |].
      split; [intros H; discriminate H |].
      intros H. inversion H as [| ? ? Hitem _]. subst.
      apply preciseEquals_true in Hitem. congruence.
Qed.

(** X24. [verifyInvoiceIntegrity] decides what it documents, for any
    aggregation record, also one not produced by [aggregateLineItems]:
    isValid is true, and the errors list empty, exactly when every line's
    stored total equals taxable + tax + adjustment rounded to the currency
    of the aggregation and the stored grand total equals the rounded sum of
    the line totals; the reported difference is the stored grand total
    minus that sum. *)
Theorem integrity_check_decides (g : InvoiceAggregation) :
  let report := verifyInvoiceIntegrity g in
  let expected :=
    roundForCurrency
      (preciseSum (map (fun item => total (calculated item)) (items g)))
      (agg_currency g) DEFAULT_ROUNDING_MODE in
  (isValid report = true <-> errors report = [])
  /\ (isValid report = true
      <-> Forall (fun item =>
                    total (calculated item)
                    == roundForCurrency
                         (taxableAmount (calculated item)
                          + taxAmount (calculated item)
                          + roundingAdjustment item)
                         (agg_currency g) DEFAULT_ROUNDING_MODE)
                 (items g)
          /\ grandTotal g == expected)
  /\ difference (details report) == grandTotal g - expected
  /\ actualGrandTotal (details report) = grandTotal g.
Proof.
  intros report expected. unfold report, verifyInvoiceIntegrity.
  cbn [isValid errors details difference actualGrandTotal].
  fold expected.
  destruct (verifyLineItems_appends (agg_currency g) (items g) 0%nat [])
    as [extra [Hrun Hiff]].
  rewrite Hrun. cbn [app].
  assert (Hlen : forall l : list IntegrityError,
            (length l =? 0)%nat = true <-> l = []).
  { intros l. destruct l; cbn; split; intros H; try reflexivity;
      discriminate H. }
  split; [apply Hlen |]. split; [| split; reflexivity].
  rewrite Hlen, <- Hiff.
  destruct (preciseEquals (grandTotal g) expected) eqn:E; cbn [negb].
  - apply preciseEquals_true in E. split; [intros H | intros [H _]]; auto.
  - split.
    + intros H. destruct extra; discriminate H.
    + intros [_ H]. apply preciseEquals_true in H. congruence.
Qed.

(** ** The columns of an aggregation *)

Lemma producedAt_fields (d : nat) (item : LineItemResult) :
  producedAt d item ->
  lineItemInvariant item
  /\ atScale d (taxableAmount (calculated item))
  /\ atScale d (taxAmount (calculated item))
  /\ atScale d (roundingAdjustment item).
Proof.
  intros [inp Hd | enteredTotal quantity taxRate discountAmount cur r Hr Hd].
  - destruct (derived_result_sound inp) as (Hinv & _ & Ht & Hx & Ha).
    split; [exact Hinv |].
    split; [| split]; eapply atScale_le; eassumption.
  - destruct (entered_result_sound _ _ _ _ _ r Hr)
      as (Hinv & _ & _ & Ht & Hx & Ha).
    split; [exact Hinv |].
    split; [| split]; eapply atScale_le; eassumption.
Qed.

Lemma Forall_atScale_map {A : Type} (d : nat) (f : A -> Decimal) (l : list A) :
  Forall (fun a => atScale d (f a)) l -> Forall (atScale d) (map f l).
Proof. induction 1; cbn [map]; constructor; assumption. Qed.

Lemma sum_of_line_totals (its : list LineItemResult) :
  Forall lineItemInvariant its ->
  preciseSum (map (fun item => total (calculated item)) its)
  == preciseSum (map (fun item => taxableAmount (calculated item)) its)
     + preciseSum (map (fun item => taxAmount (calculated item)) its)
     + preciseSum (map (fun item => roundingAdjustment item) its).
Proof.
  induction 1 as [| item rest Hitem _ IH]; cbn [map].
  - rewrite !preciseSum_nil. ring.
  - rewrite !preciseSum_cons, IH. unfold lineItemInvariant in Hitem.
    rewrite Hitem. ring.
Qed.

(** X25. The columns of [aggregateLineItems] foot: for line items produced
    by the two calculation modes in currencies of no more decimal places
    than the aggregation currency, totalTaxable, totalTax and
    totalAdjustment are the exact column sums, totalBeforeAdjustment is
    totalTaxable + totalTax, the grand total is totalBeforeAdjustment +
    totalAdjustment, itemCount is the number of items, and hasAdjustments
    is false exactly when the adjustments sum to zero. *)
Theorem aggregate_columns_foot (its : list LineItemResult) (c : string) :
  Forall (producedAt (getCurrencyDecimalPlaces c)) its ->
  let g := aggregateLineItems its c in
  totalTaxable g
  == preciseSum (map (fun item => taxableAmount (calculated item)) its)
  /\ totalTax g
     == preciseSum (map (fun item => taxAmount (calculated item)) its)
  /\ totalAdjustment g
     == preciseSum (map (fun item => roundingAdjustment item) its)
  /\ totalBeforeAdjustment g == totalTaxable g + totalTax g
  /\ grandTotal g == totalBeforeAdjustment g + totalAdjustment g
  /\ itemCount g = length its
  /\ (hasAdjustments g = false
      <-> preciseSum (map (fun item => roundingAdjustment item) its) == 0).
Proof.
  intros H g. set (d := getCurrencyDecimalPlaces c) in *.
  assert (Hinv : Forall lineItemInvariant its).
  { eapply Forall_impl; [exact H |]. intros item Hi.
    apply (producedAt_fields d item Hi). }
  assert (Ht : atScale d (preciseSum
                 (map (fun item => taxableAmount (calculated item)) its))).
  { apply atScale_preciseSum, Forall_atScale_map.
    eapply Forall_impl; [exact H |]. intros item Hi.
    apply (producedAt_fields d item Hi). }
  assert (Hx : atScale d (preciseSum
                 (map (fun item => taxAmount (calculated item)) its))).
  { apply atScale_preciseSum, Forall_atScale_map.
    eapply Forall_impl; [exact H |]. intros item Hi.
    apply (producedAt_fields d item Hi). }
  assert (Ha : atScale d (preciseSum
                 (map (fun item => roundingAdjustment item) its))).
  { apply atScale_preciseSum, Forall_atScale_map.
    eapply Forall_impl; [exact H |]. intros item Hi.
    apply (producedAt_fields d item Hi). }
  pose proof (sum_of_line_totals its Hinv) as Hsum.
  set (T := preciseSum (map (fun item => taxableAmount (calculated item)) its)) in *.
  set (X := preciseSum (map (fun item => taxAmount (calculated item)) its)) in *.
  set (A := preciseSum (map (fun item => roundingAdjustment item) its)) in *.
  set (S := preciseSum (map (fun item => total (calculated item)) its)) in *.
  destruct its as [| item rest].
  - unfold g. cbn.
    split; [reflexivity |]. split; [reflexivity |]. split; [reflexivity |].
    split; [reflexivity |]. split; [reflexivity |]. split; [reflexivity |].
    split; intros _; reflexivity.
  - unfold g, aggregateLineItems. cbn [length Nat.eqb].
    cbv zeta.
    cbn [totalTaxable totalTax totalAdjustment totalBeforeAdjustment
         grandTotal itemCount hasAdjustments].
    fold T X A S. unfold preciseAdd.
    assert (HT : roundForCurrency T c DEFAULT_ROUNDING_MODE == T)
      by (apply roundForCurrency_id; exact Ht).
    assert (HX : roundForCurrency X c DEFAULT_ROUNDING_MODE == X)
      by (apply roundForCurrency_id; exact Hx).
    set (rT := roundForCurrency T c DEFAULT_ROUNDING_MODE) in *.
    set (rX := roundForCurrency X c DEFAULT_ROUNDING_MODE) in *.
    assert (HrT : atScale d rT) by apply roundForCurrency_atScale.
    assert (HrX : atScale d rX) by apply roundForCurrency_atScale.
    assert (HB : roundForCurrency (rT + rX) c DEFAULT_ROUNDING_MODE == rT + rX)
      by (apply roundForCurrency_id, atScale_plus; assumption).
    set (rB := roundForCurrency (rT + rX) c DEFAULT_ROUNDING_MODE) in *.
    assert (HrB : atScale d rB) by apply roundForCurrency_atScale.
    assert (HG : roundForCurrency (rB + A) c DEFAULT_ROUNDING_MODE == rB + A)
      by (apply roundForCurrency_id, atScale_plus; assumption).
    assert (HS : roundForCurrency S c DEFAULT_ROUNDING_MODE == S).
    { apply roundForCurrency_id. apply (atScale_proper d (T + X + A)).
      - symmetry. exact Hsum.
      - repeat apply atScale_plus; assumption. }
    assert (Heq : preciseEquals
                    (roundForCurrency (rB + A) c DEFAULT_ROUNDING_MODE)
                    (roundForCurrency S c DEFAULT_ROUNDING_MODE) = true).
    { apply preciseEquals_true. rewrite HG, HS, HB, HT, HX, Hsum. reflexivity. }
    rewrite Heq. cbn [negb].
    assert (HA : roundForCurrency A c DEFAULT_ROUNDING_MODE == A)
      by (apply roundForCurrency_id; exact Ha).
    split; [exact HT |]. split; [exact HX |]. split; [exact HA |].
    split; [exact HB |].
    split; [rewrite HS, HA, HB, HT, HX, Hsum; reflexivity |].
    split; [reflexivity |].
    rewrite negb_false_iff. apply preciseIsZero_true.
Qed.

Lemma aggregate_columns_foot_witness :
  let its :=
    [ calculateLineItem
        {| in_unitPrice := Some 1000; in_quantity := 2;
           in_discountAmount := None; in_taxRate := Some 18;
           in_currency := Some "INR"%string |};
      calculateLineItem
        {| in_unitPrice := Some 750; in_quantity := 1;
           in_discountAmount := Some 100; in_taxRate := Some 18;
           in_currency := Some "INR"%string |} ] in
  Forall (producedAt (getCurrencyDecimalPlaces "INR")) its
  /\ (let g := aggregateLineItems its "INR" in
      totalTaxable g
      == preciseSum (map (fun item => taxableAmount (calculated item)) its)
      /\ totalTax g
         == preciseSum (map (fun item => taxAmount (calculated item)) its)
      /\ totalAdjustment g
         == preciseSum (map (fun item => roundingAdjustment item) its)
      /\ totalBeforeAdjustment g == totalTaxable g + totalTax g
      /\ grandTotal g == totalBeforeAdjustment g + totalAdjustment g
      /\ itemCount g = length its
      /\ (hasAdjustments g = false
          <-> preciseSum (map (fun item => roundingAdjustment item) its) == 0)).
Proof.
  intros its.
  assert (H : Forall (producedAt (getCurrencyDecimalPlaces "INR")) its).
  { constructor; [| constructor; [| constructor]];
      apply produced_derived; vm_compute; lia. }
  split; [exact H | apply (aggregate_columns_foot its "INR" H)].
Defined.

(** ** Discounts *)

(** X26. [calculateDiscount] caps the discount at the original amount, so
    the final amount is never negative; for an original amount that is a
    whole number of minor units, final + discount is exactly the original.
    Whatever the engine's percentage-of computation does, it is not called
    for a zero original amount, the only place where the function can
    throw. *)
Theorem calculateDiscount_capped
    (pctOf : Decimal -> Decimal -> result Decimal)
    (original : Decimal) (discountPercent discountAmount : option Decimal)
    (c : string) :
  match calculateDiscount pctOf original discountPercent discountAmount c with
  | Ok r =>
      dr_discountAmount r <= original
      /\ 0 <= finalAmount r
      /\ atScale (getCurrencyDecimalPlaces c) (finalAmount r)
      /\ (atScale (getCurrencyDecimalPlaces c) original ->
          finalAmount r + dr_discountAmount r == original)
  | Throw e =>
      ~ original == 0
      /\ exists discount : Decimal,
           discount <= original /\ pctOf discount original = Throw e
  end.
Proof.
  unfold calculateDiscount. cbv zeta.
  set (raw := match discountPercent, discountAmount with
              | Some p, Some a =>
                  if negb (preciseIsZero p) then precisePercentage original p
                  else a
              | Some p, None =>
                  if negb (preciseIsZero p) then precisePercentage original p
                  else 0
              | None, Some a => a
              | None, None => 0
              end).
  set (rounded := roundForCurrency raw c DEFAULT_ROUNDING_MODE).
  set (capped := if preciseGreaterThan rounded original
                 then original else rounded).
  assert (Hcap : capped <= original).
  { unfold capped. destruct (preciseGreaterThan rounded original) eqn:E.
    - lra.
    - apply preciseGreaterThan_false in E. exact E. }
  assert (Hfinal : 0 <= roundForCurrency (preciseSubtract original capped) c
                          DEFAULT_ROUNDING_MODE).
  { apply round_nonneg. unfold preciseSubtract. lra. }
  assert (Hexact : atScale (getCurrencyDecimalPlaces c) original ->
            roundForCurrency (preciseSubtract original capped) c
              DEFAULT_ROUNDING_MODE + capped == original).
  { intros Hs. rewrite roundForCurrency_id; [unfold preciseSubtract; ring |].
    apply atScale_minus; [exact Hs |].
    unfold capped. destruct (preciseGreaterThan rounded original);
      [exact Hs | apply roundForCurrency_atScale]. }
  destruct (preciseIsZero original) eqn:Ez.
  - cbn [mbind result_bind mret result_ret dr_discountAmount finalAmount].
    split; [exact Hcap |]. split; [exact Hfinal |].
    split; [apply roundForCurrency_atScale | exact Hexact].
  - destruct (pctOf capped original) as [pct | e] eqn:Ep;
      cbn [mbind result_bind mret result_ret dr_discountAmount finalAmount].
    + split; [exact Hcap |]. split; [exact Hfinal |].
      split; [apply roundForCurrency_atScale | exact Hexact].
    + split; [apply preciseIsZero_false; exact Ez |].
      exists capped. split; [exact Hcap | exact Ep].
Qed.

Lemma roundCurrencyNumber_nonneg (v : Decimal) (c : string)
    (dir : option Direction) :
  0 <= v -> 0 <= roundCurrencyNumber v c dir.
Proof.
  destruct (roundCurrencyNumber_round v c dir) as [mode ->].
  apply round_nonneg.
Qed.

(** X27. [calculateDiscountAmount] is 0 without a discount, a positive
    percentage takes precedence over a fixed amount, and for a non-negative
    total the discount it returns is never negative, whatever the
    configuration holds. *)
Theorem calculateDiscountAmount_nonneg
    (totalAmount : Decimal) (discount : option DiscountConfig) (c : string) :
  0 <= totalAmount ->
  0 <= calculateDiscountAmount totalAmount discount c
  /\ calculateDiscountAmount totalAmount None c = 0
  /\ (forall (value : Decimal) (fixed : option Decimal) (active : option bool),
        0 < value ->
        calculateDiscountAmount totalAmount
          (Some {| dc_value := Some value; dc_amount := fixed;
                   dc_isActive := active |}) c
        = percentageNumber totalAmount value c).
Proof.
  intros Ht. split; [| split; [reflexivity |]].
  - unfold calculateDiscountAmount, positiveNumber.
    destruct discount as [[value amount active] |]; [| lra].
    cbn [dc_value dc_amount].
    destruct value as [v |].
    + destruct (negb (Qeq_bool v 0) && negb (Qle_bool v 0)) eqn:Ev.
      * apply andb_true_iff in Ev. destruct Ev as [_ Ev].
        apply (preciseGreaterThan_true v 0) in Ev.
        unfold percentageNumber. apply roundCurrencyNumber_nonneg.
        unfold precisePercentage. apply Qle_shift_div_l; [reflexivity |]. nra.
      * destruct amount as [a |]; [| lra].
        destruct (negb (Qeq_bool a 0) && negb (Qle_bool a 0)) eqn:Ea; [| lra].
        apply andb_true_iff in Ea. destruct Ea as [_ Ea].
        apply (preciseGreaterThan_true a 0) in Ea.
        apply roundCurrencyNumber_nonneg. lra.
    + destruct amount as [a |]; [| lra].
      destruct (negb (Qeq_bool a 0) && negb (Qle_bool a 0)) eqn:Ea; [| lra].
      apply andb_true_iff in Ea. destruct Ea as [_ Ea].
      apply (preciseGreaterThan_true a 0) in Ea.
      apply roundCurrencyNumber_nonneg. lra.
  - intros value fixed active Hv.
    unfold calculateDiscountAmount, positiveNumber. cbn [dc_value].
    assert (E1 : Qeq_bool value 0 = false).
    { destruct (Qeq_bool value 0) eqn:E; [| reflexivity].
      apply Qeq_bool_iff in E. lra. }
    assert (E2 : Qle_bool value 0 = false).
    { destruct (Qle_bool value 0) eqn:E; [| reflexivity].
      apply Qle_bool_iff in E. lra. }
    rewrite E1, E2. reflexivity.
Qed.

Lemma calculateDiscountAmount_nonneg_witness :
  0 <= 1000
  /\ 0 <= calculateDiscountAmount 1000
            (Some {| dc_value := Some 10; dc_amount := Some 50;
                     dc_isActive := None |}) "INR"
  /\ calculateDiscountAmount 1000 None "INR" = 0
  /\ (forall (value : Decimal) (fixed : option Decimal) (active : option bool),
        0 < value ->
        calculateDiscountAmount 1000
          (Some {| dc_value := Some value; dc_amount := fixed;
                   dc_isActive := active |}) "INR"
        = percentageNumber 1000 value "INR").
Proof.
  assert (H : 0 <= 1000) by discriminate.
  split; [exact H |].
  apply (calculateDiscountAmount_nonneg 1000
           (Some {| dc_value := Some 10; dc_amount := Some 50;
                    dc_isActive := None |}) "INR" H).
Defined.
